(** * MemAlloc: a first-fit allocator over one mmap'ed region (src/mem.c)

    The public functions [Mem_Init], [Mem_Alloc], [Mem_Free] and
    [Mem_Dump], with the table and the totals it prints, are embedded as
    functions on an explicit program state:
    the two globals of mem.c ([allocated_once], [list_head]) and the memory
    holding the block headers.  Memory is a finite map from addresses to
    headers; header fields are read and written one at a time, in the
    order of the source, so that aliasing between the pointers of the
    source is kept.  Every header the code writes lies a whole number of
    header-widths from the start of the region, so headers never overlap
    each other in part; payload bytes are not modelled.

    [sizeof(block_header)] (8 where pointers are 4 bytes wide, 16 where
    they are 8) and [getpagesize()] are parameters. *)

From stdpp Require Import gmap list sorting.
From Stdlib Require Import ZArith Lia Sorted.

Local Open Scope Z_scope.

(** ** Outcomes

    A C call either returns, or has no defined behaviour (signed overflow
    of an [int], access through NULL or through a pointer to memory where
    the allocator never stored a header), or never leaves a loop. *)

Inductive outcome (A : Type) : Type :=
| Ret (a : A)
| Fault
| Loops.

Arguments Ret {A} a.
Arguments Fault {A}.
Arguments Loops {A}.

#[global] Instance outcome_bind : MBind outcome := λ A B k c,
  match c with
  | Ret a => k a
  | Fault => Fault
  | Loops => Loops
  end.

(** ** The C type [int] *)

Definition INT_MIN : Z := -2147483648.
Definition INT_MAX : Z := 2147483647.

(** The value of an [int] expression: defined when it is representable. *)
Definition int (z : Z) : outcome Z :=
  if decide (INT_MIN ≤ z ≤ INT_MAX) then Ret z else Fault.

(** ** Block headers and memory *)

(** [struct block_hd]; the pointer [next] is an address, NULL is 0. *)
Record block_header : Type := BlockHd {
  next : Z;
  size_status : Z
}.

#[global] Instance block_header_eq_dec : EqDecision block_header.
Proof. solve_decision. Defined.

(** Bytes never written by the allocator read as zero (the region comes
    from /dev/zero); this only matters for the field of a header that is
    written before its sibling field. *)
Definition zero_hd : block_header := BlockHd 0 0.

Definition peek (m : gmap Z block_header) (p : Z) : block_header :=
  default zero_hd (m !! p).

(** [p->next] and [p->size_status] as rvalues. *)
Definition rd_next (m : gmap Z block_header) (p : Z) : outcome Z :=
  if decide (p = 0) then Fault
  else match m !! p with Some h => Ret (next h) | None => Fault end.

Definition rd_size (m : gmap Z block_header) (p : Z) : outcome Z :=
  if decide (p = 0) then Fault
  else match m !! p with Some h => Ret (size_status h) | None => Fault end.

(** [p->next = v] and [p->size_status = v]. *)
Definition wr_next (m : gmap Z block_header) (p v : Z)
  : outcome (gmap Z block_header) :=
  if decide (p = 0) then Fault
  else Ret (<[p := BlockHd v (size_status (peek m p))]> m).

Definition wr_size (m : gmap Z block_header) (p v : Z)
  : outcome (gmap Z block_header) :=
  if decide (p = 0) then Fault
  else Ret (<[p := BlockHd (next (peek m p)) v]> m).

(** The globals of mem.c together with the header memory. *)
Record state : Type := State {
  allocated_once : Z;
  list_head : Z;
  mem : gmap Z block_header
}.

(** Program start: [allocated_once = 0], [list_head = NULL]. *)
Definition initial : state := State 0 0 ∅.

(** A walk along [next] pointers that has made more steps than there are
    headers in memory has come back to a header it has seen, and memory
    does not change while walking: it never ends.  One more than the
    number of headers is therefore enough fuel for every walk that ends. *)
Definition walk_fuel (m : gmap Z block_header) : nat := S (size m).

(** The address a walk goes to from [q]. *)
Definition nxt (m : gmap Z block_header) (q : Z) : Z := next (peek m q).

(** What the operating system answers to [open] and [mmap]. *)
Inductive os_reply : Type :=
| OpenFails
| MmapFails
| Mapped (space_ptr : Z).

Section MemAlloc.

(** [(int)sizeof(block_header)] and [getpagesize()]. *)
Variable hdr : Z.
Variable pagesize : Z.

(** *** Mem_Init *)

Definition Mem_Init (os : os_reply) (sizeOfRegion : Z) (st : state)
  : outcome (state * Z) :=
  if decide (0 ≠ allocated_once st) then Ret (st, -1)
  else if decide (sizeOfRegion ≤ 0) then Ret (st, -1)
  else
    let padsize := Z.rem sizeOfRegion pagesize in
    let padsize := Z.rem (pagesize - padsize) pagesize in
    alloc_size ← int (sizeOfRegion + padsize);
    match os with
    | OpenFails => Ret (st, -1)
    | MmapFails => Ret (State 0 (list_head st) (mem st), -1)
    | Mapped space_ptr =>
        m ← wr_next (mem st) space_ptr 0;
        sz ← int (alloc_size - hdr);
        m ← wr_size m space_ptr sz;
        Ret (State 1 space_ptr m, 0)
    end.

(** *** Mem_Alloc *)

(** Lines 143-160, and again 173-186: the block at [ptr] has passed the
    size test; split it when the rest can hold a header and 4 bytes. *)
Definition carve (m : gmap Z block_header) (ptr sizeBy4 sizeWithHead : Z)
  : outcome (gmap Z block_header * Z) :=
  s ← rd_size m ptr;
  d ← int (s - sizeWithHead);
  lim ← int (hdr + 4);
  if decide (lim ≤ d) then
    let newBlock := ptr + Z.quot sizeWithHead hdr * hdr in
    nx ← rd_next m ptr;
    m ← wr_next m newBlock nx;
    m ← wr_next m ptr newBlock;
    s ← rd_size m ptr;
    d ← int (s - sizeWithHead);
    m ← wr_size m newBlock d;
    m ← wr_size m ptr sizeBy4;
    s ← rd_size m ptr;
    s ← int (s + 1);
    m ← wr_size m ptr s;
    Ret (m, ptr + hdr)
  else
    s ← rd_size m ptr;
    s ← int (s + 1);
    m ← wr_size m ptr s;
    Ret (m, ptr + hdr).

(** The [while (ptr->next != NULL)] loop and the code for the last block
    that follows it. *)
Fixpoint alloc_scan (fuel : nat) (m : gmap Z block_header)
    (sizeBy4 sizeWithHead ptr : Z) : outcome (gmap Z block_header * Z) :=
  match fuel with
  | O => Loops
  | S fuel =>
      nx ← rd_next m ptr;
      if decide (nx ≠ 0) then
        s ← rd_size m ptr;
        if decide (Z.rem s 2 = 0) then
          if decide (sizeWithHead ≤ s) then carve m ptr sizeBy4 sizeWithHead
          else alloc_scan fuel m sizeBy4 sizeWithHead nx
        else alloc_scan fuel m sizeBy4 sizeWithHead nx
      else
        s ← rd_size m ptr;
        if decide (Z.rem s 2 = 0) then
          if decide (sizeWithHead ≤ s) then carve m ptr sizeBy4 sizeWithHead
          else Ret (m, 0)
        else Ret (m, 0)
  end.

(** [sizeBy4] and [sizeWithHead] of the source. *)
Definition round_up4 (size : Z) : outcome Z :=
  if decide (0 < Z.rem size 4) then int (size + (4 - Z.rem size 4))
  else Ret size.

Definition bytes_needed (size : Z) : outcome (Z * Z) :=
  sizeBy4 ← round_up4 size;
  sizeWithHead ← int (sizeBy4 + hdr);
  Ret (sizeBy4, sizeWithHead).

Definition Mem_Alloc (size : Z) (st : state) : outcome (state * Z) :=
  if decide (size ≤ 0) then Ret (st, 0)
  else
    '(sizeBy4, sizeWithHead) ← bytes_needed size;
    '(m, r) ← alloc_scan (walk_fuel (mem st)) (mem st)
                         sizeBy4 sizeWithHead (list_head st);
    Ret (State (allocated_once st) (list_head st) m, r).

(** *** Mem_Free *)

(** Lines 248-255: walk from [temp] until [newPtr] or NULL, remembering
    the block before. *)
Fixpoint find_prev (fuel : nat) (m : gmap Z block_header)
    (newPtr temp prev : Z) : outcome Z :=
  match fuel with
  | O => Loops
  | S fuel =>
      if decide (temp ≠ 0) then
        if decide (temp = newPtr) then Ret prev
        else
          nx ← rd_next m temp;
          find_prev fuel m newPtr nx temp
      else Ret prev
  end.

(** Lines 225-230.  The source writes [newPtr->next->size_status] in the
    test and again in the sum; nothing is stored in between, so the value
    read for the test ([sn]) is the one added. *)
Definition merge_next (m : gmap Z block_header) (newPtr : Z)
  : outcome (gmap Z block_header) :=
  nx ← rd_next m newPtr;
  if decide (nx ≠ 0) then
    sn ← rd_size m nx;
    if decide (Z.rem sn 2 = 0) then
      a ← int (sn + hdr);
      s ← rd_size m newPtr;
      s ← int (s + a);
      m ← wr_size m newPtr s;
      nx ← rd_next m newPtr;
      nn ← rd_next m nx;
      wr_next m newPtr nn
    else Ret m
  else Ret m.

(** Lines 258-263.  As above, [prev->size_status] is read once for the
    test and the sum; the sum is evaluated left to right. *)
Definition merge_prev (m : gmap Z block_header) (prev : Z)
  : outcome (gmap Z block_header) :=
  if decide (prev ≠ 0) then
    sp ← rd_size m prev;
    if decide (Z.rem sp 2 = 0) then
      pn ← rd_next m prev;
      sn ← rd_size m pn;
      a ← int (sp + sn);
      b ← int (a + hdr);
      m ← wr_size m prev b;
      pn ← rd_next m prev;
      nn ← rd_next m pn;
      wr_next m prev nn
    else Ret m
  else Ret m.

Definition Mem_Free (ptr : Z) (st : state) : outcome (state * Z) :=
  if decide (ptr = 0) then Ret (st, -1)
  else
    let newPtr := ptr - hdr in
    s ← rd_size (mem st) newPtr;
    if decide (Z.rem s 2 ≠ 1) then Ret (st, -1)
    else
      s ← int (s + -1);
      m ← wr_size (mem st) newPtr s;
      m ← merge_next m newPtr;
      if decide (newPtr = list_head st)
      then Ret (State (allocated_once st) (list_head st) m, 0)
      else
        prev ← find_prev (walk_fuel m) m newPtr (list_head st) 0;
        m ← merge_prev m prev;
        Ret (State (allocated_once st) (list_head st) m, 0).


(** *** Mem_Dump

    The three totals it prints: busy, free, and their sum. *)

Fixpoint dump_scan (fuel : nat) (m : gmap Z block_header)
    (current busy_size free_size total_size : Z) : outcome (Z * Z) :=
  match fuel with
  | O => Loops
  | S fuel =>
      if decide (0 ≠ current) then
        Size ← rd_size m current;
        if decide (Z.land Size 1 ≠ 0) then
          Size ← int (Size - 1);
          t_Size ← int (Size + hdr);
          busy_size ← int (busy_size + t_Size);
          total_size ← int (total_size + t_Size);
          current ← rd_next m current;
          dump_scan fuel m current busy_size free_size total_size
        else
          t_Size ← int (Size + hdr);
          free_size ← int (free_size + t_Size);
          total_size ← int (total_size + t_Size);
          current ← rd_next m current;
          dump_scan fuel m current busy_size free_size total_size
      else Ret (busy_size, free_size)
  end.

Definition Mem_Dump (st : state) : outcome (Z * Z * Z) :=
  '(busy_size, free_size) ←
    dump_scan (walk_fuel (mem st)) (mem st) (list_head st) 0 0 0;
  total ← int (busy_size + free_size);
  Ret (busy_size, free_size, total).

(** The same loop with the table it prints, one row for each block
    (line 318): serial number, status ([row_busy] stands for the string
    "Busy", its negation for "Free"), and the addresses and sizes. *)
Record dump_row : Type := DumpRow {
  row_No : Z;
  row_busy : bool;
  row_Begin : Z;
  row_End : Z;
  row_Size : Z;
  row_t_Size : Z;
  row_t_Begin : Z
}.

Fixpoint dump_rows (fuel : nat) (m : gmap Z block_header)
    (current counter busy_size free_size total_size : Z)
  : outcome (list dump_row * Z * Z) :=
  match fuel with
  | O => Loops
  | S fuel =>
      if decide (0 ≠ current) then
        let t_Begin := current in
        let Begin := t_Begin + hdr in
        Size ← rd_size m current;
        if decide (Z.land Size 1 ≠ 0) then
          Size ← int (Size - 1);
          t_Size ← int (Size + hdr);
          busy_size ← int (busy_size + t_Size);
          let End := Begin + Size in
          let row := DumpRow counter true Begin End Size t_Size t_Begin in
          total_size ← int (total_size + t_Size);
          current ← rd_next m current;
          counter ← int (counter + 1);
          '(rows, busy_size, free_size) ←
            dump_rows fuel m current counter busy_size free_size total_size;
          Ret (row :: rows, busy_size, free_size)
        else
          t_Size ← int (Size + hdr);
          free_size ← int (free_size + t_Size);
          let End := Begin + Size in
          let row := DumpRow counter false Begin End Size t_Size t_Begin in
          total_size ← int (total_size + t_Size);
          current ← rd_next m current;
          counter ← int (counter + 1);
          '(rows, busy_size, free_size) ←
            dump_rows fuel m current counter busy_size free_size total_size;
          Ret (row :: rows, busy_size, free_size)
      else Ret ([], busy_size, free_size)
  end.

Definition Mem_Dump_table (st : state) : outcome (list dump_row * Z * Z * Z) :=
  '(rows, busy_size, free_size) ←
    dump_rows (walk_fuel (mem st)) (mem st) (list_head st) 1 0 0 0;
  total ← int (busy_size + free_size);
  Ret (rows, busy_size, free_size, total).

(** ** Calls and reachable states *)

Inductive call : Type :=
| Init (os : os_reply) (sizeOfRegion : Z)
| Alloc (size : Z)
| Free (ptr : Z).

Definition run (c : call) (st : state) : outcome (state * Z) :=
  match c with
  | Init os sizeOfRegion => Mem_Init os sizeOfRegion st
  | Alloc size => Mem_Alloc size st
  | Free ptr => Mem_Free ptr st
  end.

(** [steps st st']: some sequence of calls, each of which returns, leads
    from [st] to [st']. *)
Inductive steps : state → state → Prop :=
| steps_refl st : steps st st
| steps_call st c st1 r st2 :
    run c st = Ret (st1, r) → steps st1 st2 → steps st st2.

(** Run a sequence of calls, collecting what they return. *)
Fixpoint run_all (cs : list call) (st : state) : outcome (state * list Z) :=
  match cs with
  | [] => Ret (st, [])
  | c :: cs =>
      '(st, r) ← run c st;
      '(st, rs) ← run_all cs st;
      Ret (st, r :: rs)
  end.

End MemAlloc.

(** ** The block list as a sequence

    [lseg m p q v]: following [next] from [p] one meets the blocks [v]
    (address and [size_status] of each, in list order) and arrives at
    [q].  A block list is a segment that ends at NULL. *)

Fixpoint lseg (m : gmap Z block_header) (p q : Z) (v : list (Z * Z)) : Prop :=
  match v with
  | [] => p = q
  | (a, s) :: v =>
      p = a ∧ a ≠ 0 ∧ ∃ nx, m !! a = Some (BlockHd nx s) ∧ lseg m nx q v
  end.

Definition chain (m : gmap Z block_header) (p : Z) (v : list (Z * Z)) : Prop :=
  lseg m p 0 v.

Definition block_list (st : state) (v : list (Z * Z)) : Prop :=
  chain (mem st) (list_head st) v.

(** The allocation flag is the lowest bit of [size_status]. *)
Definition is_free (s : Z) : bool := Z.even s.

(** Payload size: [size_status] for a free block, [size_status - 1] for an
    allocated one. *)
Definition payload (s : Z) : Z := if Z.odd s then s - 1 else s.

(** I3 for one header. *)
Definition payload_ok (s : Z) : Prop := 0 ≤ payload s ∧ payload s mod 4 = 0.

(** I3 for every header in memory, on the list or not. *)
Definition heap_ok (m : gmap Z block_header) : Prop :=
  ∀ a h, m !! a = Some h → payload_ok (size_status h).

(** I2 on the sequence of [size_status] values. *)
Fixpoint no_adjacent_free (l : list Z) : Prop :=
  match l with
  | s :: l =>
      match l with
      | t :: _ => ¬ (is_free s = true ∧ is_free t = true)
      | [] => True
      end ∧ no_adjacent_free l
  | [] => True
  end.

(** The size test of the allocator, on a block's [size_status]. *)
Definition fits (need s : Z) : Prop := is_free s = true ∧ need ≤ payload s.

#[global] Instance fits_dec need s : Decision (fits need s).
Proof. unfold fits. apply _. Defined.

(** The sum of I1: payload plus header, over all blocks. *)
Definition coverage (hdr : Z) (v : list (Z * Z)) : Z :=
  foldr (λ b acc, payload b.2 + hdr + acc) 0 v.

(** [getpagesize()]-rounded region size. *)
Definition region_size (pagesize sizeOfRegion : Z) : Z :=
  pagesize * ((sizeOfRegion + pagesize - 1) / pagesize).

(** The request rounded up to a multiple of 4. *)
Definition rounded (size : Z) : Z := 4 * ((size + 3) / 4).

(** The invariants of the data model, as far as the list itself goes: the
    list is finite and not empty (I4), addresses increase along it (I1),
    no two neighbours are free (I2), payloads are non-negative multiples
    of 4 (I3), and the covered size, the sum of I1, is an [int].  That
    each block ends where the next begins is not asked: no call reads it,
    and the first split of a block by a size that is not a multiple of the
    header size ends it. *)
Record data_model (hdr : Z) (st : state) (v : list (Z * Z)) : Prop := {
  dm_list : block_list st v;
  dm_nonempty : v ≠ [];
  dm_sorted : StronglySorted Z.lt v.*1;
  dm_no_adjacent_free : no_adjacent_free v.*2;
  dm_payload : Forall (λ b, payload_ok b.2) v;
  dm_coverage : coverage hdr v ≤ INT_MAX
}.

(** *** Deallocation on the sequence of blocks (spec 4.3, steps 1 to 3) *)

(** Step 2: a free successor is absorbed. *)
Definition absorb_next (hdr s : Z) (post : list (Z * Z)) : Z * list (Z * Z) :=
  match post with
  | (b, t) :: post' => if is_free t then (s + (t + hdr), post') else (s, post)
  | [] => (s, post)
  end.

(** Step 3: a free predecessor absorbs the block. *)
Definition absorb_into_prev (hdr : Z) (pre : list (Z * Z)) (a s : Z)
    (post : list (Z * Z)) : list (Z * Z) :=
  match last pre with
  | Some (c, u) =>
      if is_free u then removelast pre ++ (c, u + s + hdr) :: post
      else pre ++ (a, s) :: post
  | None => (a, s) :: post
  end.

(** The list [pre ++ (a, s) :: post] after the block at [a] is freed. *)
Definition coalesced (hdr : Z) (pre : list (Z * Z)) (a s : Z)
    (post : list (Z * Z)) : list (Z * Z) :=
  let '(s', post') := absorb_next hdr (s - 1) post in
  absorb_into_prev hdr pre a s' post'.

(** *** Allocation on the sequence of blocks *)

(** The list [pre ++ (a, s) :: post] after [size] bytes are taken from the
    free block at [a]: split where the rest can hold a header and 4 bytes,
    the new header where the code puts it. *)
Definition allocated (hdr size : Z) (pre : list (Z * Z)) (a s : Z)
    (post : list (Z * Z)) : list (Z * Z) :=
  let need := rounded size + hdr in
  if decide (hdr + 4 ≤ s - need) then
    pre ++ (a, rounded size + 1) :: (a + need ÷ hdr * hdr, s - need) :: post
  else pre ++ (a, s + 1) :: post.

(** *** Blocks that lie end to end *)

(** I1 in full: the blocks of [v] begin at [p], each ends where the next
    begins, and the last ends at [e]. *)
Fixpoint tiles (hdr p e : Z) (v : list (Z * Z)) : Prop :=
  match v with
  | [] => p = e
  | (a, s) :: v => p = a ∧ tiles hdr (a + hdr + payload s) e v
  end.

(** A state whose list satisfies the invariants of the data model and
    tiles the region that ends at [e]. *)
Definition region_ok (hdr e : Z) (st : state) (v : list (Z * Z)) : Prop :=
  data_model hdr st v ∧ tiles hdr (list_head st) e v ∧
  0 < list_head st ∧ allocated_once st ≠ 0.

(** A request that, rounded up to a multiple of 4, is a whole number of
    headers. *)
Definition whole_headers (hdr : Z) (c : call) : Prop :=
  match c with
  | Alloc size => 0 < size → rounded size mod hdr = 0
  | _ => True
  end.

(** *** What Mem_Dump adds up and prints *)

Definition busy_total (hdr : Z) (v : list (Z * Z)) : Z :=
  foldr (λ b acc, if is_free b.2 then acc else payload b.2 + hdr + acc) 0 v.

Definition free_total (hdr : Z) (v : list (Z * Z)) : Z :=
  foldr (λ b acc, if is_free b.2 then payload b.2 + hdr + acc else acc) 0 v.

(** The rows for the blocks [v], numbered from [k]. *)
Fixpoint table (hdr k : Z) (v : list (Z * Z)) : list dump_row :=
  match v with
  | [] => []
  | (a, s) :: v =>
      DumpRow k (negb (is_free s)) (a + hdr) (a + hdr + payload s)
              (payload s) (payload s + hdr) a
      :: table hdr (k + 1) v
  end.

(** Every header in memory lies a whole number of header-widths from
    [origin]; for a state, from the head of the list. *)
Definition aligned_mem (hdr origin : Z) (m : gmap Z block_header) : Prop :=
  ∀ a, is_Some (m !! a) → (a - origin) mod hdr = 0.

Definition aligned (hdr : Z) (st : state) : Prop :=
  aligned_mem hdr (list_head st) (mem st).

(** ** Concrete runs, with 4096-byte pages and the region at [base] *)

Definition base : Z := 65536.

(** Scenario A and Scenario B: the region is set up, then 100 bytes are
    requested. *)
Definition scenario_B : list call := [Init (Mapped base) 1024; Alloc 100].

Definition fresh_state : state := State 1 base {[base := BlockHd 0 4088]}.

Definition split_state : state :=
  State 1 base
    (<[base := BlockHd (base + 104) 101]>
       {[base + 104 := BlockHd 0 3980]}).

(** Six 4-byte blocks, the first five of them freed again. *)
Definition six_blocks_five_freed : list call :=
  [Init (Mapped base) 1024;
   Alloc 4; Alloc 4; Alloc 4; Alloc 4; Alloc 4; Alloc 4;
   Free (base + 8); Free (base + 16); Free (base + 24);
   Free (base + 32); Free (base + 40)].

(** The headers of the blocks that were merged into their predecessor:
    still in memory, no longer on the list. *)
Definition merged_headers : gmap Z block_header :=
  list_to_map
    [(base + 8, BlockHd (base + 16) 4); (base + 16, BlockHd (base + 24) 4);
     (base + 24, BlockHd (base + 32) 4); (base + 32, BlockHd (base + 40) 4)].

Definition three_blocks : state :=
  State 1 base
    (<[base := BlockHd (base + 40) 52]>
       (<[base + 40 := BlockHd (base + 48) 5]>
          (<[base + 48 := BlockHd 0 4016]> merged_headers))).

(** [three_blocks] after a request of 32 bytes. *)
Definition cyclic_state : state :=
  State 1 base
    (<[base := BlockHd (base + 40) 33]>
       (<[base + 40 := BlockHd (base + 40) 12]>
          (<[base + 48 := BlockHd 0 4016]> merged_headers))).

(** The same with a 16-byte header: four 12-byte blocks, the first three
    freed again, then 32 bytes. *)
Definition four_blocks_three_freed : list call :=
  [Init (Mapped base) 1024;
   Alloc 12; Alloc 12; Alloc 12; Alloc 12;
   Free (base + 16); Free (base + 32); Free (base + 48)].

Definition merged_headers_16 : gmap Z block_header :=
  list_to_map
    [(base + 16, BlockHd (base + 32) 12); (base + 32, BlockHd (base + 48) 12)].

Definition three_blocks_16 : state :=
  State 1 base
    (<[base := BlockHd (base + 48) 68]>
       (<[base + 48 := BlockHd (base + 64) 13]>
          (<[base + 64 := BlockHd 0 3968]> merged_headers_16))).

Definition cyclic_state_16 : state :=
  State 1 base
    (<[base := BlockHd (base + 48) 33]>
       (<[base + 48 := BlockHd (base + 48) 20]>
          (<[base + 64 := BlockHd 0 3968]> merged_headers_16))).

(** Seven 4-byte blocks and a 12-byte block; the seven freed; 56 bytes,
    then 4 bytes; the 12-byte block freed; 4 bytes again. *)
Definition bypassed_block_run : list call :=
  [Init (Mapped base) 1024;
   Alloc 4; Alloc 4; Alloc 4; Alloc 4; Alloc 4; Alloc 4; Alloc 4; Alloc 12;
   Free (base + 8); Free (base + 16); Free (base + 24); Free (base + 32);
   Free (base + 40); Free (base + 48); Free (base + 56);
   Alloc 56; Alloc 4; Free (base + 64); Alloc 4].

(** A request of 16 bytes, two headers with 8-byte headers: the rest
    begins where the payload ends. *)
Definition tiled_two : state :=
  State 1 base
    (<[base := BlockHd (base + 24) 17]> {[base + 24 := BlockHd 0 4064]}).

(** [tiled_two] after its block is freed; the header of the block that was
    merged stays in memory. *)
Definition tiled_two_freed : state :=
  State 1 base
    (<[base := BlockHd 0 4088]> {[base + 24 := BlockHd 0 4064]}).

(** [tiled_two] after a request of 8 bytes. *)
Definition tiled_three : state :=
  State 1 base
    (<[base := BlockHd (base + 24) 17]>
       (<[base + 24 := BlockHd (base + 40) 9]>
          {[base + 40 := BlockHd 0 4048]})).

(** Two 16-byte blocks, the first freed again: a free block of 16 bytes,
    a busy block, and the rest of the region. *)
Definition skip_state : state :=
  State 1 base
    (<[base := BlockHd (base + 24) 16]>
       (<[base + 24 := BlockHd (base + 48) 17]>
          {[base + 48 := BlockHd 0 4040]})).

(** [skip_state] after a request of 16 bytes. *)
Definition skip_state_alloc16 : state :=
  State 1 base
    (<[base := BlockHd (base + 24) 16]>
       (<[base + 24 := BlockHd (base + 48) 17]>
          (<[base + 48 := BlockHd (base + 72) 17]>
             {[base + 72 := BlockHd 0 4016]}))).

(** [skip_state] after its busy block is freed; the headers of the two
    blocks that were merged stay in memory. *)
Definition skip_state_freed : state :=
  State 1 base
    (<[base := BlockHd 0 4088]>
       (<[base + 24 := BlockHd 0 4064]>
          {[base + 48 := BlockHd 0 4040]})).

(** The state [bypassed_block_run] ends in: the list is the block at
    [base] and the block at [base + 64]; the block at [base + 56], whose
    payload address the last call returned, is not on it. *)
Definition bypassed_state : state :=
  State 1 base
    (list_to_map
       [(base, BlockHd (base + 64) 57); (base + 8, BlockHd (base + 16) 4);
        (base + 16, BlockHd (base + 24) 4); (base + 24, BlockHd (base + 32) 4);
        (base + 32, BlockHd (base + 40) 4); (base + 40, BlockHd (base + 48) 4);
        (base + 48, BlockHd (base + 56) 4); (base + 56, BlockHd (base + 64) 5);
        (base + 64, BlockHd 0 3992); (base + 72, BlockHd 0 3984)]).

(** Requests of whole headers. *)
Definition whole_run : list call := [Alloc 16; Alloc 40; Free (base + 8)].

Definition whole_run_state : state :=
  State 1 base
    (<[base := BlockHd (base + 24) 16]>
       (<[base + 24 := BlockHd (base + 72) 41]>
          {[base + 72 := BlockHd 0 4016]})).

(** ** Reasoning about outcomes *)

Lemma bind_Ret {A B : Type} (c : outcome A) (k : A → outcome B) (r : B) :
  c ≫= k = Ret r → ∃ a, c = Ret a ∧ k a = Ret r.
Proof. destruct c as [a| |]; simpl; [eauto | discriminate..]. Qed.

Lemma bind_ret_l {A B : Type} (a : A) (k : A → outcome B) : Ret a ≫= k = k a.
Proof. reflexivity. Qed.

Lemma int_Ret (z r : Z) : int z = Ret r → r = z ∧ INT_MIN ≤ z ≤ INT_MAX.
Proof. unfold int. case_decide; [|discriminate]. intros [= <-]. auto. Qed.

Lemma int_ok (z : Z) : INT_MIN ≤ z ≤ INT_MAX → int z = Ret z.
Proof. intros H. unfold int. by rewrite decide_True. Qed.

Lemma rd_size_Ret m p s :
  rd_size m p = Ret s ↔ p ≠ 0 ∧ ∃ nx, m !! p = Some (BlockHd nx s).
Proof.
  unfold rd_size. case_decide.
  - split; [discriminate | tauto].
  - destruct (m !! p) as [[nx s']|]; split.
    + intros [= <-]. eauto.
    + intros [_ [nx' [= _ ->]]]. done.
    + discriminate.
    + intros [_ [nx' ?]]. discriminate.
Qed.

Lemma rd_next_Ret m p nx :
  rd_next m p = Ret nx ↔ p ≠ 0 ∧ ∃ s, m !! p = Some (BlockHd nx s).
Proof.
  unfold rd_next. case_decide.
  - split; [discriminate | tauto].
  - destruct (m !! p) as [[nx' s]|]; split.
    + intros [= <-]. eauto.
    + intros [_ [s' [= -> _]]]. done.
    + discriminate.
    + intros [_ [s' ?]]. discriminate.
Qed.

Lemma rd_size_at m p nx s :
  p ≠ 0 → m !! p = Some (BlockHd nx s) → rd_size m p = Ret s.
Proof. intros. apply rd_size_Ret. eauto. Qed.

Lemma rd_next_at m p nx s :
  p ≠ 0 → m !! p = Some (BlockHd nx s) → rd_next m p = Ret nx.
Proof. intros. apply rd_next_Ret. eauto. Qed.

Lemma wr_size_at m p nx s v :
  p ≠ 0 → m !! p = Some (BlockHd nx s) →
  wr_size m p v = Ret (<[p := BlockHd nx v]> m).
Proof.
  intros Hp Hm. unfold wr_size, peek. rewrite decide_False by done.
  by rewrite Hm.
Qed.

Lemma wr_next_at m p nx s v :
  p ≠ 0 → m !! p = Some (BlockHd nx s) →
  wr_next m p v = Ret (<[p := BlockHd v s]> m).
Proof.
  intros Hp Hm. unfold wr_next, peek. rewrite decide_False by done.
  by rewrite Hm.
Qed.

Lemma wr_next_ok m p v :
  p ≠ 0 → wr_next m p v = Ret (<[p := BlockHd v (size_status (peek m p))]> m).
Proof. intros Hp. unfold wr_next. by rewrite decide_False. Qed.

Lemma wr_size_ok m p v :
  p ≠ 0 → wr_size m p v = Ret (<[p := BlockHd (next (peek m p)) v]> m).
Proof. intros Hp. unfold wr_size. by rewrite decide_False. Qed.

Lemma wr_size_Ret m p v m' :
  wr_size m p v = Ret m' →
  p ≠ 0 ∧ m' = <[p := BlockHd (next (peek m p)) v]> m.
Proof. unfold wr_size. case_decide; [discriminate|]. by intros [= <-]. Qed.

Lemma wr_next_Ret m p v m' :
  wr_next m p v = Ret m' →
  p ≠ 0 ∧ m' = <[p := BlockHd v (size_status (peek m p))]> m.
Proof. unfold wr_next. case_decide; [discriminate|]. by intros [= <-]. Qed.

(** Lookups in memory after a sequence of stores. *)
Ltac map_look :=
  repeat first
    [ rewrite lookup_insert_eq
    | rewrite lookup_insert_ne by (done || congruence) ].

(** Take a returning sequence of steps apart, one bind at a time. *)
Ltac ret_inv H :=
  let a := fresh "a" in
  let Ha := fresh "Ha" in
  let H' := fresh "H" in
  destruct (bind_Ret _ _ _ H) as (a & Ha & H'); clear H; rename H' into H.

Tactic Notation "bind_inv" hyp(H) "as" simple_intropattern(a) ident(Ha) :=
  let H' := fresh "H" in
  destruct (bind_Ret _ _ _ H) as (a & Ha & H'); clear H; rename H' into H.

Lemma state_eta (st : state) :
  State (allocated_once st) (list_head st) (mem st) = st.
Proof. by destruct st. Qed.
(** ** Arithmetic of the tests the code makes *)

Ltac zdiv := Z.to_euclidean_division_equations; lia.

Lemma rem2_free (s : Z) : Z.rem s 2 = 0 ↔ is_free s = true.
Proof.
  unfold is_free. rewrite Z.even_spec. split.
  - intros H. exists (s ÷ 2). zdiv.
  - intros [k ->]. zdiv.
Qed.

Lemma rem2_busy (s : Z) : Z.rem s 2 = 1 ↔ Z.odd s = true ∧ 0 ≤ s.
Proof.
  rewrite Z.odd_spec. split.
  - intros H. split; [exists (s ÷ 2) |]; zdiv.
  - intros [[k ->] H]. zdiv.
Qed.

Lemma is_free_odd (s : Z) : is_free s = negb (Z.odd s).
Proof. unfold is_free. by rewrite <- Z.negb_odd. Qed.

Lemma payload_free (s : Z) : is_free s = true → payload s = s.
Proof. rewrite is_free_odd. unfold payload. by destruct (Z.odd s). Qed.

Lemma payload_busy (s : Z) : Z.odd s = true → payload s = s - 1.
Proof. unfold payload. by intros ->. Qed.

Lemma round_up4_Ret (size r : Z) :
  0 < size → round_up4 size = Ret r → r = rounded size ∧ size ≤ r.
Proof.
  intros Hpos. unfold round_up4, rounded. case_decide.
  - intros [-> _]%int_Ret. zdiv.
  - intros [= <-]. zdiv.
Qed.

Lemma round_up4_ok (size : Z) :
  0 < size → rounded size ≤ INT_MAX → round_up4 size = Ret (rounded size).
Proof.
  intros Hpos Hle. unfold round_up4, rounded, INT_MAX in *. case_decide.
  - rewrite int_ok; [f_equal; zdiv | unfold INT_MIN, INT_MAX; zdiv].
  - f_equal. zdiv.
Qed.

Lemma rounded_mod4 (size : Z) : rounded size mod 4 = 0.
Proof. unfold rounded. zdiv. Qed.

Lemma rounded_ge (size : Z) : size ≤ rounded size < size + 4.
Proof. unfold rounded. zdiv. Qed.

Lemma alloc_size_region (pagesize n : Z) :
  0 < pagesize → 0 < n →
  n + Z.rem (pagesize - Z.rem n pagesize) pagesize = region_size pagesize n.
Proof.
  intros Hp Hn. unfold region_size.
  rewrite (Z.rem_mod_nonneg n) by lia.
  pose proof (Z.mod_pos_bound n pagesize Hp) as Hr.
  pose proof (Z.div_mod n pagesize ltac:(lia)) as Hq.
  rewrite Z.rem_mod_nonneg by lia.
  destruct (decide (n mod pagesize = 0)) as [H0|H0].
  - rewrite H0, Z.sub_0_r, Z.mod_same by lia.
    replace (n + pagesize - 1) with (n / pagesize * pagesize + (pagesize - 1)) by lia.
    rewrite Z.div_add_l, (Z.div_small (pagesize - 1)) by lia. lia.
  - rewrite (Z.mod_small (pagesize - n mod pagesize)) by lia.
    replace (n + pagesize - 1)
      with ((n / pagesize + 1) * pagesize + (n mod pagesize - 1)) by lia.
    rewrite Z.div_add_l, (Z.div_small (n mod pagesize - 1)) by lia. lia.
Qed.

Lemma region_size_bounds (pagesize n : Z) :
  0 < pagesize → 0 < n →
  pagesize ≤ region_size pagesize n ∧ n ≤ region_size pagesize n ∧
  region_size pagesize n mod pagesize = 0.
Proof.
  intros Hp Hn. unfold region_size.
  pose proof (Z.div_mod (n + pagesize - 1) pagesize ltac:(lia)) as Hq.
  pose proof (Z.mod_pos_bound (n + pagesize - 1) pagesize Hp) as Hr.
  assert (1 ≤ (n + pagesize - 1) / pagesize)
    by (apply Z.div_le_lower_bound; lia).
  repeat split; [nia | lia |].
  by rewrite Z.mul_comm, Z.mod_mul by lia.
Qed.

(** ** Segments of the block list *)

Lemma lseg_app m p q v1 v2 :
  lseg m p q (v1 ++ v2) ↔ ∃ r, lseg m p r v1 ∧ lseg m r q v2.
Proof.
  revert p. induction v1 as [|[a s] v1 IH]; intros p; simpl.
  - split; [eauto | by intros (r & -> & ?)].
  - split.
    + intros (-> & Ha & nx & Hm & Hl). apply IH in Hl as (r & ? & ?).
      exists r. eauto 10.
    + intros (r & (-> & Ha & nx & Hm & Hl) & Hr).
      split_and!; [done..|]. exists nx. split; [done|]. apply IH. eauto.
Qed.

Lemma lseg_frame m m' p q v :
  (∀ a, a ∈ v.*1 → m' !! a = m !! a) → lseg m p q v → lseg m' p q v.
Proof.
  revert p. induction v as [|[a s] v IH]; intros p Hsame; simpl; [done|].
  intros (-> & Ha & nx & Hm & Hl). split_and!; [done..|].
  exists nx. split.
  - rewrite Hsame; [done | simpl; left].
  - apply IH; [|done]. intros b Hb. apply Hsame. simpl. by right.
Qed.

Lemma lseg_insert m p q v a h :
  a ∉ v.*1 → lseg m p q v → lseg (<[a := h]> m) p q v.
Proof.
  intros Ha. apply lseg_frame. intros b Hb.
  apply lookup_insert_ne. by intros ->.
Qed.

Lemma lseg_start_nonzero m p q v : lseg m p q v → q ≠ 0 → p ≠ 0.
Proof. destruct v as [|[a s] v]; simpl; [by intros -> | by intros (-> & ? & _)]. Qed.

Lemma chain_inj m p v1 v2 : chain m p v1 → chain m p v2 → v1 = v2.
Proof.
  unfold chain. revert p v2.
  induction v1 as [|[a s] v1 IH]; intros p [|[b t] v2]; simpl; try done.
  - by intros -> (<- & ? & _).
  - by intros (-> & ? & _) ->.
  - intros (-> & _ & nx & Hm & Hl) (<- & _ & nx' & Hm' & Hl').
    rewrite Hm in Hm'. injection Hm' as <- <-. f_equal. eauto.
Qed.

Lemma chain_NoDup m p v : chain m p v → NoDup v.*1.
Proof.
  revert p. induction v as [|[a s] v IH]; intros p; simpl; [constructor|].
  intros Hc. pose proof Hc as (-> & Ha & nx & Hm & Hl).
  constructor; [|by eapply IH].
  intros (x & y & Heq)%list_elem_of_split.
  apply (f_equal length) in Heq as Hlen. rewrite length_fmap in Hlen.
  apply fmap_app_inv in Heq as (vx & vy & -> & Hy & ->).
  destruct vy as [|[a' s'] vy]; [done|]. simpl in Hy. injection Hy as <- _.
  unfold chain in Hl. apply lseg_app in Hl as (r & _ & Hr).
  pose proof Hr as (-> & _).
  pose proof (chain_inj _ _ _ _ Hc Hr) as Heq.
  apply (f_equal length) in Heq. rewrite !length_cons, length_app in Heq.
  simpl in Heq. lia.
Qed.

Lemma lseg_length m p q v :
  lseg m p q v → NoDup v.*1 → (length v ≤ size m)%nat.
Proof.
  intros Hc Hnd.
  rewrite <- (length_fmap fst), <- (size_list_to_set (C := gset Z)) by done.
  rewrite <- size_dom. apply subseteq_size.
  intros a Ha%elem_of_list_to_set. apply elem_of_dom.
  clear Hnd. revert p Hc.
  induction v as [|[b t] v IH]; intros p; simpl in *; [by apply elem_of_nil in Ha|].
  intros (-> & _ & nx & Hm & Hl).
  apply elem_of_cons in Ha as [-> | Ha]; [eauto | eauto].
Qed.

Lemma chain_length m p v : chain m p v → (length v ≤ size m)%nat.
Proof. intros Hc. eapply lseg_length; [done|]. by eapply chain_NoDup. Qed.

Lemma lseg_lookup m p q v a s :
  lseg m p q v → (a, s) ∈ v → a ≠ 0 ∧ ∃ nx, m !! a = Some (BlockHd nx s).
Proof.
  revert p. induction v as [|[b t] v IH]; intros p; simpl.
  - by intros _ ?%elem_of_nil.
  - intros (-> & Hb & nx & Hm & Hl) [[= -> ->] | Hin]%elem_of_cons; eauto.
Qed.

(** ** The invariants on sequences of blocks *)

Lemma coverage_app hdr (v1 v2 : list (Z * Z)) :
  coverage hdr (v1 ++ v2) = coverage hdr v1 + coverage hdr v2.
Proof.
  unfold coverage. induction v1 as [|b v1 IH]; simpl; [done|]. rewrite IH. lia.
Qed.

Lemma coverage_cons hdr a s (v : list (Z * Z)) :
  coverage hdr ((a, s) :: v) = payload s + hdr + coverage hdr v.
Proof. done. Qed.

Lemma coverage_nonneg hdr (v : list (Z * Z)) :
  0 ≤ hdr → Forall (λ b, payload_ok b.2) v → 0 ≤ coverage hdr v.
Proof.
  intros Hh. induction 1 as [|[a s] v [Hs _] _ IH]; [done|].
  rewrite coverage_cons. simpl in Hs. lia.
Qed.

Lemma no_adjacent_free_app (l1 l2 : list Z) :
  no_adjacent_free (l1 ++ l2) ↔
  no_adjacent_free l1 ∧ no_adjacent_free l2 ∧
  ∀ x y, last l1 = Some x → head l2 = Some y →
         ¬ (is_free x = true ∧ is_free y = true).
Proof.
  induction l1 as [|x l1 IH].
  - simpl. intuition (simplify_eq; eauto).
  - change ((x :: l1) ++ l2) with (x :: (l1 ++ l2)).
    cbn [no_adjacent_free]. rewrite IH, last_cons. clear IH.
    destruct l1 as [|x' l1]; [destruct l2 as [|y l2]|]; simpl.
    + intuition (simplify_eq; eauto).
    + intuition (simplify_eq; eauto).
    + destruct (last (x' :: l1)) as [z|] eqn:Hz;
        [intuition (simplify_eq; eauto)|].
      by apply last_None in Hz.
Qed.

(** After step 2 of a deallocation the block that follows is not free. *)
Lemma absorb_next_spec hdr s x (post : list (Z * Z)) :
  no_adjacent_free (s :: post.*2) →
  ∀ s' post', absorb_next hdr x post = (s', post') →
    no_adjacent_free post'.*2 ∧
    (∀ y, head post'.*2 = Some y → is_free y = false) ∧
    ∃ mid, post = mid ++ post' ∧
      (mid = [] ∧ s' = x ∨
       ∃ b t, mid = [(b, t)] ∧ is_free t = true ∧ s' = x + (t + hdr)).
Proof.
  intros Hnaf s' post'. destruct post as [|[b t] post]; simpl.
  - intros [= <- <-]. split_and!; [done..|]. exists []. auto.
  - destruct Hnaf as (_ & Hbt & Hpost). destruct (is_free t) eqn:Ht.
    + intros [= <- <-]. split_and!; [done| |].
      * intros y Hy. destruct post as [|[b' t'] post]; [done|].
        simpl in *. injection Hy as <-. destruct (is_free t'); [tauto|done].
      * exists [(b, t)]. split; [done|]. right. by exists b, t.
    + intros [= <- <-]. split_and!; [done| |].
      * by intros y [= <-].
      * exists []. auto.
Qed.

Lemma absorb_next_inv hdr x (post : list (Z * Z)) s' post' :
  absorb_next hdr x post = (s', post') →
  (post' = post ∧ s' = x ∧
   ∀ b t rest, post = (b, t) :: rest → is_free t = false) ∨
  (∃ b t, post = (b, t) :: post' ∧ is_free t = true ∧ s' = x + (t + hdr)).
Proof.
  destruct post as [|[b t] post]; simpl.
  - intros [= <- <-]. left. done.
  - destruct (is_free t) eqn:Ht; intros [= <- <-].
    + right. by exists b, t.
    + left. split_and!; [done..|]. by intros ? ? ? [= _ <- _].
Qed.

Lemma coalesced_cases hdr pre a s post :
  ∃ s' post', absorb_next hdr (s - 1) post = (s', post') ∧
    (pre = [] ∧ coalesced hdr pre a s post = (a, s') :: post' ∨
     ∃ pre' c u, pre = pre' ++ [(c, u)] ∧
       (is_free u = true ∧
        coalesced hdr pre a s post = pre' ++ (c, u + s' + hdr) :: post' ∨
        is_free u = false ∧
        coalesced hdr pre a s post = pre ++ (a, s') :: post')).
Proof.
  unfold coalesced. destruct (absorb_next hdr (s - 1) post) as [s' post'].
  exists s', post'. split; [done|]. unfold absorb_into_prev.
  destruct pre as [|[c u] pre' _] using rev_ind; [by left|].
  right. exists pre', c, u. split; [done|].
  rewrite last_snoc, removelast_last. destruct (is_free u); auto.
Qed.

Lemma mult4_free (x : Z) : x mod 4 = 0 → is_free x = true ∧ payload x = x.
Proof.
  intros Hx. assert (is_free x = true) as Hf.
  { unfold is_free. apply Z.even_spec. exists (x / 4 * 2). zdiv. }
  split; [done|]. by apply payload_free.
Qed.

Lemma payload_ok_free (x : Z) : payload_ok x → is_free x = true → 0 ≤ x ∧ x mod 4 = 0.
Proof. intros [H1 H2] Hf. by rewrite payload_free in H1, H2. Qed.

Lemma payload_ok_busy (x : Z) :
  payload_ok x → Z.odd x = true → 1 ≤ x ∧ (x - 1) mod 4 = 0.
Proof. intros [H1 H2] Hf. rewrite payload_busy in H1, H2 by done. lia. Qed.

Lemma payload_ok_mult4 (x : Z) : 0 ≤ x → x mod 4 = 0 → payload_ok x.
Proof. intros H1 H2. unfold payload_ok. by rewrite (proj2 (mult4_free x H2)). Qed.

Lemma sorted_sublist (l1 l2 : list Z) :
  l1 `sublist_of` l2 → StronglySorted Z.lt l2 → StronglySorted Z.lt l1.
Proof.
  induction 1 as [|x l1 l2 Hsub IH|x l1 l2 Hsub IH];
    intros Hs; [done|..]; apply StronglySorted_inv in Hs as [Hs Hall].
  - constructor; [auto|]. rewrite Forall_forall in *.
    intros y Hy. apply Hall. by eapply elem_of_sublist.
  - auto.
Qed.

(** Deallocation on the sequence of blocks keeps all the invariants on
    sequences, and the covered size. *)
Lemma coalesced_invariants hdr pre a s post :
  hdr mod 4 = 0 → 0 ≤ hdr → Z.odd s = true →
  let v := pre ++ (a, s) :: post in
  let v' := coalesced hdr pre a s post in
  v' ≠ [] ∧
  (StronglySorted Z.lt v.*1 → StronglySorted Z.lt v'.*1) ∧
  (no_adjacent_free v.*2 → no_adjacent_free v'.*2) ∧
  (Forall (λ b, payload_ok b.2) v →
   Forall (λ b, payload_ok b.2) v' ∧ coverage hdr v' = coverage hdr v).
Proof.
  intros Hh4 Hh Hs v v'. subst v v'.
  destruct (coalesced_cases hdr pre a s post) as (s' & post' & Habs & Hcase).
  assert (payload_ok s → payload_ok (s - 1) ∧ payload (s - 1) = payload s)
    as Hs1.
  { intros [? ?]%payload_ok_busy; [|done].
    rewrite (payload_busy s) by done.
    split; [by apply payload_ok_mult4; lia | by apply mult4_free]. }
  assert (is_free s = false) as Hbusy by (by rewrite is_free_odd, Hs).
  split_and!.
  - destruct Hcase as [[-> ->] | (pre' & c & u & -> & [[_ ->] | [_ ->]])];
      [done | by destruct pre' | by destruct pre'].
  - apply sorted_sublist.
    apply absorb_next_inv in Habs
      as [(-> & _ & _) | (b & t & -> & _ & _)];
      destruct Hcase as [[-> ->] | (pre' & c & u & -> & [[_ ->] | [_ ->]])];
      rewrite ?fmap_app, ?fmap_cons; simpl;
      rewrite <- ?(assoc_L (++)); simpl;
      repeat first [ done | apply sublist_app; [done|]
                   | apply sublist_skip | apply sublist_cons ].
  - rewrite !fmap_app, !fmap_cons. simpl.
    rewrite !no_adjacent_free_app. intros (Hpre & Hpost & Hb).
    pose proof (absorb_next_spec hdr s (s - 1) post Hpost _ _ Habs)
      as (Hpost' & Hhead & _).
    assert (∀ x, no_adjacent_free (x :: post'.*2)) as Hx.
    { intros x. split; [|done]. destruct (post'.*2) as [|y l]; [done|].
      rewrite (Hhead y) by done. intros [_ ?]. done. }
    destruct Hcase as [[-> ->] | (pre' & c & u & -> & [[Hu ->] | [Hu ->]])].
    + apply Hx.
    + rewrite fmap_app, fmap_cons, no_adjacent_free_app.
      rewrite fmap_app, no_adjacent_free_app in Hpre.
      destruct Hpre as (Hpre' & _ & Hb'). split; [done|]. split; [apply Hx|].
      intros x y Hx' _ [Hfx _]. by apply (Hb' x u Hx' eq_refl).
    + rewrite fmap_app, fmap_cons, no_adjacent_free_app.
      split; [done|]. split; [apply Hx|].
      intros x y Hlast _ [Hfx _].
      rewrite fmap_app in Hlast. change ([(c, u)].*2) with [u] in Hlast.
      rewrite last_snoc in Hlast. injection Hlast as <-. congruence.
  - intros Hall.
    apply Forall_app in Hall as (Hpre & [Hsok Hpost]%Forall_cons).
    simpl in Hsok. destruct (Hs1 Hsok) as [Hs1ok Hs1eq].
    assert (Forall (λ b, payload_ok b.2) post' ∧ payload_ok s' ∧
            is_free s' = true ∧
            payload s' + hdr + coverage hdr post'
            = payload s + hdr + coverage hdr post) as (Hpost' & Hs' & Hfs' & Hcov).
    { apply absorb_next_inv in Habs
        as [(-> & -> & _) | (b & t & -> & Ht & ->)].
      - split_and!; [done..| |lia].
        by apply mult4_free, payload_ok_busy.
      - apply Forall_cons in Hpost as [Htok Hpost]. simpl in Htok.
        destruct (payload_ok_free _ Htok Ht) as [? ?].
        destruct (payload_ok_busy _ Hsok Hs) as [? ?].
        assert ((s - 1 + (t + hdr)) mod 4 = 0) as Hm by zdiv.
        destruct (mult4_free _ Hm) as [? Hp].
        split_and!; [done|by apply payload_ok_mult4; lia|done|].
        rewrite coverage_cons, Hp, (payload_free t), (payload_busy s) by done.
        lia. }
    destruct Hcase as [[-> ->] | (pre' & c & u & -> & [[Hu ->] | [Hu ->]])].
    + split; [by constructor|]. rewrite app_nil_l, !coverage_cons. lia.
    + apply Forall_app in Hpre as (Hpre' & [Huok _]%Forall_cons).
      simpl in Huok. destruct (payload_ok_free _ Huok Hu) as [? ?].
      destruct (payload_ok_free _ Hs' Hfs') as [? ?].
      assert ((u + s' + hdr) mod 4 = 0) as Hm by zdiv.
      destruct (mult4_free _ Hm) as [? Hp].
      split.
      * apply Forall_app. split; [done|]. constructor; [|done].
        apply payload_ok_mult4; simpl; lia.
      * rewrite !coverage_app, !coverage_cons, Hp.
        unfold coverage at 4; simpl.
        rewrite (payload_free u) by done.
        rewrite (payload_free s') in Hcov by done. lia.
    + split.
      * apply Forall_app. split; [done|]. by constructor.
      * rewrite !coverage_app, !coverage_cons. lia.
Qed.

Section Properties.

Variable hdr : Z.
Variable pagesize : Z.

(** ** The globals *)

Lemma Mem_Alloc_globals size st st' r :
  Mem_Alloc hdr size st = Ret (st', r) →
  allocated_once st' = allocated_once st ∧ list_head st' = list_head st.
Proof.
  unfold Mem_Alloc. case_decide; [by intros [= <- _]|].
  intros E. ret_inv E. destruct a as [sizeBy4 sizeWithHead].
  ret_inv E. destruct a as [m p]. by injection E as <- _.
Qed.

Lemma Mem_Free_globals ptr st st' r :
  Mem_Free hdr ptr st = Ret (st', r) →
  allocated_once st' = allocated_once st ∧ list_head st' = list_head st.
Proof.
  unfold Mem_Free. case_decide; [by intros [= <- _]|].
  intros E. ret_inv E. case_decide; [by injection E as <- _|].
  do 3 ret_inv E. case_decide; [by injection E as <- _|].
  do 2 ret_inv E. by injection E as <- _.
Qed.

Lemma Mem_Init_once os n st :
  allocated_once st ≠ 0 → Mem_Init hdr pagesize os n st = Ret (st, -1).
Proof. intros H. unfold Mem_Init. by rewrite decide_True. Qed.

Lemma Mem_Init_flag os n st st' r :
  Mem_Init hdr pagesize os n st = Ret (st', r) →
  allocated_once st ≠ 0 → allocated_once st' ≠ 0.
Proof. intros H Hne. rewrite Mem_Init_once in H by done. by injection H as <- _. Qed.

Lemma steps_flag st st' :
  steps hdr pagesize st st' → allocated_once st ≠ 0 → allocated_once st' ≠ 0.
Proof.
  induction 1 as [|st c st1 r st2 Hrun _ IH]; [done|].
  intros Hne. apply IH. destruct c as [os n|size|ptr]; simpl in Hrun.
  - by eapply Mem_Init_flag.
  - apply Mem_Alloc_globals in Hrun as [-> _]. done.
  - apply Mem_Free_globals in Hrun as [-> _]. done.
Qed.

Lemma Mem_Init_success os n st st' :
  Mem_Init hdr pagesize os n st = Ret (st', 0) → allocated_once st' = 1.
Proof.
  unfold Mem_Init. repeat case_decide; try by intros [= _ ?].
  intros E. ret_inv E. destruct os as [| |space_ptr]; try by injection E.
  do 3 ret_inv E. by injection E as <-.
Qed.

(** C2, as amended.  Once a call to [Mem_Init] has succeeded, every later
    call fails, whatever its argument and whatever calls lie in between;
    [Mem_Init] also fails when the requested size is not strictly
    positive, and when the operating system refuses [open] or [mmap] (for
    a request whose page-rounded size is an [int]).  A failing call leaves
    the state as it was. *)
Theorem C2_init_failures os n st :
  (allocated_once st ≠ 0 → Mem_Init hdr pagesize os n st = Ret (st, -1)) ∧
  (n ≤ 0 → Mem_Init hdr pagesize os n st = Ret (st, -1)) ∧
  (0 < pagesize → region_size pagesize n ≤ INT_MAX →
   os = OpenFails ∨ os = MmapFails →
   Mem_Init hdr pagesize os n st = Ret (st, -1)) ∧
  (∀ st1 st2 os' n',
     Mem_Init hdr pagesize os n st = Ret (st1, 0) →
     steps hdr pagesize st1 st2 →
     Mem_Init hdr pagesize os' n' st2 = Ret (st2, -1)).
Proof.
  split_and!.
  - apply Mem_Init_once.
  - intros Hn. unfold Mem_Init. case_decide; [done|]. by rewrite decide_True.
  - intros Hp Hle Hos. unfold Mem_Init. case_decide; [done|].
    case_decide; [done|].
    rewrite alloc_size_region by lia.
    pose proof (region_size_bounds pagesize n ltac:(lia) ltac:(lia)).
    rewrite int_ok by (unfold INT_MIN; lia). rewrite bind_ret_l.
    destruct Hos as [-> | ->]; [done|].
    destruct st as [ao lh m]; simpl in *.
    by replace ao with 0 by (destruct (decide (ao = 0)); congruence).
  - intros st1 st2 os' n' Hinit Hsteps. apply Mem_Init_once.
    eapply steps_flag; [done|]. by rewrite (Mem_Init_success _ _ _ _ Hinit).
Qed.

(** ** Mem_Alloc along the list *)

Lemma quot_hdr_bounds need :
  0 < hdr → hdr ≤ need → hdr ≤ need ÷ hdr * hdr ≤ need.
Proof.
  intros Hh Hn. rewrite Z.quot_div_nonneg by lia.
  pose proof (Z.mul_div_le need hdr Hh).
  assert (1 ≤ need / hdr) by (apply Z.div_le_lower_bound; lia).
  nia.
Qed.

Lemma bytes_needed_Ret size sb need :
  0 < size → bytes_needed hdr size = Ret (sb, need) →
  sb = rounded size ∧ need = rounded size + hdr ∧ need ≤ INT_MAX.
Proof.
  intros Hpos E. unfold bytes_needed in E. do 2 ret_inv E.
  apply round_up4_Ret in Ha as [-> _]; [|done].
  apply int_Ret in Ha0 as [-> ?]. injection E as <- <-. lia.
Qed.

Lemma bytes_needed_ok size :
  0 < size → 0 < hdr → rounded size + hdr ≤ INT_MAX →
  bytes_needed hdr size = Ret (rounded size, rounded size + hdr).
Proof.
  intros Hpos Hh Hle. unfold bytes_needed.
  pose proof (rounded_ge size).
  rewrite round_up4_ok by lia. rewrite bind_ret_l.
  rewrite int_ok by (unfold INT_MIN; lia). done.
Qed.

Lemma carve_Ret m ptr sb need m' r :
  carve hdr m ptr sb need = Ret (m', r) → r = ptr + hdr ∧ is_Some (m !! ptr).
Proof.
  unfold carve. intros E. ret_inv E.
  apply rd_size_Ret in Ha as (_ & nx & Hm).
  do 2 ret_inv E. case_decide.
  - do 10 ret_inv E. injection E as _ <-. eauto.
  - do 3 ret_inv E. injection E as _ <-. eauto.
Qed.

(** What [carve] does to memory, all field writes put together. *)
Lemma carve_spec m ptr nx s sb need :
  ptr ≠ 0 → m !! ptr = Some (BlockHd nx s) → 0 < hdr → hdr ≤ need →
  carve hdr m ptr sb need =
    d ← int (s - need);
    lim ← int (hdr + 4);
    if decide (lim ≤ d) then
      let newBlock := ptr + need ÷ hdr * hdr in
      if decide (newBlock = 0) then Fault
      else
        s1 ← int (sb + 1);
        Ret (<[ptr := BlockHd newBlock s1]> (<[newBlock := BlockHd nx d]> m),
             ptr + hdr)
    else
      s1 ← int (s + 1);
      Ret (<[ptr := BlockHd nx s1]> m, ptr + hdr).
Proof.
  intros Hp Hm Hh Hn. unfold carve.
  rewrite (rd_size_at _ _ _ _ Hp Hm), bind_ret_l.
  destruct (int (s - need)) as [d| |] eqn:Hd; [|done..]. rewrite !bind_ret_l.
  destruct (int (hdr + 4)) as [lim| |]; [|done..]. rewrite !bind_ret_l.
  case_decide.
  - pose proof (quot_hdr_bounds need Hh Hn) as Hq.
    set (newBlock := ptr + need ÷ hdr * hdr).
    assert (newBlock ≠ ptr) as Hne by (unfold newBlock; lia).
    cbv zeta.
    rewrite (rd_next_at _ _ _ _ Hp Hm), bind_ret_l.
    destruct (decide (newBlock = 0)) as [Hz|Hz].
    { assert (wr_next m newBlock nx = Fault) as ->; [|done].
      unfold wr_next. by rewrite decide_True. }
    rewrite (wr_next_ok _ _ _ Hz), bind_ret_l.
    erewrite wr_next_at; [|done|by rewrite lookup_insert_ne].
    rewrite bind_ret_l.
    erewrite rd_size_at; [|done|by rewrite lookup_insert_eq].
    rewrite bind_ret_l, Hd, bind_ret_l.
    erewrite wr_size_at;
      [|done|by rewrite lookup_insert_ne, lookup_insert_eq].
    rewrite bind_ret_l.
    erewrite wr_size_at;
      [|done|by rewrite lookup_insert_ne, lookup_insert_eq].
    rewrite bind_ret_l.
    erewrite rd_size_at; [|done|by rewrite lookup_insert_eq].
    rewrite bind_ret_l.
    destruct (int (sb + 1)) as [s1| |]; [|done..]. rewrite !bind_ret_l.
    erewrite wr_size_at; [|done|by rewrite lookup_insert_eq].
    rewrite bind_ret_l. do 2 f_equal.
    apply map_eq. intros i.
    destruct (decide (i = ptr)) as [->|]; [by map_look|].
    destruct (decide (i = newBlock)) as [->|]; by map_look.
  - destruct (int (s + 1)) as [s1| |]; [|done..]. rewrite !bind_ret_l.
    by erewrite wr_size_at.
Qed.

Lemma alloc_scan_hit fuel m sb need a nx s :
  a ≠ 0 → m !! a = Some (BlockHd nx s) → fits need s →
  alloc_scan hdr (S fuel) m sb need a = carve hdr m a sb need.
Proof.
  intros Ha Hm [Hfree Hfit]. rewrite payload_free in Hfit by done.
  apply rem2_free in Hfree. simpl.
  rewrite (rd_next_at _ _ _ _ Ha Hm), bind_ret_l.
  rewrite (rd_size_at _ _ _ _ Ha Hm), !bind_ret_l.
  by repeat case_decide.
Qed.

Lemma alloc_scan_miss fuel m sb need a nx s :
  a ≠ 0 → m !! a = Some (BlockHd nx s) → ¬ fits need s →
  alloc_scan hdr (S fuel) m sb need a =
    if decide (nx ≠ 0) then alloc_scan hdr fuel m sb need nx else Ret (m, 0).
Proof.
  intros Ha Hm Hfit. simpl.
  rewrite (rd_next_at _ _ _ _ Ha Hm), bind_ret_l.
  rewrite (rd_size_at _ _ _ _ Ha Hm), !bind_ret_l.
  assert (¬ (Z.rem s 2 = 0 ∧ need ≤ s)) as Hno.
  { intros [Hfree%rem2_free Hle]. apply Hfit. split; [done|].
    by rewrite payload_free. }
  repeat case_decide; tauto.
Qed.

Lemma alloc_scan_skip fuel m sb need p q pre :
  lseg m p q pre → q ≠ 0 → Forall (λ b, ¬ fits need b.2) pre →
  alloc_scan hdr (length pre + fuel) m sb need p
  = alloc_scan hdr fuel m sb need q.
Proof.
  revert p. induction pre as [|[a s] pre IH]; intros p; simpl length.
  - by intros ->.
  - intros (-> & Ha & nx & Hm & Hl) Hq [Hs Hpre]%Forall_cons.
    change (S (length pre) + fuel)%nat with (S (length pre + fuel)).
    rewrite (alloc_scan_miss _ _ _ _ _ _ _ Ha Hm Hs).
    rewrite decide_True by (by eapply lseg_start_nonzero). by apply IH.
Qed.

(** Every list has a first block that passes the size test, or none. *)
Lemma first_fit_split need (v : list (Z * Z)) :
  Forall (λ b, ¬ fits need b.2) v ∨
  ∃ pre a s post, v = pre ++ (a, s) :: post ∧
    Forall (λ b, ¬ fits need b.2) pre ∧ fits need s.
Proof.
  induction v as [|[a s] v IH]; [by left|].
  destruct (decide (fits need s)) as [Hs|Hs].
  - right. exists [], a, s, v. split_and!; [done|constructor|done].
  - destruct IH as [IH | (pre & a' & s' & post & -> & Hpre & Hs')].
    + left. by constructor.
    + right. exists ((a, s) :: pre), a', s', post.
      split_and!; [done|by constructor|done].
Qed.

Lemma alloc_scan_none m sb need p v :
  chain m p v → v ≠ [] → Forall (λ b, ¬ fits need b.2) v →
  alloc_scan hdr (walk_fuel m) m sb need p = Ret (m, 0).
Proof.
  intros Hc Hne Hno. pose proof (chain_length _ _ _ Hc) as Hlen.
  destruct v as [|b v _] using rev_ind; [done|]. destruct b as [a s].
  rewrite length_app in Hlen. simpl in Hlen.
  apply lseg_app in Hc as (r & Hpre & (-> & Ha & nx & Hm & ->)).
  apply Forall_app in Hno as [Hno [Hs _]%Forall_cons].
  unfold walk_fuel.
  replace (S (size m)) with (length v + S (size m - length v))%nat by lia.
  rewrite (alloc_scan_skip _ _ _ _ _ _ _ Hpre Ha Hno).
  rewrite (alloc_scan_miss _ _ _ _ _ _ _ Ha Hm Hs). done.
Qed.

Lemma alloc_scan_first m sb need p pre a s post :
  chain m p (pre ++ (a, s) :: post) →
  Forall (λ b, ¬ fits need b.2) pre → fits need s →
  alloc_scan hdr (walk_fuel m) m sb need p = carve hdr m a sb need.
Proof.
  intros Hc Hno Hs. pose proof (chain_length _ _ _ Hc) as Hlen.
  rewrite length_app in Hlen. simpl in Hlen.
  apply lseg_app in Hc as (r & Hpre & (-> & Ha & nx & Hm & Hpost)).
  unfold walk_fuel.
  replace (S (size m)) with (length pre + S (size m - length pre))%nat by lia.
  rewrite (alloc_scan_skip _ _ _ _ _ _ _ Hpre Ha Hno).
  by eapply alloc_scan_hit.
Qed.

Lemma alloc_scan_null fuel m sb need p m' :
  (∀ a, is_Some (m !! a) → 0 < a) → 0 < hdr →
  alloc_scan hdr fuel m sb need p = Ret (m', 0) → m' = m.
Proof.
  intros Hpos Hh. revert p.
  induction fuel as [|fuel IH]; intros p; simpl; [done|].
  intros E. do 1 ret_inv E.
  assert (carve hdr m p sb need = Ret (m', 0) → False) as Hcarve.
  { intros [Hr Hsome%Hpos]%carve_Ret. lia. }
  case_decide; ret_inv E; repeat case_decide;
    first [ by apply Hcarve in E | by eapply IH | by injection E as <- ].
Qed.

Lemma sorted_after (pre post : list (Z * Z)) a s b t :
  StronglySorted Z.lt (pre ++ (a, s) :: post).*1 → (b, t) ∈ post → a < b.
Proof.
  rewrite fmap_app, fmap_cons. intros Hs%StronglySorted_app_1_r Hin.
  apply StronglySorted_inv in Hs as [_ Hall]. rewrite Forall_forall in Hall.
  apply (Hall b). by apply (list_elem_of_fmap_2 fst) in Hin.
Qed.

(** The block [Mem_Alloc] takes, and what it does with it. *)
Lemma Mem_Alloc_first_fit size st v st' p :
  block_list st v →
  Mem_Alloc hdr size st = Ret (st', p) → p ≠ 0 →
  0 < size ∧
  ∃ pre a s post,
    v = pre ++ (a, s) :: post ∧ p = a + hdr ∧
    fits (rounded size + hdr) s ∧
    Forall (λ b, ¬ fits (rounded size + hdr) b.2) pre ∧
    carve hdr (mem st) a (rounded size) (rounded size + hdr)
    = Ret (mem st', p).
Proof.
  intros Hc E Hp. unfold Mem_Alloc in E.
  case_decide as Hsize; [by injection E as _ <-|].
  split; [lia|].
  bind_inv E as [sb need] Hneed.
  apply bytes_needed_Ret in Hneed as (-> & -> & _); [|lia].
  bind_inv E as [m r] Hscan. injection E as <- <-.
  set (need := rounded size + hdr) in *.
  destruct (first_fit_split need v)
    as [Hno | (pre & a & s & post & -> & Hpre & Hs)].
  - destruct (decide (v = [])) as [->|Hne].
    + unfold block_list, chain in Hc. simpl in Hc. by rewrite Hc in Hscan.
    + rewrite (alloc_scan_none _ _ _ _ _ Hc Hne Hno) in Hscan.
      by injection Hscan as _ <-.
  - rewrite (alloc_scan_first _ _ _ _ _ _ _ _ Hc Hpre Hs) in Hscan.
    pose proof Hscan as [-> _]%carve_Ret.
    exists pre, a, s, post. by split_and!.
Qed.

(** What [carve] leaves at a free block that has passed the size test:
    the flag, over the rounded request after a split and over the payload
    the block had otherwise; and no header changed but that block's and
    the one placed for the rest. *)
Lemma carve_result m ptr nx s size m' r :
  0 < hdr → 0 < size → ptr ≠ 0 → m !! ptr = Some (BlockHd nx s) →
  fits (rounded size + hdr) s →
  carve hdr m ptr (rounded size) (rounded size + hdr) = Ret (m', r) →
  let s' := if decide (hdr + 4 ≤ s - (rounded size + hdr))
            then rounded size + 1 else s + 1 in
  (∃ nx', m' !! ptr = Some (BlockHd nx' s')) ∧
  is_free s' = false ∧ rounded size ≤ payload s' ∧
  ∀ i, i ≠ ptr → i ≠ ptr + (rounded size + hdr) ÷ hdr * hdr →
       m' !! i = m !! i.
Proof.
  intros Hh Hsize Hp Hm [Hfree Hfit] E.
  pose proof (rounded_ge size) as Hr. pose proof (rounded_mod4 size) as Hr4.
  rewrite payload_free in Hfit by done.
  assert (Z.odd (rounded size + 1) = true) as Hodd1.
  { rewrite Z.add_1_r, Z.odd_succ. apply (mult4_free _ Hr4). }
  assert (Z.odd (s + 1) = true) as Hodd2
    by (by rewrite Z.add_1_r, Z.odd_succ).
  rewrite (carve_spec _ _ _ _ _ _ Hp Hm) in E by lia.
  bind_inv E as d Hd. bind_inv E as lim Hlim.
  apply int_Ret in Hd as [-> _]. apply int_Ret in Hlim as [-> _].
  cbv zeta. case_decide as Hsplit.
  - cbv zeta in E. case_decide; [done|].
    bind_inv E as s1 Hs1. apply int_Ret in Hs1 as [-> _].
    injection E as <- _.
    split_and!; [eexists; by map_look|by rewrite is_free_odd, Hodd1| |].
    + rewrite payload_busy by done. lia.
    + intros i Hi1 Hi2. by map_look.
  - bind_inv E as s1 Hs1. apply int_Ret in Hs1 as [-> _].
    injection E as <- _.
    split_and!; [eexists; by map_look|by rewrite is_free_odd, Hodd2| |].
    + rewrite payload_busy by done. lia.
    + intros i Hi1 Hi2. by map_look.
Qed.

(** C5.  When [Mem_Alloc] returns an address, the block it has taken is the
    first block of the list that is free with a payload of at least the
    request rounded up to a multiple of 4 plus the header size; the address
    is the first byte after that block's header; every block before it
    fails the test, so on an address-ordered list it is the lowest fitting
    one, and no block with a smaller payload (a payload equal to the
    rounded request included) is ever the one returned.  After the call
    that block is allocated: its header carries the flag, over the rounded
    request where the block was split and over the payload it had where it
    was not; and on an address-ordered list the headers of the blocks that
    were passed over are as they were. *)
Theorem C5_first_fit size st v st' p :
  block_list st v →
  Mem_Alloc hdr size st = Ret (st', p) → p ≠ 0 →
  0 < size ∧
  ∃ pre a s post,
    v = pre ++ (a, s) :: post ∧ p = a + hdr ∧
    fits (rounded size + hdr) s ∧
    Forall (λ b, ¬ fits (rounded size + hdr) b.2) pre ∧
    (StronglySorted Z.lt v.*1 →
     ∀ b t, (b, t) ∈ v → fits (rounded size + hdr) t → a ≤ b) ∧
    (∀ b t, (b, t) ∈ v → payload t < rounded size + hdr → p ≠ b + hdr) ∧
    (0 < hdr →
     ∃ nx' s', mem st' !! a = Some (BlockHd nx' s') ∧
       is_free s' = false ∧ rounded size ≤ payload s' ∧
       s' = if decide (hdr + 4 ≤ s - (rounded size + hdr))
            then rounded size + 1 else s + 1) ∧
    (0 < hdr → StronglySorted Z.lt v.*1 →
     ∀ b t, (b, t) ∈ pre → mem st' !! b = mem st !! b).
Proof.
  intros Hc E Hp.
  destruct (Mem_Alloc_first_fit size st v st' p Hc E Hp)
    as (Hsize & pre & a & s & post & -> & -> & Hs & Hpre & Hcarve).
  destruct (lseg_lookup _ _ _ _ a s Hc) as (Ha & nx & Hm).
  { apply elem_of_app. right. left. }
  split; [done|]. exists pre, a, s, post. split_and!; [done..| | | |].
  - intros Hsort b t [Hin | [[= -> ->] | Hin]%elem_of_cons]%elem_of_app Hfit.
    + rewrite Forall_forall in Hpre. by destruct (Hpre _ Hin).
    + lia.
    + pose proof (sorted_after _ _ _ _ _ _ Hsort Hin). lia.
  - intros b t Hin Hsmall Heq. assert (b = a) as -> by lia.
    destruct (lseg_lookup _ _ _ _ _ _ Hc Hin) as (_ & nx' & Hm').
    rewrite Hm in Hm'. injection Hm' as _ <-. destruct Hs as [_ Hs]. lia.
  - intros Hh.
    destruct (carve_result _ _ _ _ _ _ _ Hh Hsize Ha Hm Hs Hcarve)
      as ([nx' Hm'] & Hbusy & Hpay & _).
    by eexists _, _.
  - intros Hh Hsort b t Hin.
    destruct (carve_result _ _ _ _ _ _ _ Hh Hsize Ha Hm Hs Hcarve)
      as (_ & _ & _ & Hframe).
    pose proof (rounded_ge size).
    pose proof (quot_hdr_bounds (rounded size + hdr) Hh ltac:(lia)).
    rewrite fmap_app, fmap_cons in Hsort.
    pose proof (StronglySorted_app_1_elem_of _ _ _ b a Hsort
                  (list_elem_of_fmap_2 fst _ _ Hin) ltac:(simpl; left))
      as Hlt.
    simpl in Hlt. apply Hframe; lia.
Qed.

(** Where [Mem_Alloc] does return NULL: with the state (so every header
    and the list head) exactly as it was, when the size is not strictly
    positive, and, on a list that is finite and for a request whose sizes
    are [int]s, when no block of the list passes the size test; and
    whenever it returns NULL the state is as it was. *)
Lemma Mem_Alloc_failure size st :
  (size ≤ 0 → Mem_Alloc hdr size st = Ret (st, 0)) ∧
  (∀ v, 0 < hdr → rounded size + hdr ≤ INT_MAX →
        block_list st v → v ≠ [] →
        Forall (λ b, ¬ fits (rounded size + hdr) b.2) v →
        Mem_Alloc hdr size st = Ret (st, 0)) ∧
  (∀ st', 0 < hdr → (∀ a, is_Some (mem st !! a) → 0 < a) →
          Mem_Alloc hdr size st = Ret (st', 0) → st' = st).
Proof.
  split_and!.
  - intros Hs. unfold Mem_Alloc. by rewrite decide_True.
  - intros v Hh Hle Hc Hne Hno. unfold Mem_Alloc.
    case_decide; [done|].
    rewrite bytes_needed_ok by lia. rewrite bind_ret_l.
    rewrite (alloc_scan_none _ _ _ _ _ Hc Hne Hno), bind_ret_l.
    by rewrite state_eta.
  - intros st' Hh Hpos E. unfold Mem_Alloc in E.
    case_decide; [by injection E as <-|].
    bind_inv E as [sb need] Hneed. bind_inv E as [m r] Hscan.
    injection E as <- ->.
    apply alloc_scan_null in Hscan as ->; [|done..]. by rewrite state_eta.
Qed.

(** ** Mem_Free: validation *)

Lemma Mem_Free_null st : Mem_Free hdr 0 st = Ret (st, -1).
Proof. unfold Mem_Free. by rewrite decide_True. Qed.

Lemma Mem_Free_not_busy ptr st nx s :
  ptr ≠ 0 → ptr - hdr ≠ 0 → mem st !! (ptr - hdr) = Some (BlockHd nx s) →
  Z.rem s 2 ≠ 1 → Mem_Free hdr ptr st = Ret (st, -1).
Proof.
  intros Hp Hn Hm Hs. unfold Mem_Free. rewrite decide_False by done.
  rewrite (rd_size_at _ _ _ _ Hn Hm), bind_ret_l.
  by rewrite decide_True.
Qed.

Lemma Mem_Free_result ptr st st' r :
  Mem_Free hdr ptr st = Ret (st', r) →
  (r = -1 ∧ st' = st ∧
   (ptr = 0 ∨ ∃ nx s, mem st !! (ptr - hdr) = Some (BlockHd nx s) ∧
                       Z.rem s 2 ≠ 1)) ∨
  (r = 0 ∧ ptr ≠ 0 ∧ ∃ nx s, mem st !! (ptr - hdr) = Some (BlockHd nx s) ∧
                               Z.rem s 2 = 1).
Proof.
  unfold Mem_Free. case_decide as Hp; [intros [= <- <-]; auto|].
  intros E. ret_inv E. apply rd_size_Ret in Ha as (_ & nx & Hm).
  case_decide as Hs; [injection E as <- <-; left; eauto 10|].
  right. assert (Z.rem a 2 = 1) by lia.
  do 3 ret_inv E. case_decide; [injection E as _ <-; eauto 10|].
  do 2 ret_inv E. injection E as _ <-. eauto 10.
Qed.

(** C10.  A call of [Mem_Free] that fails has changed nothing: the state
    it returns (every header, and the list head) is the state it was
    given; and it fails in exactly two cases, a NULL argument or a header
    before the address whose flag test fails, in both of which it does
    return. *)
Theorem C10_free_failure_atomic ptr st :
  (∀ st', Mem_Free hdr ptr st = Ret (st', -1) →
     st' = st ∧
     (ptr = 0 ∨ ∃ h, mem st !! (ptr - hdr) = Some h ∧
                     Z.rem (size_status h) 2 ≠ 1)) ∧
  (ptr = 0 → Mem_Free hdr ptr st = Ret (st, -1)) ∧
  (∀ h, ptr ≠ 0 → ptr - hdr ≠ 0 → mem st !! (ptr - hdr) = Some h →
        is_free (size_status h) = true →
        Mem_Free hdr ptr st = Ret (st, -1)).
Proof.
  split_and!.
  - intros st' [(_ & -> & Hcase) | (? & _)]%Mem_Free_result; [|done].
    split; [done|]. destruct Hcase as [?|(nx & s & ? & ?)]; [by left|].
    right. by exists (BlockHd nx s).
  - intros ->. apply Mem_Free_null.
  - intros [nx s] Hp Hn Hm Hfree. simpl in Hfree.
    eapply Mem_Free_not_busy; [done..|].
    apply rem2_free in Hfree. lia.
Qed.

(** ** Mem_Free: the two merges and the walk, one case at a time *)

Lemma not_free_rem2 (s : Z) : is_free s = false → Z.rem s 2 ≠ 0.
Proof. intros H E%rem2_free. congruence. Qed.

Lemma merge_next_last m a s :
  a ≠ 0 → m !! a = Some (BlockHd 0 s) → merge_next hdr m a = Ret m.
Proof.
  intros Ha Hm. unfold merge_next.
  rewrite (rd_next_at _ _ _ _ Ha Hm), bind_ret_l. by rewrite decide_False by lia.
Qed.

Lemma merge_next_busy m a nx s nn t :
  a ≠ 0 → m !! a = Some (BlockHd nx s) →
  nx ≠ 0 → m !! nx = Some (BlockHd nn t) → is_free t = false →
  merge_next hdr m a = Ret m.
Proof.
  intros Ha Hm Hnx Hn Ht%not_free_rem2. unfold merge_next.
  rewrite (rd_next_at _ _ _ _ Ha Hm), bind_ret_l, decide_True by done.
  rewrite (rd_size_at _ _ _ _ Hnx Hn), bind_ret_l. by rewrite decide_False.
Qed.

Lemma merge_next_free m a nx s nn t :
  a ≠ 0 → m !! a = Some (BlockHd nx s) →
  nx ≠ 0 → nx ≠ a → m !! nx = Some (BlockHd nn t) → is_free t = true →
  INT_MIN ≤ t + hdr ≤ INT_MAX → INT_MIN ≤ s + (t + hdr) ≤ INT_MAX →
  merge_next hdr m a = Ret (<[a := BlockHd nn (s + (t + hdr))]> m).
Proof.
  intros Ha Hm Hnx Hne Hn Ht%rem2_free Hb1 Hb2. unfold merge_next.
  rewrite (rd_next_at _ _ _ _ Ha Hm), bind_ret_l, decide_True by done.
  rewrite (rd_size_at _ _ _ _ Hnx Hn), bind_ret_l, decide_True by done.
  rewrite (int_ok _ Hb1), bind_ret_l.
  rewrite (rd_size_at _ _ _ _ Ha Hm), bind_ret_l.
  rewrite (int_ok _ Hb2), bind_ret_l.
  rewrite (wr_size_at _ _ _ _ _ Ha Hm), bind_ret_l.
  erewrite rd_next_at; [|done|by map_look]. rewrite bind_ret_l.
  erewrite rd_next_at; [|done|by map_look]. rewrite bind_ret_l.
  erewrite wr_next_at; [|done|by map_look]. by rewrite insert_insert_eq.
Qed.

Lemma merge_prev_none m : merge_prev hdr m 0 = Ret m.
Proof. unfold merge_prev. by rewrite decide_False by lia. Qed.

Lemma merge_prev_busy m c nx u :
  c ≠ 0 → m !! c = Some (BlockHd nx u) → is_free u = false →
  merge_prev hdr m c = Ret m.
Proof.
  intros Hc Hm Hu%not_free_rem2. unfold merge_prev.
  rewrite decide_True by done.
  rewrite (rd_size_at _ _ _ _ Hc Hm), bind_ret_l. by rewrite decide_False.
Qed.

Lemma merge_prev_free m c a u nn s :
  c ≠ 0 → m !! c = Some (BlockHd a u) → is_free u = true →
  a ≠ 0 → a ≠ c → m !! a = Some (BlockHd nn s) →
  INT_MIN ≤ u + s ≤ INT_MAX → INT_MIN ≤ u + s + hdr ≤ INT_MAX →
  merge_prev hdr m c = Ret (<[c := BlockHd nn (u + s + hdr)]> m).
Proof.
  intros Hc Hm Hu%rem2_free Ha Hne Hma Hb1 Hb2. unfold merge_prev.
  rewrite decide_True by done.
  rewrite (rd_size_at _ _ _ _ Hc Hm), bind_ret_l, decide_True by done.
  rewrite (rd_next_at _ _ _ _ Hc Hm), bind_ret_l.
  rewrite (rd_size_at _ _ _ _ Ha Hma), bind_ret_l.
  rewrite (int_ok _ Hb1), bind_ret_l, (int_ok _ Hb2), bind_ret_l.
  rewrite (wr_size_at _ _ _ _ _ Hc Hm), bind_ret_l.
  erewrite rd_next_at; [|done|by map_look]. rewrite bind_ret_l.
  erewrite rd_next_at; [|done|by map_look]. rewrite bind_ret_l.
  erewrite wr_next_at; [|done|by map_look]. by rewrite insert_insert_eq.
Qed.

(** The walk of lines 248-255 along a segment that does not contain
    [newPtr]: it stops at the end of the segment, which is [newPtr] itself
    or NULL, with [prev] on the last block of the segment. *)
Lemma find_prev_seg fuel m newPtr p q v prev :
  lseg m p q v → newPtr ∉ v.*1 → q = newPtr ∨ q = 0 →
  (length v < fuel)%nat →
  find_prev fuel m newPtr p prev = Ret (default prev (last v.*1)).
Proof.
  revert fuel p prev. induction v as [|[c u] v IH]; intros fuel p prev.
  - simpl. intros -> _ Hq Hlen. destruct fuel as [|fuel]; [lia|]. simpl.
    destruct Hq as [-> | ->]; [|by rewrite decide_False by lia].
    case_decide; [by rewrite decide_True|done].
  - intros (-> & Hc & nx & Hm & Hl) Hnot Hq Hlen.
    destruct fuel as [|fuel]; [simpl in Hlen; lia|]. simpl in Hlen |- *.
    rewrite decide_True by done.
    rewrite decide_False by (intros ->; apply Hnot; left).
    rewrite (rd_next_at _ _ _ _ Hc Hm), bind_ret_l.
    rewrite (IH fuel nx c Hl); [|by intros ?; apply Hnot; right|done|lia].
    rewrite last_cons. unfold fmap. by destruct (last _).
Qed.

Lemma lseg_start_in m p q (v : list (Z * Z)) :
  lseg m p q v → v ≠ [] → p ∈ v.*1.
Proof.
  destruct v as [|[a s] v]; [done|]. intros (-> & _) _. simpl. left.
Qed.

(** ** Mem_Free on a block of the list *)

Lemma merge_next_chain m a nx x post :
  a ≠ 0 → m !! a = Some (BlockHd nx x) → lseg m nx 0 post → a ∉ post.*1 →
  (∀ b t rest, post = (b, t) :: rest → is_free t = true →
     INT_MIN ≤ t + hdr ≤ INT_MAX ∧ INT_MIN ≤ x + (t + hdr) ≤ INT_MAX) →
  ∀ s' post', absorb_next hdr x post = (s', post') →
  ∃ nx', merge_next hdr m a = Ret (<[a := BlockHd nx' s']> m) ∧
         lseg m nx' 0 post'.
Proof.
  intros Ha Hm Hpost Hnot Hb s' post'.
  destruct post as [|[b t] post]; simpl absorb_next.
  - simpl in Hpost. subst nx. intros [= <- <-]. exists 0.
    rewrite (merge_next_last _ _ _ Ha Hm). by rewrite insert_id.
  - destruct Hpost as (-> & Hbne & nn & Hmb & Hrest).
    assert (b ≠ a) as Hba by (intros ->; apply Hnot; left).
    destruct (is_free t) eqn:Ht; intros [= <- <-].
    + exists nn. destruct (Hb b t post eq_refl Ht) as [Hb1 Hb2].
      by rewrite (merge_next_free _ _ _ _ _ _ Ha Hm Hbne Hba Hmb Ht Hb1 Hb2).
    + exists b. rewrite (merge_next_busy _ _ _ _ _ _ Ha Hm Hbne Hmb Ht).
      rewrite insert_id by done. split; [done|]. simpl. eauto 10.
Qed.

Lemma Mem_Free_chain st pre a s post :
  0 ≤ hdr → a + hdr ≠ 0 → Z.odd s = true →
  block_list st (pre ++ (a, s) :: post) →
  Forall (λ b, payload_ok b.2) (pre ++ (a, s) :: post) →
  coverage hdr (pre ++ (a, s) :: post) ≤ INT_MAX →
  ∃ m', Mem_Free hdr (a + hdr) st
        = Ret (State (allocated_once st) (list_head st) m', 0) ∧
        chain m' (list_head st) (coalesced hdr pre a s post).
Proof.
  intros Hh Hptr Hs Hc Hok Hcov.
  pose proof (chain_NoDup _ _ _ Hc) as Hnd.
  rewrite fmap_app, fmap_cons in Hnd.
  apply NoDup_app in Hnd as (Hndpre & Hdisj & Hnd2).
  apply NoDup_cons in Hnd2 as [Hapost Hndpost]. simpl in Hapost.
  assert (a ∉ pre.*1) as Hapre by (intros Hin; apply (Hdisj a Hin); left).
  unfold block_list, chain in Hc.
  apply lseg_app in Hc as (r & Hpre & (-> & Ha & nx & Hm & Hpost)).
  rewrite coverage_app, coverage_cons in Hcov.
  apply Forall_app in Hok as (Hokpre & [Hoks Hokpost]%Forall_cons).
  simpl in Hoks.
  pose proof (coverage_nonneg hdr pre Hh Hokpre) as Hcpre.
  pose proof (coverage_nonneg hdr post Hh Hokpost) as Hcpost.
  pose proof (payload_ok_busy _ Hoks Hs) as [Hs1 _].
  rewrite (payload_busy s Hs) in Hcov.
  unfold Mem_Free. rewrite decide_False by done.
  replace (a + hdr - hdr) with a by lia.
  rewrite (rd_size_at _ _ _ _ Ha Hm), bind_ret_l.
  rewrite decide_False by (intros Hne; apply Hne, rem2_busy; split; [done|lia]).
  rewrite int_ok by (unfold INT_MIN, INT_MAX in *; lia). rewrite bind_ret_l.
  rewrite (wr_size_at _ _ _ _ _ Ha Hm), bind_ret_l.
  replace (s + -1) with (s - 1) by lia.
  destruct (absorb_next hdr (s - 1) post) as [s' post'] eqn:Habs.
  assert ((a ∉ post'.*1) ∧ Forall (λ b, payload_ok b.2) post' ∧ 0 ≤ s' ∧
          s' + hdr + coverage hdr post' = s - 1 + hdr + coverage hdr post ∧
          post'.*1 `sublist_of` post.*1)
    as (Hapost' & Hokpost' & Hs'0 & Hs'cov & Hsub).
  { pose proof Habs as Hinv.
    apply absorb_next_inv in Hinv as [(-> & -> & _) | (b & t & -> & Ht & ->)].
    - split_and!; [done|done|lia|lia|done].
    - apply Forall_cons in Hokpost as [Htok Hokpost]. simpl in Htok.
      destruct (payload_ok_free _ Htok Ht) as [? _].
      rewrite coverage_cons, (payload_free t) by done.
      split_and!; [|done|lia|lia|by apply sublist_cons].
      intros Hin. apply Hapost. by right. }
  pose proof (coverage_nonneg hdr post' Hh Hokpost') as Hcpost'.
  edestruct (merge_next_chain (<[a := BlockHd nx (s - 1)]> (mem st))
               a nx (s - 1) post) as (nx' & Hmerge & Hpost');
    [done|by map_look|by apply lseg_insert|done| |exact Habs|].
  { intros b t rest -> Ht.
    apply Forall_cons in Hokpost as [Htok _]. simpl in Htok.
    destruct (payload_ok_free _ Htok Ht) as [? _].
    simpl in Habs. rewrite Ht in Habs. injection Habs as <- <-.
    rewrite coverage_cons, (payload_free t) in Hcov by done.
    unfold INT_MIN, INT_MAX in *. lia. }
  rewrite Hmerge, bind_ret_l, insert_insert_eq.
  set (m2 := <[a := BlockHd nx' s']> (mem st)).
  assert (lseg m2 nx' 0 post') as Hpost2.
  { apply lseg_insert; [done|].
    eapply lseg_frame; [|exact Hpost']. intros i Hi.
    symmetry. apply lookup_insert_ne. intros ->. done. }
  assert (chain m2 (list_head st) (pre ++ (a, s') :: post')) as Hc2.
  { apply lseg_app. exists a. split; [by apply lseg_insert|].
    split_and!; [done..|]. exists nx'. split; [by unfold m2; map_look|done]. }
  pose proof (chain_length _ _ _ Hc2) as Hlen. rewrite length_app in Hlen.
  unfold coalesced. rewrite Habs. unfold absorb_into_prev.
  destruct pre as [|[c u] pre' _] using rev_ind.
  - simpl in Hpre. rewrite decide_True by done. by exists m2.
  - rewrite decide_False; last first.
    { intros Heq. apply Hapre. rewrite Heq.
      eapply lseg_start_in; [done|]. by destruct pre'. }
    rewrite (find_prev_seg _ m2 a (list_head st) a (pre' ++ [(c, u)]) 0);
      [|by apply lseg_insert|done|by left|unfold walk_fuel; lia].
    rewrite fmap_app. change ([(c, u)].*1) with [c]. rewrite last_snoc.
    simpl default. rewrite bind_ret_l.
    rewrite last_snoc, removelast_last.
    apply lseg_app in Hpre as (r & Hpre' & (-> & Hcne & nxc & Hmc & Hnxc)).
    simpl in Hnxc. subst nxc.
    assert (c ≠ a) as Hca.
    { intros ->. apply Hapre. rewrite fmap_app. apply elem_of_app. right. left. }
    assert (m2 !! c = Some (BlockHd a u)) as Hmc2 by (by unfold m2; map_look).
    assert (m2 !! a = Some (BlockHd nx' s')) as Hma2 by (by unfold m2; map_look).
    rewrite fmap_app in Hndpre. apply NoDup_app in Hndpre as (_ & Hcpre' & _).
    assert (c ∉ pre'.*1) as Hcnot.
    { intros Hin. apply (Hcpre' c Hin). left. }
    assert (c ∉ post'.*1) as Hcnotpost.
    { intros Hin. apply (Hdisj c).
      - rewrite fmap_app. apply elem_of_app. right. left.
      - right. by eapply elem_of_sublist. }
    destruct (is_free u) eqn:Hu.
    + apply Forall_app in Hokpre as (Hokpre' & [Huok _]%Forall_cons).
      simpl in Huok. destruct (payload_ok_free _ Huok Hu) as [? _].
      rewrite coverage_app, coverage_cons, (payload_free u) in Hcov, Hcpre
        by done.
      pose proof (coverage_nonneg hdr pre' Hh Hokpre') as Hcpre'0.
      unfold coverage at 2 in Hcov; simpl in Hcov.
      rewrite (merge_prev_free m2 c a u nx' s');
        [|done..|unfold INT_MIN, INT_MAX in *; lia
         |unfold INT_MIN, INT_MAX in *; lia].
      rewrite bind_ret_l. eexists. split; [done|].
      apply lseg_app. exists c. split.
      * apply lseg_insert; [done|]. apply lseg_insert; [|done].
        intros Hin. apply Hapre. rewrite fmap_app. apply elem_of_app. by left.
      * split_and!; [done..|]. exists nx'. split; [by map_look|].
        by apply lseg_insert.
    + rewrite (merge_prev_busy m2 c a u); [|done..].
      rewrite bind_ret_l. by exists m2.
Qed.

Lemma merge_next_frame m a m' :
  merge_next hdr m a = Ret m' → ∀ i, i ≠ a → m' !! i = m !! i.
Proof.
  unfold merge_next. intros E i Hi. bind_inv E as nx Hnx.
  case_decide; [|by injection E as <-].
  bind_inv E as sn Hsn. case_decide; [|by injection E as <-].
  bind_inv E as x1 E1. bind_inv E as x2 E2. bind_inv E as x3 E3.
  bind_inv E as m1 Hm1. bind_inv E as x4 E4. bind_inv E as x5 E5.
  apply wr_size_Ret in Hm1 as [_ ->]. apply wr_next_Ret in E as [_ ->].
  by map_look.
Qed.

(** [Mem_Free] on the address after a header that is not a block of the
    list, should it return at all, leaves the list as it was. *)
Lemma Mem_Free_foreign st v ptr st' :
  block_list st v → v ≠ [] → ptr - hdr ∉ v.*1 →
  Mem_Free hdr ptr st = Ret (st', 0) →
  block_list st' v.
Proof.
  intros Hc Hne Hnot E. unfold Mem_Free in E.
  case_decide; [by injection E|].
  bind_inv E as s Hs. case_decide; [by injection E|].
  bind_inv E as s1 Hs1. bind_inv E as m1 Hm1. bind_inv E as m2 Hm2.
  apply wr_size_Ret in Hm1 as [_ ->].
  assert (chain m2 (list_head st) v) as Hc2.
  { eapply lseg_frame; [|exact Hc]. intros i Hi.
    assert (i ≠ ptr - hdr) as Hne' by (intros Heq; by rewrite Heq in Hi).
    rewrite (merge_next_frame _ _ _ Hm2) by done.
    by apply lookup_insert_ne. }
  case_decide as Hhead.
  { destruct Hnot. rewrite Hhead. by eapply lseg_start_in. }
  bind_inv E as prev Hprev. bind_inv E as m3 Hm3. injection E as <-.
  unfold block_list. simpl.
  rewrite (find_prev_seg _ m2 _ _ 0 v 0) in Hprev;
    [|done|done|by right
     |pose proof (chain_length _ _ _ Hc2); unfold walk_fuel; lia].
  injection Hprev as <-.
  destruct v as [|[c u] v' _] using rev_ind; [done|].
  rewrite fmap_app in Hm3. change ([(c, u)].*1) with [c] in Hm3.
  rewrite last_snoc in Hm3. simpl in Hm3.
  pose proof Hc2 as Hc2'.
  apply lseg_app in Hc2' as (r & _ & (-> & Hcne & nx & Hmc & Hnx)).
  simpl in Hnx. subst nx.
  unfold merge_prev in Hm3. rewrite decide_True in Hm3 by done.
  rewrite (rd_size_at _ _ _ _ Hcne Hmc), bind_ret_l in Hm3.
  case_decide; [|by injection Hm3 as <-].
  by rewrite (rd_next_at _ _ _ _ Hcne Hmc), bind_ret_l in Hm3.
Qed.

(** C4.  On a state that satisfies the invariants of the data model,
    every call of [Mem_Free] that returns leaves a state that satisfies
    them again, with the same covered size: in particular no two
    neighbours of the list are both free.  Called on the payload address
    of a busy block of the list it does return, with success, and the list
    is then [coalesced]: the block has absorbed a free successor, and a
    free predecessor, found by the walk from the head, has absorbed the
    block. *)
Theorem C4_no_adjacent_free ptr st v :
  hdr mod 4 = 0 → 0 < hdr → data_model hdr st v →
  (∀ st' r, Mem_Free hdr ptr st = Ret (st', r) →
     ∃ v', data_model hdr st' v' ∧ no_adjacent_free v'.*2 ∧
           coverage hdr v' = coverage hdr v) ∧
  (∀ pre s post,
     ptr ≠ 0 → v = pre ++ (ptr - hdr, s) :: post → Z.odd s = true →
     ∃ st', Mem_Free hdr ptr st = Ret (st', 0) ∧
            block_list st' (coalesced hdr pre (ptr - hdr) s post)).
Proof.
  intros Hh4 Hh [Hc Hne Hsort Hnaf Hok Hcov].
  assert (∀ pre s post,
     ptr ≠ 0 → v = pre ++ (ptr - hdr, s) :: post → Z.odd s = true →
     ∃ st', Mem_Free hdr ptr st = Ret (st', 0) ∧
            block_list st' (coalesced hdr pre (ptr - hdr) s post)) as Hin.
  { intros pre s post Hp -> Hs.
    destruct (Mem_Free_chain st pre (ptr - hdr) s post) as (m' & E & Hc');
      [lia|lia|done..|].
    replace (ptr - hdr + hdr) with ptr in E by lia. eauto. }
  split; [|done].
  intros st' r E0.
  destruct (Mem_Free_result _ _ _ _ E0)
    as [(-> & -> & _) | (-> & Hp & nx & s & Hm & Hs)].
  { exists v. by repeat split. }
  destruct (decide (ptr - hdr ∈ v.*1)) as [Hel|Hel].
  - apply list_elem_of_fmap in Hel as ([a s0] & Ha & Hel). simpl in Ha.
    subst a.
    destruct (lseg_lookup _ _ _ _ _ _ Hc Hel) as (_ & nx0 & Hm0).
    rewrite Hm in Hm0. injection Hm0 as <- <-.
    apply list_elem_of_split in Hel as (pre & post & ->).
    apply rem2_busy in Hs as [Hs _].
    destruct (Hin pre s post Hp eq_refl Hs) as (st'' & E & Hc').
    assert (st'' = st') as -> by congruence.
    destruct (coalesced_invariants hdr pre (ptr - hdr) s post
                Hh4 ltac:(lia) Hs) as (? & Hso & Hna & Hpo).
    destruct (Hpo Hok) as [? Heq].
    exists (coalesced hdr pre (ptr - hdr) s post).
    split_and!; [|by apply Hna|done].
    split; [done|done|by apply Hso|by apply Hna|done|by rewrite Heq].
  - exists v. split_and!; [|done..].
    split; [|done..]. by eapply Mem_Free_foreign.
Qed.

(** ** Allocation followed by deallocation *)

Lemma Mem_Init_Mapped space_ptr n st st1 :
  0 < pagesize →
  Mem_Init hdr pagesize (Mapped space_ptr) n st = Ret (st1, 0) →
  0 < n ∧ space_ptr ≠ 0 ∧ region_size pagesize n ≤ INT_MAX ∧
  INT_MIN ≤ region_size pagesize n - hdr ∧
  st1 = State 1 space_ptr
          (<[space_ptr := BlockHd 0 (region_size pagesize n - hdr)]> (mem st)).
Proof.
  intros Hp. unfold Mem_Init. case_decide; [by intros [= _ ?]|].
  case_decide; [by intros [= _ ?]|]. intros E.
  rewrite alloc_size_region in E by lia.
  bind_inv E as asz Hasz. apply int_Ret in Hasz as [-> ?].
  bind_inv E as m1 Hm1. bind_inv E as sz Hsz. bind_inv E as m2 Hm2.
  apply int_Ret in Hsz as [-> ?]. apply wr_next_Ret in Hm1 as [? ->].
  apply wr_size_Ret in Hm2 as [_ ->]. injection E as <-.
  split_and!; [lia|done|lia|lia|]. f_equal.
  unfold peek. rewrite lookup_insert_eq. simpl. by rewrite insert_insert_eq.
Qed.

(** Scenario A: after a successful first [Mem_Init] the list is one free
    block that spans the region, and the invariants hold. *)
Lemma Mem_Init_data_model space_ptr n st1 :
  0 < pagesize → pagesize mod 4 = 0 → hdr mod 4 = 0 → 0 < hdr ≤ pagesize →
  Mem_Init hdr pagesize (Mapped space_ptr) n initial = Ret (st1, 0) →
  data_model hdr st1 [(space_ptr, region_size pagesize n - hdr)] ∧
  is_free (region_size pagesize n - hdr) = true ∧
  coverage hdr [(space_ptr, region_size pagesize n - hdr)]
  = region_size pagesize n.
Proof.
  intros Hp Hp4 Hh4 Hh E.
  apply Mem_Init_Mapped in E as (Hn & Hsp & Hmax & Hmin & ->); [|done].
  destruct (region_size_bounds pagesize n Hp Hn) as (Hge & _ & Hmod).
  assert ((region_size pagesize n - hdr) mod 4 = 0) as Hm4.
  { apply Z.mod_divide in Hmod; [|lia]. destruct Hmod as [k ->].
    apply Z.mod_divide in Hp4; [|lia]. destruct Hp4 as [j ->]. zdiv. }
  destruct (mult4_free _ Hm4) as [Hfree Hpay].
  assert (coverage hdr [(space_ptr, region_size pagesize n - hdr)]
          = region_size pagesize n) as Hcov.
  { rewrite coverage_cons, Hpay. unfold coverage. simpl. lia. }
  split_and!; [|done..]. split.
  - unfold block_list, chain. simpl. split_and!; [done..|].
    exists 0. by rewrite lookup_insert_eq.
  - done.
  - repeat constructor.
  - by simpl.
  - repeat constructor; simpl; [lia | by rewrite Hpay].
  - by rewrite Hcov.
Qed.

(** The rest of [Mem_Free] after the forward merge, when the block before
    [a] is busy: nothing more is written. *)
Lemma free_tail m ao head a pre :
  lseg m head a pre → NoDup pre.*1 → a ∉ pre.*1 → a ≠ 0 →
  (∀ c u, last pre = Some (c, u) → is_free u = false) →
  (if decide (a = head) then Ret (State ao head m, 0)
   else
     prev ← find_prev (walk_fuel m) m a head 0;
     m' ← merge_prev hdr m prev;
     Ret (State ao head m', 0))
  = Ret (State ao head m, 0).
Proof.
  intros Hpre Hnd Hnot Ha Hbusy. case_decide; [done|].
  rewrite (find_prev_seg _ m a head a pre 0);
    [|done|done|by left
     |pose proof (lseg_length _ _ _ _ Hpre Hnd); unfold walk_fuel; lia].
  rewrite bind_ret_l.
  destruct pre as [|[c u] pre' _] using rev_ind.
  - change (default 0 (last ([] : list (Z * Z)).*1)) with 0.
    by rewrite merge_prev_none.
  - rewrite fmap_app. change ([(c, u)].*1) with [c]. rewrite last_snoc.
    apply lseg_app in Hpre as (r & _ & (-> & Hc & nx & Hm & _)).
    simpl default. rewrite (merge_prev_busy m c nx u); [done..|].
    apply (Hbusy c). by rewrite last_snoc.
Qed.

Lemma rounded_busy size : 0 < size → Z.rem (rounded size + 1) 2 = 1.
Proof. intros. unfold rounded. zdiv. Qed.

Lemma alloc_free_roundtrip st v size st1 p :
  hdr mod 4 = 0 → 0 < hdr → data_model hdr st v →
  Mem_Alloc hdr size st = Ret (st1, p) → p ≠ 0 →
  ∃ m2 nx s,
    Mem_Free hdr p st1
    = Ret (State (allocated_once st) (list_head st) m2, 0) ∧
    p - hdr ≠ 0 ∧
    mem st !! (p - hdr) = Some (BlockHd nx s) ∧ is_free s = true ∧
    m2 !! (p - hdr) = Some (BlockHd nx s) ∧
    (m2 = mem st ∧ ¬ hdr + 4 ≤ s - (rounded size + hdr) ∨
     ∃ nb h, nb ≠ p - hdr ∧ nb ≠ 0 ∧ m2 = <[nb := h]> (mem st) ∧
       mem st1 = <[p - hdr := BlockHd nb (rounded size + 1)]> m2 ∧
       nb = p - hdr + (rounded size + hdr) ÷ hdr * hdr ∧
       h = BlockHd nx (s - (rounded size + hdr)) ∧
       hdr + 4 ≤ s - (rounded size + hdr)).
Proof.
  intros Hh4 Hh [Hc Hne Hsort Hnaf Hok Hcov] E Hp.
  destruct (Mem_Alloc_first_fit size st v st1 p Hc E Hp)
    as (Hsize & pre & a & s & post & -> & -> & [Hfree Hfit] & _ & Hcarve).
  replace (a + hdr - hdr) with a by lia.
  rewrite payload_free in Hfit by done.
  pose proof (chain_NoDup _ _ _ Hc) as Hnd.
  rewrite fmap_app, fmap_cons in Hnd.
  apply NoDup_app in Hnd as (Hndpre & Hdisj & Hnd2).
  assert (a ∉ pre.*1) as Hapre by (intros Hin; apply (Hdisj a Hin); left).
  pose proof Hc as Hc'. unfold block_list, chain in Hc'.
  apply lseg_app in Hc' as (r & Hpre & (-> & Ha & nx & Hm & Hpost)).
  pose proof (rounded_ge size) as Hr. pose proof (rounded_mod4 size) as Hr4.
  (* the sizes are ints *)
  assert (s ≤ INT_MAX) as Hsmax.
  { rewrite coverage_app, coverage_cons, (payload_free s) in Hcov by done.
    apply Forall_app in Hok as (Hokpre & [_ Hokpost]%Forall_cons).
    pose proof (coverage_nonneg hdr pre ltac:(lia) Hokpre).
    pose proof (coverage_nonneg hdr post ltac:(lia) Hokpost). lia. }
  (* the neighbours of a free block are busy *)
  rewrite fmap_app, fmap_cons, no_adjacent_free_app in Hnaf.
  destruct Hnaf as (_ & Hnafpost & Hb).
  assert (∀ c u, last pre = Some (c, u) → is_free u = false) as Hprev.
  { intros c u Hl. destruct (is_free u) eqn:Hu; [|done].
    destruct (Hb u s); [|done|done]. by rewrite fmap_last, Hl. }
  assert (∀ b t rest, post = (b, t) :: rest → is_free t = false) as Hnext.
  { intros b t rest ->. destruct (is_free t) eqn:Ht; [|done].
    destruct Hnafpost as [Hst _]. by destruct Hst. }
  exists (match decide (hdr + 4 ≤ s - (rounded size + hdr)) with
          | left _ =>
              <[a + (rounded size + hdr) ÷ hdr * hdr
                := BlockHd nx (s - (rounded size + hdr))]> (mem st)
          | right _ => mem st
          end), nx, s.
  destruct (Mem_Alloc_globals _ _ _ _ E) as [Hao Hlh].
  destruct st1 as [ao1 lh1 m1]. simpl in Hao, Hlh, Hcarve. subst ao1 lh1.
  rewrite (carve_spec _ _ _ _ _ _ Ha Hm) in Hcarve by lia.
  bind_inv Hcarve as d Hd. apply int_Ret in Hd as [-> Hd].
  bind_inv Hcarve as lim Hlim. apply int_Ret in Hlim as [-> Hlim].
  unfold Mem_Free. rewrite decide_False by done.
  replace (a + hdr - hdr) with a by lia. simpl mem. simpl allocated_once.
  simpl list_head.
  case_decide as Hsplit.
  - (* the block was split *)
    cbv zeta in Hcarve. set (nb := a + (rounded size + hdr) ÷ hdr * hdr) in *.
    pose proof (quot_hdr_bounds (rounded size + hdr) ltac:(lia) ltac:(lia)).
    assert (nb ≠ a) as Hnba by (unfold nb; lia).
    case_decide as Hnb0; [done|].
    bind_inv Hcarve as s1 Hs1. apply int_Ret in Hs1 as [-> Hs1].
    injection Hcarve as <-.
    erewrite rd_size_at; [|done|by map_look]. rewrite bind_ret_l.
    rewrite decide_False by (pose proof (rounded_busy size Hsize); lia).
    rewrite int_ok by (unfold INT_MIN, INT_MAX in *; lia). rewrite bind_ret_l.
    erewrite wr_size_at; [|done|by map_look].
    rewrite bind_ret_l, insert_insert_eq.
    assert (is_free (s - (rounded size + hdr)) = true) as Hdfree.
    { apply rem2_free. apply rem2_free in Hfree. zdiv. }
    erewrite (merge_next_free _ a nb _ nx (s - (rounded size + hdr)));
      [|done|by map_look|done|done|by map_look|done
       |unfold INT_MIN, INT_MAX in *; lia|unfold INT_MIN, INT_MAX in *; lia].
    rewrite bind_ret_l, insert_insert_eq.
    replace (rounded size + 1 + -1 + (s - (rounded size + hdr) + hdr))
      with s by lia.
    assert (<[a := BlockHd nx s]>
              (<[nb := BlockHd nx (s - (rounded size + hdr))]> (mem st))
            = <[nb := BlockHd nx (s - (rounded size + hdr))]> (mem st))
      as ->.
    { apply insert_id. by map_look. }
    rewrite free_tail with (pre := pre); [|idtac..|done].
    + split_and!; [done..|by map_look|].
      right. exists nb, (BlockHd nx (s - (rounded size + hdr))).
      by split_and!.
    + apply lseg_insert; [|done]. intros Hin.
      apply list_elem_of_fmap in Hin as ([x y] & Hx & Hin). simpl in Hx.
      subst x. rewrite fmap_app, fmap_cons in Hsort.
      pose proof (StronglySorted_app_1_elem_of _ _ _ nb a Hsort) as Hlt.
      specialize (Hlt (list_elem_of_fmap_2 fst _ _ Hin)
                      ltac:(simpl; left)). simpl in Hlt. lia.
    + done.
    + done.
    + done.
  - (* the whole block was taken *)
    bind_inv Hcarve as s1 Hs1. apply int_Ret in Hs1 as [-> Hs1].
    injection Hcarve as <-.
    erewrite rd_size_at; [|done|by map_look]. rewrite bind_ret_l.
    rewrite decide_False
      by (pose proof (proj2 (rem2_free s) Hfree); intros Hx; apply Hx; zdiv).
    rewrite int_ok by (unfold INT_MIN, INT_MAX in *; lia). rewrite bind_ret_l.
    erewrite wr_size_at; [|done|by map_look].
    rewrite bind_ret_l, insert_insert_eq.
    replace (s + 1 + -1) with s by lia. rewrite insert_id by done.
    assert (merge_next hdr (mem st) a = Ret (mem st)) as ->.
    { destruct post as [|[b t] post].
      - simpl in Hpost. subst nx. by eapply merge_next_last.
      - destruct Hpost as (-> & Hbne & nn & Hmb & _).
        eapply merge_next_busy; [done..|]. by eapply Hnext. }
    rewrite bind_ret_l. rewrite free_tail with (pre := pre); [|done..].
    split_and!; [done..|]. by left.
Qed.

(** What does hold of the validation.  [Mem_Free] fails on NULL.  On any
    other address, where the header one header-width before it holds a
    non-negative [size_status], it fails when the allocation flag of that
    header is clear, and does not fail when it is set.  On a state that
    satisfies the invariants of the data model, an address that
    [Mem_Alloc] has just returned is freed with success, and freeing it
    once more fails and changes nothing. *)
Lemma Mem_Free_validation ptr st :
  Mem_Free hdr 0 st = Ret (st, -1) ∧
  (∀ h, ptr ≠ 0 → ptr - hdr ≠ 0 → mem st !! (ptr - hdr) = Some h →
        0 ≤ size_status h →
        (is_free (size_status h) = true →
         Mem_Free hdr ptr st = Ret (st, -1)) ∧
        (is_free (size_status h) = false →
         ∀ st' r, Mem_Free hdr ptr st = Ret (st', r) → r = 0)) ∧
  (∀ v size st1, hdr mod 4 = 0 → 0 < hdr → data_model hdr st v →
        Mem_Alloc hdr size st = Ret (st1, ptr) → ptr ≠ 0 →
        ∃ st2, Mem_Free hdr ptr st1 = Ret (st2, 0) ∧
               Mem_Free hdr ptr st2 = Ret (st2, -1)).
Proof.
  split_and!.
  - apply Mem_Free_null.
  - intros [nx s] Hp Hn Hm Hs. simpl in *. split.
    + intros Hfree%rem2_free. eapply Mem_Free_not_busy; [done..|lia].
    + intros Hbusy st' r
        [(_ & _ & [? | (nx' & s' & Hm' & Hs')]) | (? & _)]%Mem_Free_result;
        [done| |done].
      rewrite Hm in Hm'. injection Hm' as <- <-.
      rewrite is_free_odd in Hbusy. apply negb_false_iff in Hbusy.
      destruct Hs'. by apply rem2_busy.
  - intros v size st1 Hh4 Hh Hdm E Hp.
    destruct (alloc_free_roundtrip st v size st1 ptr Hh4 Hh Hdm E Hp)
      as (m2 & nx & s & Hfree & Hn & _ & Hs & Hm2 & _).
    eexists. split; [exact Hfree|].
    eapply Mem_Free_not_busy; [done..|].
    apply rem2_free in Hs. lia.
Qed.

(** C7.  After a successful first [Mem_Init] and a successful [Mem_Alloc],
    [Mem_Free] on the returned address succeeds, and the list is then one
    free block whose payload is the page-rounded region size minus the
    header size.  When the remainder of the region could hold a block, the
    allocation did split: before the [Mem_Free] the list was the allocated
    block followed by one free block. *)
Theorem C7_round_trip_collapse space_ptr n size st1 st2 p :
  0 < pagesize → pagesize mod 4 = 0 → hdr mod 4 = 0 → 0 < hdr ≤ pagesize →
  Mem_Init hdr pagesize (Mapped space_ptr) n initial = Ret (st1, 0) →
  Mem_Alloc hdr size st1 = Ret (st2, p) → p ≠ 0 →
  let whole := region_size pagesize n - hdr in
  let need := rounded size + hdr in
  (hdr + 4 ≤ whole - need →
   block_list st2 [(space_ptr, rounded size + 1);
                   (space_ptr + need ÷ hdr * hdr, whole - need)]) ∧
  ∃ st3, Mem_Free hdr p st2 = Ret (st3, 0) ∧
         block_list st3 [(space_ptr, whole)] ∧ is_free whole = true.
Proof.
  intros Hp Hp4 Hh4 Hh Einit Ealloc Hne whole need.
  destruct (Mem_Init_data_model space_ptr n st1 Hp Hp4 Hh4 Hh Einit)
    as (Hdm & Hfree & _).
  apply Mem_Init_Mapped in Einit as (Hn & Hsp & _ & _ & ->); [|done].
  simpl in *. rewrite insert_empty in *. fold whole in Hdm, Hfree |- *.
  destruct (alloc_free_roundtrip _ _ size st2 p Hh4 ltac:(lia) Hdm Ealloc Hne)
    as (m2 & nx & s & Efree & Hn0 & Hm & Hs & Hm2 & Hcase).
  simpl in *.
  assert (p - hdr = space_ptr ∧ nx = 0 ∧ s = whole) as (Hpeq & -> & ->).
  { destruct (decide (p - hdr = space_ptr)) as [Heq|Hneq].
    - rewrite Heq, lookup_singleton_eq in Hm. by injection Hm as <- <-.
    - by rewrite lookup_singleton_ne in Hm. }
  rewrite Hpeq in *. split.
  - intros Hsplit.
    destruct Hcase
      as [[_ ?] | (nb & h & Hnb & Hnb0 & -> & Hst2 & Hnbeq & -> & _)];
      [done|].
    fold need in Hnbeq. rewrite <- Hnbeq.
    pose proof (Mem_Alloc_globals _ _ _ _ Ealloc) as [_ Hhead].
    unfold block_list, chain. rewrite Hst2, Hhead. simpl.
    split_and!; [done..|]. exists nb. split; [by map_look|].
    split_and!; [done..|]. exists 0. split; [by map_look|done].
  - eexists. split; [exact Efree|]. split; [|done].
    unfold block_list, chain. simpl. split_and!; [done..|].
    exists 0. by split.
Qed.

(** ** Payload sizes in every reachable state *)

Lemma payload_ok_add (x y : Z) :
  payload_ok x → 0 ≤ y → y mod 4 = 0 → payload_ok (x + y).
Proof.
  unfold payload_ok, payload. intros [H1 H2] Hy Hy4.
  assert (Z.odd (x + y) = Z.odd x) as ->.
  { rewrite Z.odd_add. replace (Z.odd y) with false; [by destruct (Z.odd x)|].
    symmetry. rewrite <- Z.negb_even. apply negb_false_iff, Z.even_spec.
    exists (y / 4 * 2). zdiv. }
  destruct (Z.odd x); split; try lia; zdiv.
Qed.

Lemma payload_ok_set_flag (s : Z) :
  payload_ok s → Z.rem s 2 = 0 → payload_ok (s + 1).
Proof.
  intros Hs Hfree%rem2_free. destruct (payload_ok_free _ Hs Hfree).
  unfold payload_ok. rewrite payload_busy; [split; [lia|] |].
  - by replace (s + 1 - 1) with s by lia.
  - rewrite Z.add_1_r, Z.odd_succ. exact Hfree.
Qed.

Lemma payload_ok_clear_flag (s : Z) :
  payload_ok s → Z.rem s 2 = 1 → payload_ok (s + -1).
Proof.
  intros Hs [Hodd _]%rem2_busy. destruct (payload_ok_busy _ Hs Hodd).
  apply payload_ok_mult4; [lia|]. by replace (s + -1) with (s - 1) by lia.
Qed.

Lemma heap_ok_insert m a h :
  heap_ok m → payload_ok (size_status h) → heap_ok (<[a := h]> m).
Proof.
  intros Hm Hh b h'. destruct (decide (b = a)) as [->|].
  - rewrite lookup_insert_eq. by intros [= <-].
  - rewrite lookup_insert_ne by done. apply Hm.
Qed.

Lemma heap_ok_peek m p : heap_ok m → payload_ok (size_status (peek m p)).
Proof.
  intros Hm. unfold peek. destruct (m !! p) as [h|] eqn:E; simpl; [eauto|].
  by apply payload_ok_mult4.
Qed.

Lemma wr_next_heap_ok m p v m' :
  heap_ok m → wr_next m p v = Ret m' → heap_ok m'.
Proof.
  intros Hm [_ ->]%wr_next_Ret. apply heap_ok_insert; [done|].
  by apply heap_ok_peek.
Qed.

Lemma wr_size_heap_ok m p v m' :
  heap_ok m → payload_ok v → wr_size m p v = Ret m' → heap_ok m'.
Proof. intros Hm Hv [_ ->]%wr_size_Ret. by apply heap_ok_insert. Qed.

Lemma rd_size_heap_ok m p s : heap_ok m → rd_size m p = Ret s → payload_ok s.
Proof. intros Hm (_ & nx & Hp)%rd_size_Ret. by apply (Hm _ _ Hp). Qed.

Lemma carve_heap_ok m ptr s sb m' r :
  0 < hdr → hdr mod 4 = 0 → 0 < sb → sb mod 4 = 0 →
  heap_ok m → rd_size m ptr = Ret s → Z.rem s 2 = 0 →
  carve hdr m ptr sb (sb + hdr) = Ret (m', r) → heap_ok m'.
Proof.
  intros Hh Hh4 Hsb Hsb4 Hm Hs Hfree E.
  pose proof (rd_size_heap_ok _ _ _ Hm Hs) as Hsok.
  apply rd_size_Ret in Hs as (Hp & nx & Hl).
  rewrite (carve_spec _ _ _ _ _ _ Hp Hl) in E by lia.
  bind_inv E as d Hd. apply int_Ret in Hd as [-> _].
  bind_inv E as lim Hlim. apply int_Ret in Hlim as [-> _].
  destruct (payload_ok_free _ Hsok (proj1 (rem2_free s) Hfree)) as [? ?].
  case_decide.
  - cbv zeta in E. case_decide; [done|].
    bind_inv E as s1 Hs1. apply int_Ret in Hs1 as [-> _]. injection E as <- _.
    apply heap_ok_insert; [apply heap_ok_insert; [done|]|]; simpl.
    + apply payload_ok_mult4; [lia|zdiv].
    + apply payload_ok_set_flag; [by apply payload_ok_mult4; lia|zdiv].
  - bind_inv E as s1 Hs1. apply int_Ret in Hs1 as [-> _]. injection E as <- _.
    apply heap_ok_insert; [done|]. by apply payload_ok_set_flag.
Qed.

Lemma alloc_scan_heap_ok fuel m sb p m' r :
  0 < hdr → hdr mod 4 = 0 → 0 < sb → sb mod 4 = 0 →
  heap_ok m → alloc_scan hdr fuel m sb (sb + hdr) p = Ret (m', r) →
  heap_ok m'.
Proof.
  intros Hh Hh4 Hsb Hsb4 Hm. revert p.
  induction fuel as [|fuel IH]; intros p; simpl; [done|].
  intros E. bind_inv E as nx Hnx.
  case_decide; bind_inv E as s Hs; repeat case_decide;
    first [ by eapply carve_heap_ok | by eapply IH | by injection E as <- ].
Qed.

Lemma merge_next_heap_ok m a m' :
  0 < hdr → hdr mod 4 = 0 →
  heap_ok m → merge_next hdr m a = Ret m' → heap_ok m'.
Proof.
  intros Hh Hh4 Hm E. unfold merge_next in E. bind_inv E as nx Hnx.
  case_decide; [|by injection E as <-].
  bind_inv E as sn Hsn. case_decide as Hfree; [|by injection E as <-].
  bind_inv E as x Hx. apply int_Ret in Hx as [-> _].
  bind_inv E as s Hs. bind_inv E as t Ht. apply int_Ret in Ht as [-> _].
  bind_inv E as m1 Hm1. bind_inv E as nx1 Hnx1. bind_inv E as nn Hnn.
  pose proof (rd_size_heap_ok _ _ _ Hm Hsn) as Hsnok.
  destruct (payload_ok_free _ Hsnok (proj1 (rem2_free sn) Hfree)) as [? ?].
  eapply wr_next_heap_ok; [|done]. eapply wr_size_heap_ok; [done| |done].
  apply payload_ok_add; [by eapply rd_size_heap_ok|lia|zdiv].
Qed.

Lemma merge_prev_heap_ok m prev m' :
  0 < hdr → hdr mod 4 = 0 →
  heap_ok m → merge_prev hdr m prev = Ret m' → heap_ok m'.
Proof.
  intros Hh Hh4 Hm E. unfold merge_prev in E.
  case_decide; [|by injection E as <-].
  bind_inv E as sp Hsp. case_decide as Hfree; [|by injection E as <-].
  bind_inv E as pn Hpn. bind_inv E as sn Hsn.
  bind_inv E as x Hx. apply int_Ret in Hx as [-> _].
  bind_inv E as y Hy. apply int_Ret in Hy as [-> _].
  bind_inv E as m1 Hm1. bind_inv E as pn1 Hpn1. bind_inv E as nn Hnn.
  pose proof (rd_size_heap_ok _ _ _ Hm Hsp) as Hspok.
  destruct (payload_ok_free _ Hspok (proj1 (rem2_free sp) Hfree)) as [? ?].
  eapply wr_next_heap_ok; [|done]. eapply wr_size_heap_ok; [done| |done].
  replace (sp + sn + hdr) with (sn + (sp + hdr)) by lia.
  apply payload_ok_add; [by eapply rd_size_heap_ok|lia|zdiv].
Qed.

Lemma run_heap_ok c st st' r :
  0 < pagesize → pagesize mod 4 = 0 → hdr mod 4 = 0 → 0 < hdr ≤ pagesize →
  heap_ok (mem st) → run hdr pagesize c st = Ret (st', r) →
  heap_ok (mem st').
Proof.
  intros Hp Hp4 Hh4 Hh Hm E. destruct c as [os n|size|ptr]; simpl in E.
  - unfold Mem_Init in E. case_decide; [by injection E as <-|].
    case_decide as Hn; [by injection E as <-|].
    rewrite alloc_size_region in E by lia.
    bind_inv E as asz Hasz. apply int_Ret in Hasz as [-> _].
    destruct os as [| |space_ptr]; [by injection E as <-..|].
    bind_inv E as m1 Hm1. bind_inv E as sz Hsz. bind_inv E as m2 Hm2.
    apply int_Ret in Hsz as [-> _]. injection E as <- _. simpl.
    eapply wr_size_heap_ok; [by eapply wr_next_heap_ok| |done].
    destruct (region_size_bounds pagesize n Hp ltac:(lia)) as (? & _ & Hmod).
    apply payload_ok_mult4; [lia|].
    apply Z.mod_divide in Hmod; [|lia]. destruct Hmod as [k ->].
    apply Z.mod_divide in Hp4; [|lia]. destruct Hp4 as [j ->]. zdiv.
  - unfold Mem_Alloc in E. case_decide; [by injection E as <-|].
    bind_inv E as [sb need] Hneed.
    apply bytes_needed_Ret in Hneed as (-> & -> & _); [|lia].
    bind_inv E as [m r'] Hscan. injection E as <- _. simpl.
    eapply alloc_scan_heap_ok; [lia|done| | |done|done].
    + pose proof (rounded_ge size). lia.
    + apply rounded_mod4.
  - unfold Mem_Free in E. case_decide; [by injection E as <-|].
    bind_inv E as s Hs. case_decide; [by injection E as <-|].
    bind_inv E as s1 Hs1. apply int_Ret in Hs1 as [-> _].
    bind_inv E as m1 Hm1. bind_inv E as m2 Hm2.
    assert (heap_ok m2) as Hm2ok.
    { eapply merge_next_heap_ok; [lia|done| |done].
      eapply wr_size_heap_ok; [done| |done].
      apply payload_ok_clear_flag; [by eapply rd_size_heap_ok|lia]. }
    case_decide; [by injection E as <-|].
    bind_inv E as prev Hprev. bind_inv E as m3 Hm3. injection E as <- _.
    eapply merge_prev_heap_ok; [lia|done|exact Hm2ok|done].
Qed.

Lemma steps_heap_ok st st' :
  0 < pagesize → pagesize mod 4 = 0 → hdr mod 4 = 0 → 0 < hdr ≤ pagesize →
  steps hdr pagesize st st' → heap_ok (mem st) → heap_ok (mem st').
Proof.
  intros Hp Hp4 Hh4 Hh Hsteps.
  induction Hsteps as [|st0 c st1 r st2 Hrun _ IH]; [done|].
  intros H0. apply IH. by eapply run_heap_ok.
Qed.

(** C9.  In every state that calls of [Mem_Init], [Mem_Alloc] and
    [Mem_Free] lead to from program start, each header in memory, and so
    each block of the list, has a payload size ([size_status], less one
    when the flag is set) that is a non-negative multiple of 4: each of
    the three calls keeps this. *)
Theorem C9_payload_multiple_of_4 st :
  0 < pagesize → pagesize mod 4 = 0 → hdr mod 4 = 0 → 0 < hdr ≤ pagesize →
  steps hdr pagesize initial st →
  (∀ a h, mem st !! a = Some h →
          0 ≤ payload (size_status h) ∧ payload (size_status h) mod 4 = 0) ∧
  (∀ v, block_list st v →
        Forall (λ b, 0 ≤ payload b.2 ∧ payload b.2 mod 4 = 0) v) ∧
  (∀ c st' r, run hdr pagesize c st = Ret (st', r) → heap_ok (mem st')).
Proof.
  intros Hp Hp4 Hh4 Hh Hsteps.
  assert (heap_ok (mem st)) as Hok.
  { eapply steps_heap_ok; [done..|]. by intros a h ?. }
  split_and!.
  - exact Hok.
  - intros v Hc. apply Forall_forall. intros [a s] Hin.
    destruct (lseg_lookup _ _ _ _ _ _ Hc Hin) as (_ & nx & Hm).
    apply (Hok _ _ Hm).
  - intros c st' r Hrun. by eapply run_heap_ok.
Qed.

(** ** Mem_Alloc and the invariants

    An allocation keeps the invariants, and the covered size, as long as
    the header a split writes lands before the block that follows. *)

Lemma Mem_Alloc_list st v size st' p :
  hdr mod 4 = 0 → 0 < hdr → data_model hdr st v →
  Mem_Alloc hdr size st = Ret (st', p) → p ≠ 0 →
  ∃ pre s post,
    v = pre ++ (p - hdr, s) :: post ∧ 0 < size ∧
    fits (rounded size + hdr) s ∧
    Forall (λ b, ¬ fits (rounded size + hdr) b.2) pre ∧
    ((∀ b, b ∈ post.*1 →
           p - hdr + (rounded size + hdr) ÷ hdr * hdr < b) →
     data_model hdr st' (allocated hdr size pre (p - hdr) s post) ∧
     coverage hdr (allocated hdr size pre (p - hdr) s post)
     = coverage hdr v).
Proof.
  intros Hh4 Hh [Hc Hne Hsort Hnaf Hok Hcov] E Hp.
  destruct (Mem_Alloc_first_fit size st v st' p Hc E Hp)
    as (Hsize & pre & a & s & post & -> & -> & [Hfree Hfit] & Hskip & Hcarve).
  exists pre, s, post. replace (a + hdr - hdr) with a by lia.
  split_and!; [done..|]. intros Hpostroom.
  rewrite payload_free in Hfit by done.
  pose proof (chain_NoDup _ _ _ Hc) as Hnd.
  rewrite fmap_app, fmap_cons in Hnd, Hsort.
  apply NoDup_app in Hnd as (_ & Hdisj & [Hapost _]%NoDup_cons).
  assert (a ∉ pre.*1) as Hapre by (intros Hin; apply (Hdisj a Hin); left).
  simpl in Hapost.
  pose proof Hc as Hc'. unfold block_list, chain in Hc'.
  apply lseg_app in Hc' as (r & Hpre & (-> & Ha & nx & Hm & Hpost)).
  pose proof (rounded_ge size) as Hr. pose proof (rounded_mod4 size) as Hr4.
  apply StronglySorted_app in Hsort as (Hlt & Hspre & Hspost).
  apply StronglySorted_inv in Hspost as [Hspost Hapostlt].
  rewrite Forall_forall in Hapostlt. simpl in Hapostlt, Hlt.
  assert (∀ x, x ∈ pre.*1 → x < a) as Hprelt
    by (intros x Hx; apply Hlt; [done|left]).
  unfold allocated. cbv zeta.
  rewrite fmap_app, fmap_cons, no_adjacent_free_app in Hnaf.
  destruct Hnaf as (Hnafpre & [Hnafhd Hnafpost] & Hb).
  apply Forall_app in Hok as (Hokpre & [Hoks Hokpost]%Forall_cons).
  simpl in Hoks. destruct (payload_ok_free _ Hoks Hfree) as [Hs0 Hs4].
  rewrite coverage_app, coverage_cons, (payload_free s) in Hcov by done.
  destruct (Mem_Alloc_globals _ _ _ _ E) as [Hao Hlh].
  rewrite (carve_spec _ _ _ _ _ _ Ha Hm) in Hcarve by lia.
  bind_inv Hcarve as d Hd. apply int_Ret in Hd as [-> Hd].
  bind_inv Hcarve as lim Hlim. apply int_Ret in Hlim as [-> Hlim].
  case_decide as Hsplit.
  - cbv zeta in Hcarve. set (nb := a + (rounded size + hdr) ÷ hdr * hdr) in *.
    pose proof (quot_hdr_bounds (rounded size + hdr) ltac:(lia) ltac:(lia)).
    case_decide as Hnb0; [done|].
    bind_inv Hcarve as s1 Hs1. apply int_Ret in Hs1 as [-> Hs1].
    injection Hcarve as Hmem.
    assert (nb ∉ pre.*1) as Hnbpre.
    { intros Hin. pose proof (Hprelt nb Hin). lia. }
    assert (nb ∉ post.*1) as Hnbpost.
    { intros Hin. pose proof (Hpostroom nb Hin). lia. }
    assert ((s - (rounded size + hdr)) mod 4 = 0) as Hd4 by zdiv.
    destruct (mult4_free _ Hd4) as [Hdfree Hdpay].
    assert (Z.odd (rounded size + 1) = true) as Hodd.
    { rewrite Z.add_1_r, Z.odd_succ. apply (mult4_free _ Hr4). }
    split; [split|].
    + unfold block_list, chain. rewrite Hlh, <- Hmem.
      apply lseg_app. exists a. split; [by repeat (apply lseg_insert; [done|])|].
      split_and!; [done..|]. exists nb. split; [by map_look|].
      split_and!; [done..|]. exists nx.
      split; [by rewrite lookup_insert_ne, lookup_insert_eq by lia|].
      by repeat (apply lseg_insert; [done|]).
    + by destruct pre.
    + rewrite fmap_app, !fmap_cons. simpl. apply StronglySorted_app.
      split_and!; [|done|].
      * intros x y Hx [-> | [-> | Hy]%elem_of_cons]%elem_of_cons.
        -- by apply Hprelt.
        -- pose proof (Hprelt x Hx). lia.
        -- apply Hlt; [done|by right].
      * constructor; [constructor; [done|]|].
        -- apply Forall_forall. intros y Hy. by apply Hpostroom.
        -- constructor; [lia|]. by apply Forall_forall.
    + rewrite fmap_app, !fmap_cons. simpl.
      apply no_adjacent_free_app. split_and!; [done| |].
      * split; [rewrite is_free_odd, Hodd; by intros []|]. split; [|done].
        destruct post as [|[b t] post]; [done|]. simpl in *.
        intros [_ Ht]. apply Hnafhd. by split.
      * intros x y _ [= <-]. rewrite (is_free_odd (_ + 1)), Hodd.
        by intros [_ ?].
    + apply Forall_app. split; [done|].
      constructor; [|constructor; [|done]]; simpl; unfold payload_ok.
      * rewrite payload_busy by done.
        replace (rounded size + 1 - 1) with (rounded size) by lia.
        split; [lia|done].
      * rewrite Hdpay. split; [lia|done].
    + pose proof (coverage_nonneg hdr pre ltac:(lia) Hokpre).
      pose proof (coverage_nonneg hdr post ltac:(lia) Hokpost).
      rewrite coverage_app, !coverage_cons, Hdpay, payload_busy by done.
      lia.
    + rewrite !coverage_app, !coverage_cons, Hdpay, payload_busy,
        (payload_free s) by done. lia.
  - bind_inv Hcarve as s1 Hs1. apply int_Ret in Hs1 as [-> Hs1].
    injection Hcarve as Hmem.
    assert (Z.odd (s + 1) = true) as Hodd.
    { rewrite Z.add_1_r, Z.odd_succ. exact Hfree. }
    split; [split|].
    + unfold block_list, chain. rewrite Hlh, <- Hmem.
      apply lseg_app. exists a. split; [by apply lseg_insert|].
      split_and!; [done..|]. exists nx. split; [by map_look|].
      by apply lseg_insert.
    + by destruct pre.
    + rewrite fmap_app, fmap_cons. simpl. apply StronglySorted_app.
      split_and!; [done..|]. constructor; [done|by apply Forall_forall].
    + rewrite fmap_app, fmap_cons. simpl.
      apply no_adjacent_free_app. split_and!; [done| |].
      * split; [|done]. destruct (post.*2); [done|].
        rewrite is_free_odd, Hodd. by intros [].
      * intros x y _ [= <-]. rewrite (is_free_odd (s + 1)), Hodd.
        by intros [_ ?].
    + apply Forall_app. split; [done|]. constructor; [|done]. simpl.
      unfold payload_ok. rewrite payload_busy by done.
      by replace (s + 1 - 1) with s by lia.
    + rewrite coverage_app, coverage_cons, payload_busy by done. lia.
    + rewrite !coverage_app, !coverage_cons, payload_busy,
        (payload_free s) by done. lia.
Qed.

Lemma Mem_Alloc_data_model st v size st' p :
  hdr mod 4 = 0 → 0 < hdr → data_model hdr st v →
  Mem_Alloc hdr size st = Ret (st', p) → p ≠ 0 →
  (∀ b, b ∈ v.*1 → p - hdr < b →
        p - hdr + (rounded size + hdr) ÷ hdr * hdr < b) →
  ∃ v', data_model hdr st' v' ∧ coverage hdr v' = coverage hdr v.
Proof.
  intros Hh4 Hh Hdm E Hp Hroom.
  destruct (Mem_Alloc_list st v size st' p Hh4 Hh Hdm E Hp)
    as (pre & s & post & -> & _ & _ & _ & Hall).
  eexists. apply Hall. intros b Hb.
  apply list_elem_of_fmap in Hb as ([b' t] & -> & Hb). simpl.
  apply Hroom.
  - rewrite fmap_app, fmap_cons. apply elem_of_app. right. right.
    by apply (list_elem_of_fmap_2 fst _ _ Hb).
  - eapply sorted_after; [apply (dm_sorted _ _ _ Hdm)|exact Hb].
Qed.

(** ** Fuel: a walk that runs out of [walk_fuel] never ends *)

Lemma bind_Loops {A B : Type} (c : outcome A) (k : A → outcome B) :
  c ≫= k = Loops → c = Loops ∨ ∃ a, c = Ret a ∧ k a = Loops.
Proof. destruct c as [a| |]; simpl; [eauto | discriminate | auto]. Qed.

Lemma repeat_index (l : list Z) :
  ¬ NoDup l → ∃ i j x, (i < j)%nat ∧ l !! i = Some x ∧ l !! j = Some x.
Proof.
  induction l as [|x l IH]; intros Hnd.
  - destruct Hnd. constructor.
  - destruct (decide (x ∈ l)) as [Hin|Hnin].
    + apply list_elem_of_lookup in Hin as [j Hj].
      exists 0%nat, (S j), x. split_and!; [lia|done..].
    + destruct IH as (i & j & y & Hij & Hi & Hj).
      { intros Hl. apply Hnd. by constructor. }
      exists (S i), (S j), y. split_and!; [lia|done..].
Qed.

(** Among [size m + 1] steps through headers of [m] two are at the same
    header; from there on the walk repeats itself. *)
Lemma walk_pigeonhole m (P : Z → Prop) p :
  (∀ q, P q → is_Some (m !! q)) →
  (∀ k, (k ≤ size m)%nat → P (Nat.iter k (nxt m) p)) →
  ∀ k, P (Nat.iter k (nxt m) p).
Proof.
  intros HP Hfirst.
  set (f k := Nat.iter k (nxt m) p).
  assert (¬ NoDup (f <$> seq 0 (S (size m)))) as Hnd.
  { intros Hnd.
    assert (length (f <$> seq 0 (S (size m))) ≤ size m)%nat as Hlen;
      [|rewrite length_fmap, length_seq in Hlen; lia].
    rewrite <- (size_list_to_set (C := gset Z)) by done.
    rewrite <- size_dom. apply subseteq_size.
    intros a Ha%elem_of_list_to_set. apply elem_of_dom.
    apply list_elem_of_fmap in Ha as (k & -> & Hk). apply elem_of_seq in Hk.
    rewrite size_dom in Hk. apply HP, Hfirst. lia. }
  apply repeat_index in Hnd as (i & j & x & Hij & Hi & Hj).
  rewrite list_lookup_fmap in Hi, Hj.
  destruct (seq 0 (S (size m)) !! i) as [i'|] eqn:Ei; [|done].
  destruct (seq 0 (S (size m)) !! j) as [j'|] eqn:Ej; [|done].
  apply lookup_seq in Ei as [-> Hilt]. apply lookup_seq in Ej as [-> Hjlt].
  simpl in Hi, Hj. injection Hi as Hi. injection Hj as Hj.
  assert (∀ k, (i ≤ k)%nat → f (k + (j - i))%nat = f k) as Hper.
  { intros k Hk. replace (k + (j - i))%nat with ((k - i) + j)%nat by lia.
    replace k with ((k - i) + i)%nat at 2 by lia.
    unfold f. rewrite !Nat.iter_add. fold (f j) (f i). congruence. }
  intros k. induction (lt_wf k) as [k _ IH].
  destruct (decide (k ≤ size m)%nat); [by apply Hfirst|].
  replace k with ((k - (j - i)) + (j - i))%nat by lia.
  fold (f (k - (j - i) + (j - i))%nat). rewrite Hper by lia.
  apply IH. lia.
Qed.

Lemma carve_not_Loops m ptr sb need : carve hdr m ptr sb need ≠ Loops.
Proof.
  unfold carve, rd_size, rd_next, wr_size, wr_next, int. intros E.
  repeat first
    [ discriminate E
    | apply bind_Loops in E as [E | (? & _ & E)]
    | case_decide
    | case_match ].
Qed.

Lemma rd_next_nxt m q nx : rd_next m q = Ret nx → nxt m q = nx.
Proof. intros (_ & s & Hm)%rd_next_Ret. unfold nxt, peek. by rewrite Hm. Qed.

Lemma rd_next_not_Loops m q : rd_next m q ≠ Loops.
Proof. unfold rd_next. by repeat first [case_decide | case_match]. Qed.

Lemma rd_size_not_Loops m q : rd_size m q ≠ Loops.
Proof. unfold rd_size. by repeat first [case_decide | case_match]. Qed.

Lemma alloc_scan_step_Loops fuel m sb need q :
  alloc_scan hdr (S fuel) m sb need q = Loops ↔
  alloc_scan hdr 1 m sb need q = Loops ∧
  alloc_scan hdr fuel m sb need (nxt m q) = Loops.
Proof.
  simpl. destruct (rd_next m q) as [nx| |] eqn:Hnx;
    [|split; [done|by intros []]|by apply rd_next_not_Loops in Hnx].
  rewrite (rd_next_nxt _ _ _ Hnx), !bind_ret_l.
  destruct (rd_size m q) as [s| |] eqn:Hs;
    [|repeat case_decide; (split; [done|by intros []])
     |by apply rd_size_not_Loops in Hs].
  rewrite !bind_ret_l.
  repeat case_decide; try (split; [done|by intros []]);
    try (split; [by intros ?%carve_not_Loops|by intros [?%carve_not_Loops _]]);
    by intuition.
Qed.

Lemma alloc_scan_Loops_iff fuel m sb need p :
  alloc_scan hdr fuel m sb need p = Loops ↔
  ∀ k, (k < fuel)%nat →
       alloc_scan hdr 1 m sb need (Nat.iter k (nxt m) p) = Loops.
Proof.
  revert p. induction fuel as [|fuel IH]; intros p.
  - split; [intros _ k ?; lia|done].
  - rewrite alloc_scan_step_Loops, IH. split.
    + intros [H0 Hk] [|k] ?; [done|].
      rewrite Nat.iter_succ_r. apply Hk. lia.
    + intros Hk. split; [by apply (Hk 0%nat); lia|].
      intros k ?. rewrite <- Nat.iter_succ_r. apply Hk. lia.
Qed.

(** [Mem_Alloc]'s loop: out of [walk_fuel] means out of any fuel. *)
Lemma alloc_scan_diverges m sb need p :
  alloc_scan hdr (walk_fuel m) m sb need p = Loops →
  ∀ fuel, alloc_scan hdr fuel m sb need p = Loops.
Proof.
  intros E fuel. apply alloc_scan_Loops_iff. intros k _.
  apply (walk_pigeonhole m
           (λ q, alloc_scan hdr 1 m sb need q = Loops)).
  - intros q Hq. simpl in Hq.
    apply bind_Loops in Hq as [Hq | (nx & Hnx & _)];
      [by apply rd_next_not_Loops in Hq|].
    apply rd_next_Ret in Hnx as (_ & s & Hm). by rewrite Hm.
  - intros k' Hk'. apply (proj1 (alloc_scan_Loops_iff _ _ _ _ _) E).
    unfold walk_fuel. lia.
Qed.

Lemma find_prev_step_Loops fuel m newPtr q prev :
  find_prev (S fuel) m newPtr q prev = Loops ↔
  find_prev 1 m newPtr q 0 = Loops ∧
  find_prev fuel m newPtr (nxt m q) q = Loops.
Proof.
  simpl. repeat case_decide; try (split; [done|by intros []]).
  destruct (rd_next m q) as [nx| |] eqn:Hnx;
    [|split; [done|by intros []]|by apply rd_next_not_Loops in Hnx].
  rewrite (rd_next_nxt _ _ _ Hnx), !bind_ret_l. by intuition.
Qed.

Lemma find_prev_Loops_iff fuel m newPtr p prev :
  find_prev fuel m newPtr p prev = Loops ↔
  ∀ k, (k < fuel)%nat →
       find_prev 1 m newPtr (Nat.iter k (nxt m) p) 0 = Loops.
Proof.
  revert p prev. induction fuel as [|fuel IH]; intros p prev.
  - split; [intros _ k ?; lia|done].
  - rewrite find_prev_step_Loops, IH. split.
    + intros [H0 Hk] [|k] ?; [done|].
      rewrite Nat.iter_succ_r. apply Hk. lia.
    + intros Hk. split; [by apply (Hk 0%nat); lia|].
      intros k ?. rewrite <- Nat.iter_succ_r. apply Hk. lia.
Qed.

(** [Mem_Free]'s loop: out of [walk_fuel] means out of any fuel. *)
Lemma find_prev_diverges m newPtr p prev :
  find_prev (walk_fuel m) m newPtr p prev = Loops →
  ∀ fuel, find_prev fuel m newPtr p prev = Loops.
Proof.
  intros E fuel. apply find_prev_Loops_iff. intros k _.
  apply (walk_pigeonhole m (λ q, find_prev 1 m newPtr q 0 = Loops)).
  - intros q Hq. simpl in Hq. repeat case_decide; try done.
    apply bind_Loops in Hq as [Hq | (nx & Hnx & _)];
      [by apply rd_next_not_Loops in Hq|].
    apply rd_next_Ret in Hnx as (_ & s & Hm). by rewrite Hm.
  - intros k' Hk'. apply (proj1 (find_prev_Loops_iff _ _ _ _ _) E).
    unfold walk_fuel. lia.
Qed.

(** ** Where a split puts the new block *)

Lemma split_places_block m ptr nx s size m' r :
  0 < hdr → 0 < size → ptr ≠ 0 → m !! ptr = Some (BlockHd nx s) →
  hdr + 4 ≤ s - (rounded size + hdr) →
  carve hdr m ptr (rounded size) (rounded size + hdr) = Ret (m', r) →
  let newBlock := ptr + (rounded size + hdr) ÷ hdr * hdr in
  r = ptr + hdr ∧
  m' !! ptr = Some (BlockHd newBlock (rounded size + 1)) ∧
  m' !! newBlock = Some (BlockHd nx (s - (rounded size + hdr))) ∧
  (newBlock = ptr + hdr + rounded size ↔ rounded size mod hdr = 0).
Proof.
  intros Hh Hsize Hp Hm Hsplit E newBlock.
  pose proof (rounded_ge size) as Hr.
  pose proof (quot_hdr_bounds (rounded size + hdr) Hh ltac:(lia)) as Hq.
  rewrite (carve_spec _ _ _ _ _ _ Hp Hm) in E by lia.
  bind_inv E as d Hd. apply int_Ret in Hd as [-> _].
  bind_inv E as lim Hlim. apply int_Ret in Hlim as [-> _].
  rewrite decide_True in E by done. cbv zeta in E. fold newBlock in E.
  case_decide; [done|]. bind_inv E as s1 Hs1. apply int_Ret in Hs1 as [-> _].
  injection E as <- <-.
  assert (newBlock ≠ ptr) by (unfold newBlock; lia).
  split_and!; [done|by map_look|by map_look|].
  unfold newBlock. rewrite Z.quot_div_nonneg by lia.
  pose proof (Z.div_mod (rounded size + hdr) hdr ltac:(lia)) as Hdm.
  replace ((rounded size + hdr) mod hdr) with (rounded size mod hdr) in Hdm.
  - lia.
  - replace (rounded size + hdr) with (rounded size + 1 * hdr) by lia.
    by rewrite Z.mod_add by lia.
Qed.

(** No list goes through a block whose [next] is the block itself. *)
Lemma self_loop_no_list m a s v :
  a ≠ 0 → m !! a = Some (BlockHd a s) → ¬ lseg m a 0 v.
Proof.
  intros Ha Hm. induction v as [|[b t] v IH]; simpl; [done|].
  intros (<- & _ & nx & Hm' & Hl). rewrite Hm in Hm'.
  injection Hm' as <- _. by apply IH.
Qed.

(** ** Blocks that lie end to end *)

Lemma tiles_app p e v1 v2 :
  tiles hdr p e (v1 ++ v2) ↔ ∃ r, tiles hdr p r v1 ∧ tiles hdr r e v2.
Proof.
  revert p. induction v1 as [|[a s] v1 IH]; intros p; simpl.
  - split; [eauto|]. by intros (r & -> & ?).
  - rewrite IH. split.
    + intros (-> & r & ? & ?). eauto.
    + intros (r & (-> & ?) & ?). eauto.
Qed.

Lemma tiles_coverage p e v : tiles hdr p e v → coverage hdr v = e - p.
Proof.
  revert p. induction v as [|[a s] v IH]; intros p Ht; simpl in Ht.
  - subst p. unfold coverage. simpl. lia.
  - destruct Ht as [-> Ht]. rewrite coverage_cons, (IH _ Ht). lia.
Qed.

Lemma tiles_lower p e v b :
  0 < hdr → Forall (λ b, payload_ok b.2) v → tiles hdr p e v →
  b ∈ v.*1 → p ≤ b.
Proof.
  intros Hh. revert p. induction v as [|[a s] v IH]; intros p Hok; simpl.
  - by intros _ ?%elem_of_nil.
  - apply Forall_cons in Hok as [[Hs _] Hok]. simpl in Hs.
    intros [-> Ht] [->|Hb]%elem_of_cons; [lia|].
    specialize (IH _ Hok Ht Hb). lia.
Qed.

Lemma quot_hdr_exact x :
  0 < hdr → 0 ≤ x → (x + hdr) ÷ hdr * hdr = x + hdr ↔ x mod hdr = 0.
Proof.
  intros Hh Hx. rewrite Z.quot_div_nonneg by lia.
  pose proof (Z.div_mod (x + hdr) hdr ltac:(lia)) as Hdm.
  replace ((x + hdr) mod hdr) with (x mod hdr) in Hdm; [lia|].
  replace (x + hdr) with (x + 1 * hdr) by lia. by rewrite Z.mod_add by lia.
Qed.

(** An allocation leaves the blocks end to end exactly when it does not
    split, or the rounded request is a whole number of headers. *)
Lemma allocated_tiles size pre a s post p e :
  0 < hdr → hdr mod 4 = 0 → 0 < size →
  is_free s = true → s mod 4 = 0 →
  tiles hdr p e (pre ++ (a, s) :: post) →
  tiles hdr p e (allocated hdr size pre a s post) ↔
  (hdr + 4 ≤ s - (rounded size + hdr) → rounded size mod hdr = 0).
Proof.
  intros Hh Hh4 Hsize Hfree Hs4 (r & Hpre & (-> & Hpost))%tiles_app.
  pose proof (rounded_ge size) as Hr. pose proof (rounded_mod4 size) as Hr4.
  rewrite payload_free in Hpost by done.
  assert (payload (s + 1) = s) as Hp1.
  { rewrite payload_busy; [lia|]. by rewrite Z.add_1_r, Z.odd_succ. }
  assert (payload (rounded size + 1) = rounded size) as Hp2.
  { rewrite payload_busy; [lia|].
    rewrite Z.add_1_r, Z.odd_succ. apply (mult4_free _ Hr4). }
  assert (payload (s - (rounded size + hdr)) = s - (rounded size + hdr))
    as Hp3 by (apply mult4_free; zdiv).
  pose proof (quot_hdr_exact (rounded size) Hh ltac:(lia)) as Hq.
  unfold allocated. cbv zeta. case_decide as Hsplit.
  - rewrite tiles_app. simpl. rewrite Hp2, Hp3. split.
    + intros (r' & Hpre' & (-> & Heq & Hpost')) _. apply Hq. lia.
    + intros Hm. exists a. split; [done|]. split_and!; [done| |].
      * apply Hq in Hm; [|done]. lia.
      * apply Hq in Hm; [|done]. rewrite Hm.
        by replace (a + (rounded size + hdr) + hdr
                    + (s - (rounded size + hdr))) with (a + hdr + s) by lia.
  - rewrite tiles_app. simpl. rewrite Hp1. split; [done|].
    intros _. exists a. by split_and!.
Qed.

(** Where the list begins above address 0, a NULL result of [Mem_Alloc]
    means that nothing was written. *)
Lemma Mem_Alloc_null_list size st v st' :
  0 < hdr → block_list st v → v ≠ [] →
  (∀ b, b ∈ v.*1 → 0 < b) →
  Mem_Alloc hdr size st = Ret (st', 0) → st' = st.
Proof.
  intros Hh Hc Hne Hpos. unfold Mem_Alloc.
  case_decide; [by intros [= <-]|]. intros E.
  bind_inv E as [sb need] Hb. bind_inv E as [m r] Hscan.
  injection E as <- ->.
  destruct (first_fit_split need v)
    as [Hnone | (pre & a & s & post & -> & Hpre & Hfit)].
  - rewrite (alloc_scan_none _ _ _ _ _ Hc Hne Hnone) in Hscan.
    injection Hscan as <-. apply state_eta.
  - rewrite (alloc_scan_first _ _ _ _ _ _ _ _ Hc Hpre Hfit) in Hscan.
    apply carve_Ret in Hscan as [Ha _].
    assert (0 < a); [|lia].
    apply Hpos. rewrite fmap_app, fmap_cons. apply elem_of_app.
    right. left.
Qed.

Lemma region_ok_positive e st v b :
  0 < hdr → region_ok hdr e st v → b ∈ v.*1 → 0 < b.
Proof.
  intros Hh (Hdm & Ht & Hpos & _) Hb.
  pose proof (tiles_lower _ _ _ _ Hh (dm_payload _ _ _ Hdm) Ht Hb). lia.
Qed.

(** On a list that lies end to end, the header a split writes falls short
    of the block that follows. *)
Lemma tiles_room p e pre a s post size b :
  0 < hdr → 0 < size → Forall (λ b, payload_ok b.2) post →
  tiles hdr p e (pre ++ (a, s) :: post) →
  fits (rounded size + hdr) s → b ∈ post.*1 →
  a + (rounded size + hdr) ÷ hdr * hdr < b.
Proof.
  intros Hh Hsize Hok (r & _ & (-> & Hpost))%tiles_app [Hfree Hfit] Hb.
  pose proof (tiles_lower _ _ _ _ Hh Hok Hpost Hb).
  pose proof (rounded_ge size).
  pose proof (quot_hdr_bounds (rounded size + hdr) Hh ltac:(lia)). lia.
Qed.

Lemma Mem_Alloc_region e st v size st' p :
  hdr mod 4 = 0 → 0 < hdr → region_ok hdr e st v →
  Mem_Alloc hdr size st = Ret (st', p) →
  (p = 0 ∧ st' = st) ∨
  (p ≠ 0 ∧ 0 < size ∧ ∃ pre s post,
     v = pre ++ (p - hdr, s) :: post ∧ fits (rounded size + hdr) s ∧
     Forall (λ b, ¬ fits (rounded size + hdr) b.2) pre ∧
     data_model hdr st' (allocated hdr size pre (p - hdr) s post) ∧
     coverage hdr (allocated hdr size pre (p - hdr) s post) = coverage hdr v ∧
     list_head st' = list_head st ∧ allocated_once st' = allocated_once st ∧
     (tiles hdr (list_head st) e (allocated hdr size pre (p - hdr) s post) ↔
      (hdr + 4 ≤ s - (rounded size + hdr) → rounded size mod hdr = 0))).
Proof.
  intros Hh4 Hh Hreg E. pose proof Hreg as (Hdm & Ht & Hpos & Hao).
  destruct (decide (p = 0)) as [->|Hp].
  - left. split; [done|].
    eapply Mem_Alloc_null_list;
      [done|apply (dm_list _ _ _ Hdm)|apply (dm_nonempty _ _ _ Hdm)| |done].
    intros b Hb. by eapply region_ok_positive.
  - right. split; [done|].
    destruct (Mem_Alloc_list st v size st' p Hh4 Hh Hdm E Hp)
      as (pre & s & post & -> & Hsize & Hfit & Hskip & Hall).
    split; [done|]. exists pre, s, post.
    pose proof (dm_payload _ _ _ Hdm) as Hok.
    apply Forall_app in Hok as (_ & [Hoks Hokpost]%Forall_cons).
    destruct Hall as [Hdm' Hcov'].
    { intros b Hb. by eapply tiles_room. }
    destruct (Mem_Alloc_globals _ _ _ _ E) as [? ?].
    split_and!; [done..|].
    destruct Hfit as [Hfree Hfit].
    apply allocated_tiles; [done..| |done].
    by apply payload_ok_free.
Qed.

Lemma Mem_Free_list ptr st v st' r :
  hdr mod 4 = 0 → 0 < hdr → data_model hdr st v →
  Mem_Free hdr ptr st = Ret (st', r) →
  (r = -1 ∧ st' = st) ∨
  (r = 0 ∧ (ptr - hdr ∉ v.*1) ∧ block_list st' v) ∨
  (r = 0 ∧ ∃ pre s post,
     v = pre ++ (ptr - hdr, s) :: post ∧ Z.odd s = true ∧
     block_list st' (coalesced hdr pre (ptr - hdr) s post)).
Proof.
  intros Hh4 Hh [Hc Hne Hsort Hnaf Hok Hcov] E0.
  destruct (Mem_Free_result _ _ _ _ E0)
    as [(-> & -> & _) | (-> & Hp & nx & s & Hm & Hs)]; [by left|].
  right. destruct (decide (ptr - hdr ∈ v.*1)) as [Hel|Hel].
  - right. split; [done|].
    apply list_elem_of_fmap in Hel as ([a s0] & Ha & Hel). simpl in Ha.
    subst a.
    destruct (lseg_lookup _ _ _ _ _ _ Hc Hel) as (Hn0 & nx0 & Hm0).
    rewrite Hm in Hm0. injection Hm0 as <- <-.
    apply list_elem_of_split in Hel as (pre & post & ->).
    apply rem2_busy in Hs as [Hs _].
    destruct (Mem_Free_chain st pre (ptr - hdr) s post) as (m' & E & Hc');
      [lia|lia|done..|].
    replace (ptr - hdr + hdr) with ptr in E by lia.
    rewrite E in E0. injection E0 as <-.
    by exists pre, s, post.
  - left. split_and!; [done..|]. by eapply Mem_Free_foreign.
Qed.

Lemma coalesced_tiles pre a s post p e :
  hdr mod 4 = 0 → Z.odd s = true →
  Forall (λ b, payload_ok b.2) (pre ++ (a, s) :: post) →
  tiles hdr p e (pre ++ (a, s) :: post) →
  tiles hdr p e (coalesced hdr pre a s post).
Proof.
  intros Hh4 Hodd Hok (r & Hpre & (-> & Hpost))%tiles_app.
  apply Forall_app in Hok as (Hokpre & [Hoks Hokpost]%Forall_cons).
  simpl in Hoks. destruct (payload_ok_busy _ Hoks Hodd) as [Hs1 Hs4].
  rewrite payload_busy in Hpost by done.
  destruct (coalesced_cases hdr pre a s post) as (s' & post' & Hab & Hcases).
  assert (s' mod 4 = 0 ∧ tiles hdr (a + hdr + s') e post') as [Hs'4 Hpost'].
  { destruct (absorb_next_inv _ _ _ _ _ Hab)
      as [(-> & -> & _) | (b & t & -> & Hfree & ->)]; [done|].
    apply Forall_cons in Hokpost as [Hokt _]. simpl in Hokt.
    destruct (payload_ok_free _ Hokt Hfree) as [_ Ht4].
    simpl in Hpost. destruct Hpost as [<- Hpost].
    rewrite payload_free in Hpost by done. split; [zdiv|].
    by replace (a + hdr + (s - 1 + (t + hdr)))
         with (a + hdr + (s - 1) + hdr + t) by lia. }
  destruct (mult4_free _ Hs'4) as [_ Hpay'].
  destruct Hcases as [(-> & ->) | (pre' & c & u & -> & [[Hu ->] | [Hu ->]])].
  - simpl in *. subst p. by rewrite Hpay'.
  - apply tiles_app in Hpre as (r & Hpre' & (-> & Hc)). simpl in Hc.
    apply Forall_app in Hokpre as (_ & [Hoku _]%Forall_cons). simpl in Hoku.
    destruct (payload_ok_free _ Hoku Hu) as [_ Hu4].
    rewrite payload_free in Hc by done. subst a.
    apply tiles_app. exists c. split; [done|]. simpl. split; [done|].
    assert ((u + s' + hdr) mod 4 = 0) as Hm4 by zdiv.
    rewrite (proj2 (mult4_free _ Hm4)).
    by replace (c + hdr + (u + s' + hdr)) with (c + hdr + u + hdr + s') by lia.
  - apply tiles_app. exists a. split; [done|]. simpl. by rewrite Hpay'.
Qed.

Lemma Mem_Free_region e ptr st v st' r :
  hdr mod 4 = 0 → 0 < hdr → region_ok hdr e st v →
  Mem_Free hdr ptr st = Ret (st', r) →
  ∃ v', region_ok hdr e st' v' ∧ coverage hdr v' = coverage hdr v ∧
    (v' = v ∨
     r = 0 ∧ ∃ pre s post,
       v = pre ++ (ptr - hdr, s) :: post ∧ Z.odd s = true ∧
       v' = coalesced hdr pre (ptr - hdr) s post).
Proof.
  intros Hh4 Hh (Hdm & Ht & Hpos & Hao) E.
  destruct (Mem_Free_globals _ _ _ _ E) as [Hao' Hlh'].
  destruct (Mem_Free_list _ _ _ _ _ Hh4 Hh Hdm E)
    as [(-> & ->) | [(-> & Hnot & Hc')
                    | (-> & pre & s & post & -> & Hodd & Hc')]].
  - exists v. split; [by split_and!|]. split; [done|by left].
  - exists v. split; [|split; [done|by left]].
    unfold region_ok. rewrite Hlh', Hao'. split_and!; [|done..].
    destruct Hdm. by split.
  - destruct Hdm as [Hc Hne Hsort Hnaf Hok Hcov].
    destruct (coalesced_invariants hdr pre (ptr - hdr) s post
                Hh4 ltac:(lia) Hodd) as (? & Hso & Hna & Hpo).
    destruct (Hpo Hok) as [? Heq].
    exists (coalesced hdr pre (ptr - hdr) s post).
    split; [|split; [done|]].
    + unfold region_ok. rewrite Hlh', Hao'.
      split_and!; [|by apply coalesced_tiles|done..].
      split; [done|done|by apply Hso|by apply Hna|done|by rewrite Heq].
    + right. split; [done|]. by exists pre, s, post.
Qed.

(** ** Mem_Dump on a finite list *)

Lemma land1_odd (s : Z) : Z.land s 1 ≠ 0 ↔ Z.odd s = true.
Proof.
  change (Z.land s 1) with (Z.land s (Z.ones 1)).
  rewrite Z.land_ones by lia. change (2 ^ 1) with 2.
  rewrite Zmod_odd. by destruct (Z.odd s).
Qed.

Lemma busy_total_cons a s (v : list (Z * Z)) :
  busy_total hdr ((a, s) :: v)
  = (if is_free s then 0 else payload s + hdr) + busy_total hdr v.
Proof. unfold busy_total. simpl. destruct (is_free s); lia. Qed.

Lemma free_total_cons a s (v : list (Z * Z)) :
  free_total hdr ((a, s) :: v)
  = (if is_free s then payload s + hdr else 0) + free_total hdr v.
Proof. unfold free_total. simpl. destruct (is_free s); lia. Qed.

Lemma totals_coverage (v : list (Z * Z)) :
  busy_total hdr v + free_total hdr v = coverage hdr v.
Proof.
  induction v as [|[a s] v IH]; [done|].
  rewrite busy_total_cons, free_total_cons, coverage_cons.
  destruct (is_free s); lia.
Qed.

Lemma totals_nonneg (v : list (Z * Z)) :
  0 ≤ hdr → Forall (λ b, payload_ok b.2) v →
  0 ≤ busy_total hdr v ∧ 0 ≤ free_total hdr v.
Proof.
  intros Hh. induction 1 as [|[a s] v [Hs _] _ IH]; [done|].
  rewrite busy_total_cons, free_total_cons. simpl in Hs.
  destruct (is_free s); lia.
Qed.

Lemma coverage_length (v : list (Z * Z)) :
  0 ≤ hdr → Forall (λ b, payload_ok b.2) v →
  hdr * Z.of_nat (length v) ≤ coverage hdr v.
Proof.
  intros Hh. induction 1 as [|[a s] v [Hs _] _ IH].
  - unfold coverage. simpl. lia.
  - rewrite coverage_cons, length_cons. simpl in Hs. lia.
Qed.

Lemma dump_rows_chain fuel m p v k b f t :
  0 ≤ hdr → lseg m p 0 v → (length v < fuel)%nat →
  Forall (λ x, payload_ok x.2) v →
  0 ≤ b → 0 ≤ f → 0 ≤ t → 0 ≤ k →
  b + f + coverage hdr v ≤ INT_MAX → t + coverage hdr v ≤ INT_MAX →
  k + Z.of_nat (length v) ≤ INT_MAX →
  dump_rows hdr fuel m p k b f t
  = Ret (table hdr k v, b + busy_total hdr v, f + free_total hdr v).
Proof.
  intros Hh. revert fuel p k b f t.
  induction v as [|[a s] v IH]; intros fuel p k b f t Hl Hfuel Hok Hb Hf Ht Hk
    Hbf Htc Hkl.
  - simpl in Hl. subst p. destruct fuel as [|fuel]; [simpl in Hfuel; lia|].
    simpl. do 2 f_equal; [f_equal|]; unfold busy_total, free_total; simpl; lia.
  - destruct Hl as (-> & Ha & nx & Hm & Hl).
    apply Forall_cons in Hok as [Hs Hok]. simpl in Hs.
    rewrite length_cons in Hfuel, Hkl.
    destruct fuel as [|fuel]; [lia|].
    pose proof (coverage_nonneg hdr v Hh Hok) as Hcv.
    destruct (totals_nonneg v Hh Hok) as [Hbv Hfv].
    rewrite coverage_cons in Hbf, Htc.
    rewrite busy_total_cons, free_total_cons.
    cbn [dump_rows table]. rewrite decide_True by lia.
    rewrite (rd_size_at _ _ _ _ Ha Hm), bind_ret_l.
    rewrite (rd_next_at _ _ _ _ Ha Hm).
    destruct Hs as [Hs0 _]. rewrite is_free_odd.
    destruct (Z.odd s) eqn:Hodd.
    + rewrite decide_True by by apply land1_odd.
      rewrite payload_busy in * by done. cbn [negb].
      repeat first
        [ rewrite bind_ret_l
        | rewrite int_ok by (unfold INT_MIN, INT_MAX in *; lia) ].
      rewrite (IH fuel _ _ _ _ _ Hl ltac:(lia) Hok) by lia. simpl.
      by rewrite Z.add_0_l, !Z.add_assoc.
    + rewrite decide_False by (rewrite land1_odd; congruence).
      assert (payload s = s) as Hps by (unfold payload; by rewrite Hodd).
      rewrite Hps in *. cbn [negb].
      repeat first
        [ rewrite bind_ret_l
        | rewrite int_ok by (unfold INT_MIN, INT_MAX in *; lia) ].
      rewrite (IH fuel _ _ _ _ _ Hl ltac:(lia) Hok) by lia. simpl.
      by rewrite Z.add_0_l, !Z.add_assoc.
Qed.

(** The totals of the table are those of [Mem_Dump]. *)
Lemma dump_rows_scan fuel m p k b f t rows b' f' :
  dump_rows hdr fuel m p k b f t = Ret (rows, b', f') →
  dump_scan hdr fuel m p b f t = Ret (b', f').
Proof.
  revert p k b f t rows. induction fuel as [|fuel IH];
    intros p k b f t rows E; [done|].
  cbn [dump_rows dump_scan] in *. case_decide; [|by injection E as _ <- <-].
  bind_inv E as s Hs. rewrite Hs, bind_ret_l. case_decide.
  - bind_inv E as x1 E1. rewrite E1, bind_ret_l.
    bind_inv E as x2 E2. rewrite E2, bind_ret_l.
    bind_inv E as x3 E3. rewrite E3, bind_ret_l.
    bind_inv E as x4 E4. rewrite E4, bind_ret_l.
    bind_inv E as x5 E5. rewrite E5, bind_ret_l.
    bind_inv E as x6 E6. bind_inv E as [[rows' b1] f1] E7.
    injection E as _ <- <-. by eapply IH.
  - bind_inv E as x2 E2. rewrite E2, bind_ret_l.
    bind_inv E as x3 E3. rewrite E3, bind_ret_l.
    bind_inv E as x4 E4. rewrite E4, bind_ret_l.
    bind_inv E as x5 E5. rewrite E5, bind_ret_l.
    bind_inv E as x6 E6. bind_inv E as [[rows' b1] f1] E7.
    injection E as _ <- <-. by eapply IH.
Qed.

Lemma Mem_Dump_table_totals st rows b f t :
  Mem_Dump_table hdr st = Ret (rows, b, f, t) →
  Mem_Dump hdr st = Ret (b, f, t).
Proof.
  unfold Mem_Dump_table, Mem_Dump. intros E.
  bind_inv E as [[rows' b1] f1] E1. bind_inv E as t1 E2.
  injection E as _ <- <- <-.
  by rewrite (dump_rows_scan _ _ _ _ _ _ _ _ _ _ E1), bind_ret_l, E2.
Qed.

Lemma Mem_Dump_table_chain st v :
  hdr mod 4 = 0 → 0 < hdr → block_list st v →
  Forall (λ b, payload_ok b.2) v → coverage hdr v ≤ INT_MAX →
  Mem_Dump_table hdr st
  = Ret (table hdr 1 v, busy_total hdr v, free_total hdr v, coverage hdr v).
Proof.
  intros Hh4 Hh Hc Hok Hcov. unfold Mem_Dump_table.
  pose proof (coverage_length v ltac:(lia) Hok) as Hlen.
  pose proof (coverage_nonneg hdr v ltac:(lia) Hok) as Hcv.
  pose proof (chain_length _ _ _ Hc) as Hfuel.
  assert (4 ≤ hdr) as Hh' by zdiv.
  rewrite (dump_rows_chain _ _ _ v) by
    (done || (unfold walk_fuel, INT_MAX in *; lia)).
  rewrite bind_ret_l, !Z.add_0_l, totals_coverage.
  rewrite int_ok by (unfold INT_MIN, INT_MAX in *; lia). done.
Qed.

(** What [Mem_Dump] has followed when it returns is a list that ends at
    NULL. *)
Lemma dump_scan_Ret fuel m p b f t b' f' :
  dump_scan hdr fuel m p b f t = Ret (b', f') →
  ∃ v, lseg m p 0 v ∧
       b' = b + busy_total hdr v ∧ f' = f + free_total hdr v.
Proof.
  revert p b f t. induction fuel as [|fuel IH]; intros p b f t E; [done|].
  cbn [dump_scan] in E. case_decide as Hp.
  - bind_inv E as s Hs. apply rd_size_Ret in Hs as (_ & nx & Hm).
    case_decide as Hbusy.
    + apply land1_odd in Hbusy.
      bind_inv E as x1 E1. apply int_Ret in E1 as [-> _].
      bind_inv E as x2 E2. apply int_Ret in E2 as [-> _].
      bind_inv E as x3 E3. apply int_Ret in E3 as [-> _].
      bind_inv E as x4 E4. bind_inv E as x5 E5.
      apply rd_next_Ret in E5 as (_ & s' & Hm'). rewrite Hm in Hm'.
      injection Hm' as -> _.
      destruct (IH _ _ _ _ E) as (v & Hl & -> & ->).
      exists ((p, s) :: v). rewrite busy_total_cons, free_total_cons.
      rewrite is_free_odd, Hbusy, payload_busy by done. simpl.
      split; [|lia]. split_and!; [done|lia|]. eauto.
    + assert (Z.odd s = false) as Hodd.
      { destruct (Z.odd s) eqn:Ho; [|done]. by apply land1_odd in Ho. }
      bind_inv E as x2 E2. apply int_Ret in E2 as [-> _].
      bind_inv E as x3 E3. apply int_Ret in E3 as [-> _].
      bind_inv E as x4 E4. bind_inv E as x5 E5.
      apply rd_next_Ret in E5 as (_ & s' & Hm'). rewrite Hm in Hm'.
      injection Hm' as -> _.
      destruct (IH _ _ _ _ E) as (v & Hl & -> & ->).
      exists ((p, s) :: v). rewrite busy_total_cons, free_total_cons.
      rewrite is_free_odd, Hodd. unfold payload. rewrite Hodd. simpl.
      split; [|lia]. split_and!; [done|lia|]. eauto.
  - injection E as <- <-. exists []. simpl.
    unfold busy_total, free_total. simpl. split; [lia|lia].
Qed.

Lemma table_lookup k (v : list (Z * Z)) (i : nat) row :
  table hdr k v !! i = Some row →
  ∃ a s, v !! i = Some (a, s) ∧
    row = DumpRow (k + Z.of_nat i) (Z.odd s) (a + hdr) (a + hdr + payload s)
                  (payload s) (payload s + hdr) a.
Proof.
  revert k i. induction v as [|[a s] v IH]; intros k i; [done|].
  destruct i as [|i]; cbn [table].
  - intros [= <-]. exists a, s. split; [done|].
    rewrite is_free_odd, negb_involutive. f_equal. lia.
  - intros Hrow. change (table hdr (k + 1) v !! i = Some row) in Hrow.
    destruct (IH _ _ Hrow) as (a' & s' & Hv & ->).
    exists a', s'. split; [done|]. f_equal. lia.
Qed.

(** X1.  The table and the totals of [Mem_Dump] on a list that ends at NULL
    and whose sizes add up to an [int]. *)
Theorem Mem_Dump_table_spec st v :
  hdr mod 4 = 0 → 0 < hdr → block_list st v →
  Forall (λ b, payload_ok b.2) v → coverage hdr v ≤ INT_MAX →
  ∃ rows,
    Mem_Dump_table hdr st
    = Ret (rows, busy_total hdr v, free_total hdr v, coverage hdr v) ∧
    Mem_Dump hdr st
    = Ret (busy_total hdr v, free_total hdr v, coverage hdr v) ∧
    length rows = length v ∧
    ∀ (i : nat) a s, v !! i = Some (a, s) →
      rows !! i
      = Some (DumpRow (1 + Z.of_nat i) (Z.odd s) (a + hdr)
                      (a + hdr + payload s) (payload s) (payload s + hdr) a).
Proof.
  intros Hh4 Hh Hc Hok Hcov. exists (table hdr 1 v).
  pose proof (Mem_Dump_table_chain st v Hh4 Hh Hc Hok Hcov) as E.
  split; [done|]. split; [by eapply Mem_Dump_table_totals|].
  assert (∀ k, length (table hdr k v) = length v) as Hlen.
  { clear. induction v as [|[a s] v IH]; intros k; [done|].
    cbn [table]. by rewrite !length_cons, IH. }
  split; [done|]. intros i a s Hv.
  destruct (table hdr 1 v !! i) as [row|] eqn:Hrow.
  - destruct (table_lookup _ _ _ _ Hrow) as (a' & s' & Hv' & ->).
    rewrite Hv in Hv'. by injection Hv' as <- <-.
  - apply lookup_ge_None in Hrow. rewrite Hlen in Hrow.
    apply lookup_lt_Some in Hv. lia.
Qed.

(** X2.  Whenever [Mem_Dump] returns, the list it has followed is finite and
    ends at NULL, the busy and free totals are those of its busy and free
    blocks, and the total is the covered size. *)
Theorem Mem_Dump_returns_list st b f t :
  Mem_Dump hdr st = Ret (b, f, t) →
  ∃ v, block_list st v ∧
       b = busy_total hdr v ∧ f = free_total hdr v ∧
       t = coverage hdr v ∧ INT_MIN ≤ t ≤ INT_MAX.
Proof.
  unfold Mem_Dump. intros E. bind_inv E as [b1 f1] E1.
  bind_inv E as t1 E2. injection E as -> -> ->.
  apply int_Ret in E2 as [-> Ht].
  destruct (dump_scan_Ret _ _ _ _ _ _ _ _ E1) as (v & Hl & -> & ->).
  exists v. rewrite !Z.add_0_l in *.
  split_and!; [done..|by rewrite totals_coverage|lia|lia].
Qed.

(** ** The region stays tiled under requests of whole headers *)

(** X3.  [Mem_Alloc] on a list that tiles the region.  The invariants of
    the data model and the covered size are kept whatever the request; the
    blocks still lie end to end exactly when the block was not split or the
    rounded request is a whole number of headers. *)
Theorem Mem_Alloc_keeps_tiling e st v size st' p :
  hdr mod 4 = 0 → 0 < hdr → region_ok hdr e st v →
  Mem_Alloc hdr size st = Ret (st', p) → p ≠ 0 →
  ∃ pre s post,
    v = pre ++ (p - hdr, s) :: post ∧
    let v' := allocated hdr size pre (p - hdr) s post in
    data_model hdr st' v' ∧
    coverage hdr v' = e - list_head st' ∧
    (tiles hdr (list_head st') e v' ↔
     (hdr + 4 ≤ s - (rounded size + hdr) → rounded size mod hdr = 0)).
Proof.
  intros Hh4 Hh Hreg E Hp.
  destruct (Mem_Alloc_region e st v size st' p Hh4 Hh Hreg E)
    as [[-> _] | (_ & Hsize & pre & s & post & -> & Hfit & _ & Hdm' & Hcov'
                  & Hlh & Hao & Htiles)]; [done|].
  exists pre, s, post. split; [done|]. cbv zeta.
  destruct Hreg as (_ & Ht & _). rewrite Hlh.
  split_and!; [done| |done].
  rewrite Hcov'. by apply tiles_coverage.
Qed.

(** X4.  [Mem_Free] on a list that tiles the region leaves a list that
    tiles it: the list as it was, or the coalesced one. *)
Theorem Mem_Free_keeps_tiling e ptr st v st' r :
  hdr mod 4 = 0 → 0 < hdr → region_ok hdr e st v →
  Mem_Free hdr ptr st = Ret (st', r) →
  ∃ v', data_model hdr st' v' ∧ tiles hdr (list_head st') e v' ∧
        coverage hdr v' = e - list_head st' ∧
        (v' = v ∨
         r = 0 ∧ ∃ pre s post,
           v = pre ++ (ptr - hdr, s) :: post ∧ Z.odd s = true ∧
           v' = coalesced hdr pre (ptr - hdr) s post).
Proof.
  intros Hh4 Hh Hreg E.
  destruct (Mem_Free_region e ptr st v st' r Hh4 Hh Hreg E)
    as (v' & (Hdm' & Ht' & _) & _ & Hv').
  exists v'. split_and!; [done..| |done]. by apply tiles_coverage.
Qed.

Lemma run_region_ok e c st st' r v :
  hdr mod 4 = 0 → 0 < hdr → region_ok hdr e st v → whole_headers hdr c →
  run hdr pagesize c st = Ret (st', r) →
  ∃ v', region_ok hdr e st' v' ∧ list_head st' = list_head st.
Proof.
  intros Hh4 Hh Hreg Hw E. destruct c as [os n|size|ptr]; simpl in E, Hw.
  - pose proof Hreg as (_ & _ & _ & Hao).
    rewrite Mem_Init_once in E by done. injection E as <- _. by exists v.
  - destruct (Mem_Alloc_region e st v size st' r Hh4 Hh Hreg E)
      as [[_ ->] | (_ & Hsize & pre & s & post & -> & Hfit & _ & Hdm' & _
                    & Hlh & Hao & Htiles)]; [by exists v|].
    eexists. split; [|done]. unfold region_ok. rewrite Hlh, Hao.
    destruct Hreg as (_ & _ & ? & ?).
    split_and!; [exact Hdm'| |done..]. apply Htiles. auto.
  - destruct (Mem_Free_region e ptr st v st' r Hh4 Hh Hreg E)
      as (v' & ? & _).
    exists v'. split; [done|]. by destruct (Mem_Free_globals _ _ _ _ E).
Qed.

Lemma run_all_region_ok e cs st st' rs v :
  hdr mod 4 = 0 → 0 < hdr → region_ok hdr e st v →
  Forall (whole_headers hdr) cs →
  run_all hdr pagesize cs st = Ret (st', rs) →
  ∃ v', region_ok hdr e st' v' ∧ list_head st' = list_head st.
Proof.
  intros Hh4 Hh Hreg Hw. revert st st' rs v Hreg.
  induction Hw as [|c cs Hc _ IH]; intros st st' rs v Hreg E.
  - injection E as <- _. by exists v.
  - cbn [run_all] in E. bind_inv E as [st1 r] E1.
    bind_inv E as [st2 rs'] E2. injection E as <- _.
    destruct (run_region_ok e c st st1 r v Hh4 Hh Hreg Hc E1)
      as (v1 & Hreg1 & Hlh1).
    destruct (IH _ _ _ _ Hreg1 E2) as (v2 & Hreg2 & Hlh2).
    exists v2. split; [done|congruence].
Qed.

Lemma Mem_Init_region_ok space_ptr n st1 :
  0 < pagesize → pagesize mod 4 = 0 → hdr mod 4 = 0 → 0 < hdr ≤ pagesize →
  0 < space_ptr →
  Mem_Init hdr pagesize (Mapped space_ptr) n initial = Ret (st1, 0) →
  region_ok hdr (space_ptr + region_size pagesize n) st1
            [(space_ptr, region_size pagesize n - hdr)] ∧
  list_head st1 = space_ptr.
Proof.
  intros Hp Hp4 Hh4 Hh Hsp E.
  destruct (Mem_Init_data_model space_ptr n st1 Hp Hp4 Hh4 Hh E)
    as (Hdm & Hfree & _).
  apply Mem_Init_Mapped in E as (_ & _ & _ & _ & ->); [|done].
  split; [|done]. split_and!; [done| |done|done].
  simpl. split; [done|]. rewrite payload_free by done. lia.
Qed.

(** X5.  The coverage invariant, for requests of whole headers.  After a
    successful first [Mem_Init], whatever calls follow and return, as long
    as every request rounded up to a multiple of 4 is a multiple of the
    header size: the list satisfies the invariants of the data model, its
    blocks tile the region, their sizes add up to the page-rounded region
    size, and that is the total [Mem_Dump] prints. *)
Theorem whole_headers_coverage space_ptr n cs st rs :
  0 < pagesize → pagesize mod 4 = 0 → hdr mod 4 = 0 → 0 < hdr ≤ pagesize →
  0 < space_ptr → Forall (whole_headers hdr) cs →
  run_all hdr pagesize (Init (Mapped space_ptr) n :: cs) initial
  = Ret (st, 0 :: rs) →
  ∃ v, data_model hdr st v ∧
       tiles hdr space_ptr (space_ptr + region_size pagesize n) v ∧
       coverage hdr v = region_size pagesize n ∧
       Mem_Dump hdr st
       = Ret (busy_total hdr v, free_total hdr v, region_size pagesize n).
Proof.
  intros Hp Hp4 Hh4 Hh Hsp Hw E.
  cbn [run_all run] in E. bind_inv E as [st1 r] E1.
  bind_inv E as [st2 rs'] E2. injection E as <- -> <-.
  destruct (Mem_Init_region_ok space_ptr n st1 Hp Hp4 Hh4 Hh Hsp E1)
    as [Hreg1 Hlh1].
  destruct (run_all_region_ok _ cs st1 st2 rs' _ Hh4 ltac:(lia) Hreg1 Hw E2)
    as (v & (Hdm & Ht & _) & Hlh).
  rewrite Hlh, Hlh1 in Ht.
  assert (coverage hdr v = region_size pagesize n) as Hcov
    by (rewrite (tiles_coverage _ _ _ Ht); lia).
  exists v. split_and!; [done..|].
  eapply Mem_Dump_table_totals. rewrite <- Hcov.
  apply Mem_Dump_table_chain; [done|lia|apply Hdm..].
Qed.

(** ** Every walk along a finite list ends *)

Lemma int_not_Loops z : int z ≠ Loops.
Proof. unfold int. by case_decide. Qed.

Lemma merge_next_not_Loops m a : merge_next hdr m a ≠ Loops.
Proof.
  unfold merge_next, rd_size, rd_next, wr_size, wr_next, int. intros E.
  repeat first
    [ discriminate E
    | apply bind_Loops in E as [E | (? & _ & E)]
    | case_decide
    | case_match ].
Qed.

Lemma merge_prev_not_Loops m prev : merge_prev hdr m prev ≠ Loops.
Proof.
  unfold merge_prev, rd_size, rd_next, wr_size, wr_next, int. intros E.
  repeat first
    [ discriminate E
    | apply bind_Loops in E as [E | (? & _ & E)]
    | case_decide
    | case_match ].
Qed.

Lemma bytes_needed_not_Loops size : bytes_needed hdr size ≠ Loops.
Proof.
  unfold bytes_needed, round_up4, int. intros E.
  repeat first
    [ discriminate E
    | apply bind_Loops in E as [E | (? & _ & E)]
    | case_decide ].
Qed.

Lemma alloc_scan_chain m sb need p v :
  chain m p v → alloc_scan hdr (walk_fuel m) m sb need p ≠ Loops.
Proof.
  intros Hc. destruct (decide (v = [])) as [->|Hne].
  - unfold chain in Hc. simpl in Hc. subst p. by unfold walk_fuel.
  - destruct (first_fit_split need v)
      as [Hno | (pre & a & s & post & -> & Hpre & Hs)].
    + by rewrite (alloc_scan_none _ _ _ _ _ Hc Hne Hno).
    + rewrite (alloc_scan_first _ _ _ _ _ _ _ _ Hc Hpre Hs).
      apply carve_not_Loops.
Qed.

Lemma find_prev_chain m m2 head v a prev :
  chain m head v → (∀ i, i ≠ a → m2 !! i = m !! i) →
  ∃ r, find_prev (walk_fuel m2) m2 a head prev = Ret r.
Proof.
  intros Hc Hsame. pose proof (chain_NoDup _ _ _ Hc) as Hnd.
  destruct (decide (a ∈ v.*1)) as [Hel|Hel].
  - apply list_elem_of_fmap in Hel as ([a' s] & Ha & Hel). simpl in Ha.
    subst a'. apply list_elem_of_split in Hel as (pre & post & ->).
    rewrite fmap_app, fmap_cons in Hnd.
    apply NoDup_app in Hnd as (Hndpre & Hdisj & _).
    assert (a ∉ pre.*1) as Hapre by (intros Hin; apply (Hdisj a Hin); left).
    apply lseg_app in Hc as (r & Hpre & (-> & _)).
    assert (lseg m2 head a pre) as Hpre2.
    { eapply lseg_frame; [|exact Hpre]. intros i Hi. apply Hsame.
      by intros ->. }
    eexists. apply find_prev_seg with (q := a) (v := pre); [done..|by left|].
    pose proof (lseg_length _ _ _ _ Hpre2 Hndpre). unfold walk_fuel. lia.
  - assert (chain m2 head v) as Hc2.
    { eapply lseg_frame; [|exact Hc]. intros i Hi. apply Hsame.
      by intros ->. }
    eexists. apply find_prev_seg with (q := 0) (v := v); [done..|by right|].
    pose proof (chain_length _ _ _ Hc2). unfold walk_fuel. lia.
Qed.

Lemma dump_scan_chain fuel m p v b f t :
  lseg m p 0 v → (length v < fuel)%nat →
  dump_scan hdr fuel m p b f t ≠ Loops.
Proof.
  revert fuel p b f t.
  induction v as [|[a s] v IH]; intros fuel p b f t Hl Hfuel.
  - simpl in Hl. subst p. destruct fuel as [|fuel]; [simpl in Hfuel; lia|].
    done.
  - destruct Hl as (-> & Ha & nx & Hm & Hl). rewrite length_cons in Hfuel.
    destruct fuel as [|fuel]; [lia|]. cbn [dump_scan].
    rewrite decide_True by done.
    rewrite (rd_size_at _ _ _ _ Ha Hm), bind_ret_l.
    rewrite (rd_next_at _ _ _ _ Ha Hm). intros E.
    case_decide;
      repeat (apply bind_Loops in E as [E | (? & _ & E)];
              [by apply int_not_Loops in E|]);
      rewrite bind_ret_l in E; by apply IH in E; [|done|lia].
Qed.

(** X6.  On a state whose list is finite and ends at NULL, no call runs for
    ever: [Mem_Alloc], [Mem_Free] and [Mem_Dump] each return or fault. *)
Theorem finite_list_terminates st v :
  block_list st v →
  (∀ size, Mem_Alloc hdr size st ≠ Loops) ∧
  (∀ ptr, Mem_Free hdr ptr st ≠ Loops) ∧
  Mem_Dump hdr st ≠ Loops.
Proof.
  intros Hc. split_and!.
  - intros size. unfold Mem_Alloc. case_decide; [done|]. intros E.
    apply bind_Loops in E as [E | ([sb need] & _ & E)];
      [by apply bytes_needed_not_Loops in E|].
    apply bind_Loops in E as [E | ([m r] & _ & E)]; [|done].
    by apply (alloc_scan_chain _ _ _ _ _ Hc) in E.
  - intros ptr. unfold Mem_Free. case_decide; [done|]. intros E.
    apply bind_Loops in E as [E | (s & _ & E)];
      [by apply rd_size_not_Loops in E|].
    case_decide; [done|].
    apply bind_Loops in E as [E | (s1 & _ & E)];
      [by apply int_not_Loops in E|].
    apply bind_Loops in E as [E | (m1 & Hm1 & E)];
      [unfold wr_size in E; by case_decide|].
    apply bind_Loops in E as [E | (m2 & Hm2 & E)];
      [by apply merge_next_not_Loops in E|].
    case_decide; [done|].
    apply wr_size_Ret in Hm1 as [_ ->].
    destruct (find_prev_chain (mem st) m2 (list_head st) v (ptr - hdr) 0 Hc)
      as (prev & Hprev).
    { intros i Hi. rewrite (merge_next_frame _ _ _ Hm2) by done.
      by apply lookup_insert_ne. }
    rewrite Hprev, bind_ret_l in E.
    apply bind_Loops in E as [E | (m3 & _ & E)]; [|done].
    by apply merge_prev_not_Loops in E.
  - unfold Mem_Dump. intros E.
    apply bind_Loops in E as [E | ([b f] & _ & E)].
    + eapply dump_scan_chain; [exact Hc| |exact E].
      pose proof (chain_length _ _ _ Hc). unfold walk_fuel. lia.
    + apply bind_Loops in E as [E | (? & _ & E)]; [|done].
      by apply int_not_Loops in E.
Qed.

(** ** Headers lie whole header-widths apart *)

Lemma aligned_insert o m a h :
  aligned_mem hdr o m → (a - o) mod hdr = 0 →
  aligned_mem hdr o (<[a := h]> m).
Proof.
  intros Hm Ha i. destruct (decide (i = a)) as [->|Hi]; [done|].
  rewrite lookup_insert_ne by done. apply Hm.
Qed.

Lemma wr_next_aligned o m p v m' :
  aligned_mem hdr o m → (p - o) mod hdr = 0 → wr_next m p v = Ret m' →
  aligned_mem hdr o m'.
Proof. intros Hm Hp [_ ->]%wr_next_Ret. by apply aligned_insert. Qed.

Lemma wr_size_aligned o m p v m' :
  aligned_mem hdr o m → (p - o) mod hdr = 0 → wr_size m p v = Ret m' →
  aligned_mem hdr o m'.
Proof. intros Hm Hp [_ ->]%wr_size_Ret. by apply aligned_insert. Qed.

Lemma rd_size_aligned o m p s :
  aligned_mem hdr o m → rd_size m p = Ret s → (p - o) mod hdr = 0.
Proof. intros Hm (_ & nx & Hp)%rd_size_Ret. apply Hm. by rewrite Hp. Qed.

Lemma carve_aligned o m ptr sb need m' r :
  0 < hdr → aligned_mem hdr o m →
  carve hdr m ptr sb need = Ret (m', r) →
  aligned_mem hdr o m' ∧ (r - o) mod hdr = 0.
Proof.
  intros Hh Hm E. pose proof (carve_Ret _ _ _ _ _ _ E) as [-> Hptr].
  apply Hm in Hptr.
  assert ((ptr + hdr - o) mod hdr = 0) as Hr.
  { replace (ptr + hdr - o) with (ptr - o + 1 * hdr) by lia.
    by rewrite Z.mod_add by lia. }
  assert ((ptr + need ÷ hdr * hdr - o) mod hdr = 0) as Hnb.
  { replace (ptr + need ÷ hdr * hdr - o)
      with (ptr - o + need ÷ hdr * hdr) by lia.
    by rewrite Z.mod_add by lia. }
  split; [|done]. unfold carve in E.
  bind_inv E as s Hs. bind_inv E as d Hd. bind_inv E as lim Hlim.
  case_decide.
  - bind_inv E as nx Hnx. bind_inv E as m1 Hm1. bind_inv E as m2 Hm2.
    bind_inv E as s1 Hs1. bind_inv E as d1 Hd1. bind_inv E as m3 Hm3.
    bind_inv E as m4 Hm4. bind_inv E as s2 Hs2. bind_inv E as s3 Hs3.
    bind_inv E as m5 Hm5. injection E as <-.
    apply (wr_size_aligned o _ _ _ _) with (3 := Hm5); [|done].
    apply (wr_size_aligned o _ _ _ _) with (3 := Hm4); [|done].
    apply (wr_size_aligned o _ _ _ _) with (3 := Hm3); [|done].
    apply (wr_next_aligned o _ _ _ _) with (3 := Hm2); [|done].
    by apply (wr_next_aligned o _ _ _ _) with (3 := Hm1).
  - bind_inv E as s1 Hs1. bind_inv E as s2 Hs2. bind_inv E as m1 Hm1.
    injection E as <-. by apply (wr_size_aligned o _ _ _ _) with (3 := Hm1).
Qed.

Lemma alloc_scan_aligned o fuel m sb need p m' r :
  0 < hdr → aligned_mem hdr o m →
  alloc_scan hdr fuel m sb need p = Ret (m', r) →
  aligned_mem hdr o m' ∧ (r = 0 ∨ (r - o) mod hdr = 0).
Proof.
  intros Hh Hm. revert p. induction fuel as [|fuel IH]; intros p E; [done|].
  cbn [alloc_scan] in E. bind_inv E as nx Hnx.
  case_decide; bind_inv E as s Hs; repeat case_decide;
    try (by eapply IH);
    try (injection E as <- <-; by auto);
    destruct (carve_aligned o _ _ _ _ _ _ Hh Hm E); auto.
Qed.

Lemma merge_next_aligned o m a m' :
  aligned_mem hdr o m → (a - o) mod hdr = 0 →
  merge_next hdr m a = Ret m' → aligned_mem hdr o m'.
Proof.
  intros Hm Ha E. unfold merge_next in E. bind_inv E as nx Hnx.
  case_decide; [|by injection E as <-].
  bind_inv E as sn Hsn. case_decide; [|by injection E as <-].
  bind_inv E as x1 E1. bind_inv E as x2 E2. bind_inv E as x3 E3.
  bind_inv E as m1 Hm1. bind_inv E as x4 E4. bind_inv E as x5 E5.
  apply (wr_next_aligned o _ _ _ _) with (3 := E); [|done].
  by apply (wr_size_aligned o _ _ _ _) with (3 := Hm1).
Qed.

Lemma merge_prev_aligned o m prev m' :
  aligned_mem hdr o m → merge_prev hdr m prev = Ret m' →
  aligned_mem hdr o m'.
Proof.
  intros Hm E. unfold merge_prev in E. case_decide; [|by injection E as <-].
  bind_inv E as sp Hsp. pose proof (rd_size_aligned _ _ _ _ Hm Hsp) as Hp.
  case_decide; [|by injection E as <-].
  bind_inv E as x1 E1. bind_inv E as x2 E2. bind_inv E as x3 E3.
  bind_inv E as x4 E4. bind_inv E as m1 Hm1. bind_inv E as x5 E5.
  bind_inv E as x6 E6.
  apply (wr_next_aligned o _ _ _ _) with (3 := E); [|done].
  by apply (wr_size_aligned o _ _ _ _) with (3 := Hm1).
Qed.

Lemma Mem_Alloc_aligned size st st' p :
  0 < hdr → aligned hdr st → Mem_Alloc hdr size st = Ret (st', p) →
  aligned hdr st' ∧ (p = 0 ∨ (p - list_head st) mod hdr = 0).
Proof.
  intros Hh Hal E. unfold Mem_Alloc in E.
  case_decide; [injection E as <- <-; by auto|].
  bind_inv E as [sb need] Hb. bind_inv E as [m r] Hscan.
  injection E as <- <-.
  by apply (alloc_scan_aligned _ _ _ _ _ _ _ _ Hh Hal) in Hscan.
Qed.

Lemma Mem_Free_aligned ptr st st' r :
  aligned hdr st → Mem_Free hdr ptr st = Ret (st', r) → aligned hdr st'.
Proof.
  intros Hal E. unfold Mem_Free in E. case_decide; [by injection E as <-|].
  bind_inv E as s Hs. pose proof (rd_size_aligned _ _ _ _ Hal Hs) as Hp.
  case_decide; [by injection E as <-|].
  bind_inv E as s1 Hs1. bind_inv E as m1 Hm1. bind_inv E as m2 Hm2.
  assert (aligned_mem hdr (list_head st) m2) as Hal2.
  { apply (merge_next_aligned _ _ _ _) with (3 := Hm2); [|done].
    by apply (wr_size_aligned _ _ _ _ _) with (3 := Hm1). }
  case_decide; [by injection E as <-|].
  bind_inv E as prev Hprev. bind_inv E as m3 Hm3. injection E as <-.
  by eapply merge_prev_aligned.
Qed.

Lemma run_aligned c st st' r :
  0 < hdr → (allocated_once st = 0 → mem st = ∅) → aligned hdr st →
  run hdr pagesize c st = Ret (st', r) →
  (allocated_once st' = 0 → mem st' = ∅) ∧ aligned hdr st'.
Proof.
  intros Hh Hempty Hal E. destruct c as [os n|size|ptr]; simpl in E.
  - unfold Mem_Init in E. case_decide as Hao; [by injection E as <-|].
    case_decide; [by injection E as <-|].
    assert (allocated_once st = 0) as Hao0 by lia.
    bind_inv E as asz Hasz. destruct os as [| |space_ptr].
    + by injection E as <-.
    + injection E as <-. split; [by auto|done].
    + bind_inv E as m1 Hm1. bind_inv E as sz Hsz. bind_inv E as m2 Hm2.
      injection E as <-. split; [done|]. unfold aligned. simpl.
      apply wr_next_Ret in Hm1 as [_ ->]. apply wr_size_Ret in Hm2 as [_ ->].
      rewrite (Hempty Hao0).
      assert ((space_ptr - space_ptr) mod hdr = 0) as Hz
        by (by rewrite Z.sub_diag, Z.mod_0_l by lia).
      do 2 (apply aligned_insert; [|done]).
      intros a [h Ha]. by rewrite lookup_empty in Ha.
  - destruct (Mem_Alloc_globals _ _ _ _ E) as [Hao Hlh].
    split; [|by eapply Mem_Alloc_aligned]. rewrite Hao. intros Hao0.
    specialize (Hempty Hao0). unfold Mem_Alloc in E.
    case_decide; [by injection E as <-|].
    bind_inv E as [sb need] Hb. bind_inv E as [m x] Hscan.
    rewrite Hempty in Hscan. unfold walk_fuel in Hscan.
    cbn [alloc_scan] in Hscan. bind_inv Hscan as nx Hnx.
    apply rd_next_Ret in Hnx as (_ & s & Hl). by rewrite lookup_empty in Hl.
  - destruct (Mem_Free_globals _ _ _ _ E) as [Hao Hlh].
    split; [|by eapply Mem_Free_aligned]. rewrite Hao. intros Hao0.
    specialize (Hempty Hao0). unfold Mem_Free in E.
    case_decide; [by injection E as <-|].
    bind_inv E as s Hs. apply rd_size_Ret in Hs as (_ & nx & Hl).
    by rewrite Hempty, lookup_empty in Hl.
Qed.

Lemma steps_aligned st st' :
  0 < hdr → steps hdr pagesize st st' →
  (allocated_once st = 0 → mem st = ∅) → aligned hdr st →
  (allocated_once st' = 0 → mem st' = ∅) ∧ aligned hdr st'.
Proof.
  intros Hh. induction 1 as [st|st c st1 r st2 E _ IH]; [done|].
  intros Hempty Hal.
  destruct (run_aligned _ _ _ _ Hh Hempty Hal E) as [Hempty1 Hal1]. auto.
Qed.

(** X7.  In every state reached from program start by calls that return,
    every header in memory lies a whole number of header-widths from the
    head of the list, and so does every address [Mem_Alloc] then returns:
    headers never overlap each other in part. *)
Theorem headers_aligned st :
  0 < hdr → steps hdr pagesize initial st →
  (∀ a, is_Some (mem st !! a) → (a - list_head st) mod hdr = 0) ∧
  (∀ size st' p, Mem_Alloc hdr size st = Ret (st', p) → p ≠ 0 →
     (p - list_head st) mod hdr = 0 ∧ list_head st' = list_head st).
Proof.
  intros Hh Hsteps.
  destruct (steps_aligned initial st Hh Hsteps) as [_ Hal]; [done| |].
  { intros a [h Ha]. simpl in Ha. by rewrite lookup_empty in Ha. }
  split; [exact Hal|]. intros size st' p E Hp.
  destruct (Mem_Alloc_aligned _ _ _ _ Hh Hal E) as [_ [?|?]]; [done|].
  split; [done|]. by destruct (Mem_Alloc_globals _ _ _ _ E).
Qed.

(** ** Mem_Init: every way out *)

Lemma region_size_upper n :
  0 < pagesize → region_size pagesize n < n + pagesize.
Proof.
  intros Hp. unfold region_size.
  pose proof (Z.mul_div_le (n + pagesize - 1) pagesize Hp). lia.
Qed.

(** X8.  A call of [Mem_Init] that returns either fails, with -1 and the
    state as it was (also when [mmap] fails, where the flag is written),
    or succeeds, with 0: then it was the first to succeed, the size was
    positive, the operating system mapped the region, the list is one free
    block at its start with no successor, no other header has changed, and
    the block's payload is the smallest multiple of the page size that
    holds the request, less one header. *)
Theorem Mem_Init_outcomes os n st st' r :
  Mem_Init hdr pagesize os n st = Ret (st', r) →
  (r = -1 ∧ st' = st) ∨
  (r = 0 ∧ allocated_once st = 0 ∧ 0 < n ∧
   ∃ space_ptr alloc_size,
     os = Mapped space_ptr ∧ space_ptr ≠ 0 ∧
     allocated_once st' = 1 ∧ list_head st' = space_ptr ∧
     mem st' = <[space_ptr := BlockHd 0 (alloc_size - hdr)]> (mem st) ∧
     (0 < pagesize →
      alloc_size mod pagesize = 0 ∧ n ≤ alloc_size < n + pagesize)).
Proof.
  unfold Mem_Init. case_decide as Hao; [intros [= <- <-]; by left|].
  case_decide as Hn; [intros [= <- <-]; by left|]. intros E.
  assert (allocated_once st = 0) as Hao0 by lia.
  bind_inv E as asz Hasz. apply int_Ret in Hasz as [-> _].
  destruct os as [| |space_ptr].
  - injection E as <- <-. by left.
  - injection E as <- <-. left. split; [done|].
    destruct st as [ao lh m]. simpl in *. by subst ao.
  - bind_inv E as m1 Hm1. bind_inv E as sz Hsz. bind_inv E as m2 Hm2.
    injection E as <- <-. right.
    apply int_Ret in Hsz as [-> _]. apply wr_next_Ret in Hm1 as [Hsp ->].
    apply wr_size_Ret in Hm2 as [_ ->].
    split_and!; [done|done|lia|]. eexists space_ptr, _.
    split_and!; [done|done|done|done| |].
    + simpl. unfold peek. rewrite lookup_insert_eq. simpl.
      by rewrite insert_insert_eq.
    + intros Hp. rewrite alloc_size_region by lia.
      destruct (region_size_bounds pagesize n Hp ltac:(lia)) as (_ & ? & ?).
      pose proof (region_size_upper n Hp). lia.
Qed.

(** X9.  The first call of [Mem_Init] with a positive size.  Where rounding
    the size up to whole pages leaves the range of [int], the sum
    overflows before the operating system is asked; otherwise, on a mapped
    region, the call succeeds and leaves one free block. *)
Theorem Mem_Init_first_call n st :
  allocated_once st = 0 → 0 < n → 0 < pagesize →
  (INT_MAX < region_size pagesize n →
   ∀ os, Mem_Init hdr pagesize os n st = Fault) ∧
  (∀ space_ptr,
     region_size pagesize n ≤ INT_MAX → space_ptr ≠ 0 →
     INT_MIN ≤ region_size pagesize n - hdr ≤ INT_MAX →
     Mem_Init hdr pagesize (Mapped space_ptr) n st
     = Ret (State 1 space_ptr
              (<[space_ptr := BlockHd 0 (region_size pagesize n - hdr)]>
                 (mem st)), 0)).
Proof.
  intros Hao Hn Hp.
  destruct (region_size_bounds pagesize n Hp Hn) as (Hge & _ & _). split.
  - intros Hbig os. unfold Mem_Init.
    rewrite decide_False by lia. rewrite decide_False by lia.
    rewrite alloc_size_region by done.
    unfold int. by rewrite decide_False by lia.
  - intros space_ptr Hmax Hsp Hsz. unfold Mem_Init.
    rewrite decide_False by lia. rewrite decide_False by lia.
    rewrite alloc_size_region by done.
    rewrite int_ok by (unfold INT_MIN; lia). rewrite bind_ret_l.
    rewrite wr_next_ok by done. rewrite bind_ret_l.
    rewrite int_ok by done. rewrite bind_ret_l.
    rewrite wr_size_ok by done. rewrite bind_ret_l.
    unfold peek. rewrite lookup_insert_eq. simpl.
    by rewrite insert_insert_eq.
Qed.

(** ** Mem_Alloc where it has no defined behaviour *)

(** X10.  Before any [Mem_Init] has succeeded the head of the list is
    NULL, and [Mem_Alloc] with a positive size has no defined behaviour:
    it reads through the head, where the sizes have not overflowed first. *)
Theorem Mem_Alloc_before_init size st :
  list_head st = 0 → 0 < size → Mem_Alloc hdr size st = Fault.
Proof.
  intros Hlh Hsize. unfold Mem_Alloc. rewrite decide_False by lia.
  destruct (bytes_needed hdr size) as [[sb need]| |] eqn:Hb; [|done|].
  - rewrite bind_ret_l, Hlh. by unfold walk_fuel.
  - by apply bytes_needed_not_Loops in Hb.
Qed.

(** X11.  A request so large that the rounded size plus the header size
    leaves the range of [int] overflows, whatever the state: the call does
    not return NULL. *)
Theorem Mem_Alloc_overflow size st :
  0 < hdr → 0 < size → INT_MAX < rounded size + hdr →
  Mem_Alloc hdr size st = Fault.
Proof.
  intros Hh Hsize Hbig. unfold Mem_Alloc. rewrite decide_False by lia.
  unfold bytes_needed.
  destruct (round_up4 size) as [sb| |] eqn:Hr; [|done|].
  - apply round_up4_Ret in Hr as [-> _]; [|done].
    rewrite bind_ret_l. unfold int. by rewrite decide_False by lia.
  - unfold round_up4 in Hr. case_decide; [|done].
    by apply int_not_Loops in Hr.
Qed.

(** ** Allocation undone and redone *)

(** X12.  On a list that tiles the region, [Mem_Free] on the address that
    [Mem_Alloc] has just returned gives back the list as it was before the
    allocation, block for block, and the same request then returns the
    same address and leads to the same state as the first time. *)
Theorem Mem_Free_undoes_Mem_Alloc e st v size st1 p :
  hdr mod 4 = 0 → 0 < hdr → region_ok hdr e st v →
  Mem_Alloc hdr size st = Ret (st1, p) → p ≠ 0 →
  ∃ st2, Mem_Free hdr p st1 = Ret (st2, 0) ∧ region_ok hdr e st2 v ∧
         Mem_Alloc hdr size st2 = Ret (st1, p).
Proof.
  intros Hh4 Hh Hreg E Hp. pose proof Hreg as (Hdm & Ht & Hpos & Hao).
  pose proof Hdm as [Hc Hne Hsort Hnaf Hok Hcov].
  destruct (alloc_free_roundtrip st v size st1 p Hh4 Hh Hdm E Hp)
    as (m2 & nx & s & Hfree & Hn & Hm & Hs & Hm2 & Hcases).
  destruct (Mem_Alloc_first_fit size st v st1 p Hc E Hp)
    as (Hsize & pre & a & s0 & post & Hv & Hpa & Hfit & Hskip & Hcarve).
  assert (p - hdr = a) as Hpa' by lia. rewrite Hpa' in *. subst v.
  assert (s0 = s) as ->.
  { destruct (lseg_lookup _ _ _ _ a s0 Hc) as (_ & nx0 & Hm0).
    - apply elem_of_app. right. left.
    - rewrite Hm in Hm0. by injection Hm0. }
  assert (chain m2 (list_head st) (pre ++ (a, s) :: post)) as Hc2.
  { destruct Hcases as [[-> _] | (nb & h & Hnba & Hnb0 & -> & _ & Hnb & _)];
      [done|].
    apply lseg_insert; [|done]. rewrite fmap_app, fmap_cons. simpl.
    pose proof (rounded_ge size).
    pose proof (quot_hdr_bounds (rounded size + hdr) Hh ltac:(lia)).
    intros [Hin | [Heq | Hin]%elem_of_cons]%elem_of_app.
    - rewrite fmap_app, fmap_cons in Hsort.
      pose proof (StronglySorted_app_1_elem_of _ _ _ nb a Hsort Hin
                    ltac:(simpl; left)). lia.
    - lia.
    - apply Forall_app in Hok as (_ & [_ Hokpost]%Forall_cons).
      pose proof (tiles_room _ _ _ _ _ _ size nb Hh Hsize Hokpost Ht Hfit Hin).
      lia. }
  exists (State (allocated_once st) (list_head st) m2).
  split; [done|]. split; [by split_and!|].
  unfold Mem_Alloc. rewrite decide_False by lia.
  cbn [mem list_head allocated_once].
  assert (bytes_needed hdr size
          = Ret (rounded size, rounded size + hdr)) as ->.
  { unfold Mem_Alloc in E. rewrite decide_False in E by lia.
    bind_inv E as [sb need] Hb. pose proof Hb as Hb'.
    apply bytes_needed_Ret in Hb' as (-> & -> & _); [done|lia]. }
  rewrite bind_ret_l.
  rewrite (alloc_scan_first _ _ _ _ _ _ _ _ Hc2 Hskip Hfit).
  assert (carve hdr m2 a (rounded size) (rounded size + hdr)
          = Ret (mem st1, p)) as ->.
  { destruct Hcases
      as [[-> _] | (nb & h & Hnba & Hnb0 & -> & Hst1 & Hnb & -> & Hsplit)];
      [done|].
    pose proof (rounded_ge size).
    rewrite (carve_spec _ _ _ _ _ _ Hn Hm) in Hcarve by lia.
    rewrite (carve_spec _ _ _ _ _ _ Hn Hm2) by lia.
    bind_inv Hcarve as d Hd. rewrite Hd, bind_ret_l.
    apply int_Ret in Hd as [-> _].
    bind_inv Hcarve as lim Hlim. rewrite Hlim, bind_ret_l.
    apply int_Ret in Hlim as [-> _].
    rewrite decide_True in Hcarve |- * by done. cbv zeta in Hcarve |- *.
    rewrite <- Hnb in Hcarve |- *.
    rewrite decide_False in Hcarve |- * by done.
    bind_inv Hcarve as s1 Hs1. rewrite Hs1, bind_ret_l.
    apply int_Ret in Hs1 as [-> _].
    rewrite insert_insert_eq, Hst1. f_equal. f_equal. lia. }
  rewrite bind_ret_l.
  destruct (Mem_Alloc_globals _ _ _ _ E) as [Hao1 Hlh1].
  destruct st1 as [ao1 lh1 m1]. simpl in *. by subst.
Qed.

(** ** What Mem_Dump reports before and after a call *)

Lemma busy_total_app (v1 v2 : list (Z * Z)) :
  busy_total hdr (v1 ++ v2) = busy_total hdr v1 + busy_total hdr v2.
Proof.
  induction v1 as [|[a s] v1 IH]; [done|].
  rewrite <- app_comm_cons, !busy_total_cons, IH. lia.
Qed.

Lemma busy_total_free a s (v : list (Z * Z)) :
  s mod 4 = 0 → busy_total hdr ((a, s) :: v) = busy_total hdr v.
Proof.
  intros Hs. rewrite busy_total_cons. by rewrite (proj1 (mult4_free _ Hs)).
Qed.

Lemma busy_total_busy a s (v : list (Z * Z)) :
  Z.odd s = true →
  busy_total hdr ((a, s) :: v) = s - 1 + hdr + busy_total hdr v.
Proof.
  intros Hs. by rewrite busy_total_cons, is_free_odd, Hs, payload_busy.
Qed.

Lemma coalesced_busy_total pre a s post :
  hdr mod 4 = 0 → Z.odd s = true →
  Forall (λ b, payload_ok b.2) (pre ++ (a, s) :: post) →
  busy_total hdr (coalesced hdr pre a s post)
  = busy_total hdr (pre ++ (a, s) :: post) - (s - 1 + hdr).
Proof.
  intros Hh4 Hodd Hok.
  apply Forall_app in Hok as (Hokpre & [Hoks Hokpost]%Forall_cons).
  simpl in Hoks. destruct (payload_ok_busy _ Hoks Hodd) as [Hs1 Hs4].
  rewrite busy_total_app, busy_total_busy by done.
  destruct (coalesced_cases hdr pre a s post) as (s' & post' & Hab & Hcases).
  assert (s' mod 4 = 0 ∧ busy_total hdr post' = busy_total hdr post)
    as [Hs'4 Hpost'].
  { destruct (absorb_next_inv _ _ _ _ _ Hab)
      as [(-> & -> & _) | (b & t & -> & Hfree & ->)]; [done|].
    apply Forall_cons in Hokpost as [Hokt _]. simpl in Hokt.
    destruct (payload_ok_free _ Hokt Hfree) as [_ Ht4].
    split; [zdiv|]. by rewrite busy_total_free. }
  destruct Hcases as [(-> & ->) | (pre' & c & u & -> & [[Hu ->] | [Hu ->]])].
  - rewrite busy_total_free by done. change (busy_total hdr []) with 0. lia.
  - apply Forall_app in Hokpre as (_ & [Hoku _]%Forall_cons). simpl in Hoku.
    destruct (payload_ok_free _ Hoku Hu) as [_ Hu4].
    rewrite !busy_total_app, !busy_total_free by (done || zdiv).
    change (busy_total hdr []) with 0. lia.
  - rewrite busy_total_app, busy_total_free by done. lia.
Qed.

Lemma allocated_busy_total size pre a s post :
  hdr mod 4 = 0 → 0 < size → is_free s = true → s mod 4 = 0 →
  busy_total hdr (allocated hdr size pre a s post)
  = busy_total hdr (pre ++ (a, s) :: post)
    + (if decide (hdr + 4 ≤ s - (rounded size + hdr))
       then rounded size + hdr else s + hdr).
Proof.
  intros Hh4 Hsize Hfree Hs4. pose proof (rounded_mod4 size) as Hr4.
  unfold allocated. cbv zeta.
  rewrite (busy_total_app pre ((a, s) :: post)), (busy_total_free a s)
    by done.
  assert (∀ x, x mod 4 = 0 → Z.odd (x + 1) = true) as Hodd.
  { intros x Hx. rewrite Z.add_1_r, Z.odd_succ. apply (mult4_free _ Hx). }
  case_decide.
  - rewrite busy_total_app, busy_total_busy by by apply Hodd.
    rewrite busy_total_free by zdiv. lia.
  - rewrite busy_total_app, busy_total_busy by by apply Hodd. lia.
Qed.

Lemma Mem_Dump_chain st v :
  hdr mod 4 = 0 → 0 < hdr → block_list st v →
  Forall (λ b, payload_ok b.2) v → coverage hdr v ≤ INT_MAX →
  Mem_Dump hdr st
  = Ret (busy_total hdr v, free_total hdr v, coverage hdr v).
Proof.
  intros. eapply Mem_Dump_table_totals. by apply Mem_Dump_table_chain.
Qed.

(** X13.  [Mem_Free] on a busy block of the list, seen through [Mem_Dump]:
    the block's payload and header leave the busy total and join the free
    total, whatever was coalesced; the total stays. *)
Theorem Mem_Free_totals ptr st pre s post :
  hdr mod 4 = 0 → 0 < hdr → ptr ≠ 0 → Z.odd s = true →
  data_model hdr st (pre ++ (ptr - hdr, s) :: post) →
  let v := pre ++ (ptr - hdr, s) :: post in
  ∃ st', Mem_Free hdr ptr st = Ret (st', 0) ∧
    Mem_Dump hdr st
    = Ret (busy_total hdr v, free_total hdr v, coverage hdr v) ∧
    Mem_Dump hdr st'
    = Ret (busy_total hdr v - (s - 1 + hdr),
           free_total hdr v + (s - 1 + hdr), coverage hdr v).
Proof.
  intros Hh4 Hh Hp Hodd [Hc Hne Hsort Hnaf Hok Hcov] v.
  destruct (Mem_Free_chain st pre (ptr - hdr) s post) as (m' & E & Hc');
    [lia|lia|done..|].
  replace (ptr - hdr + hdr) with ptr in E by lia.
  destruct (coalesced_invariants hdr pre (ptr - hdr) s post
              Hh4 ltac:(lia) Hodd) as (_ & _ & _ & Hpo).
  destruct (Hpo Hok) as [Hok' Hcov'].
  eexists. split; [exact E|]. split; [by apply Mem_Dump_chain|].
  rewrite (Mem_Dump_chain _ (coalesced hdr pre (ptr - hdr) s post));
    [|done..|by rewrite Hcov'].
  pose proof (totals_coverage (coalesced hdr pre (ptr - hdr) s post)) as Ht'.
  pose proof (totals_coverage v) as Ht.
  pose proof (coalesced_busy_total pre (ptr - hdr) s post Hh4 Hodd Hok) as Hb.
  fold v in Hb, Hcov'. do 2 f_equal; [f_equal|]; lia.
Qed.

(** X14.  [Mem_Alloc] on a list that tiles the region, seen through
    [Mem_Dump]: what the block taken holds, payload and header, moves from
    the free total to the busy total; that is the rounded request and one
    header after a split, the whole block otherwise, which is less than
    two headers and 4 bytes more; the total stays. *)
Theorem Mem_Alloc_totals e st v size st' p :
  hdr mod 4 = 0 → 0 < hdr → region_ok hdr e st v →
  Mem_Alloc hdr size st = Ret (st', p) → p ≠ 0 →
  ∃ pre s post,
    v = pre ++ (p - hdr, s) :: post ∧
    let x := if decide (hdr + 4 ≤ s - (rounded size + hdr))
             then rounded size + hdr else s + hdr in
    rounded size + hdr ≤ x < rounded size + 3 * hdr + 4 ∧
    Mem_Dump hdr st
    = Ret (busy_total hdr v, free_total hdr v, coverage hdr v) ∧
    Mem_Dump hdr st'
    = Ret (busy_total hdr v + x, free_total hdr v - x, coverage hdr v).
Proof.
  intros Hh4 Hh Hreg E Hp.
  destruct (Mem_Alloc_region e st v size st' p Hh4 Hh Hreg E)
    as [[-> _] | (_ & Hsize & pre & s & post & -> & [Hfree Hfit] & _ & Hdm'
                  & Hcov' & _)]; [done|].
  destruct Hreg as (Hdm & _).
  exists pre, s, post. split; [done|]. cbv zeta.
  pose proof (dm_payload _ _ _ Hdm) as Hok.
  apply Forall_app in Hok as (_ & [Hoks _]%Forall_cons). simpl in Hoks.
  destruct (payload_ok_free _ Hoks Hfree) as [_ Hs4].
  rewrite payload_free in Hfit by done.
  split; [case_decide; lia|]. split; [apply Mem_Dump_chain; by destruct Hdm|].
  rewrite (Mem_Dump_chain _ (allocated hdr size pre (p - hdr) s post));
    [|done|done|apply Hdm'..].
  pose proof (totals_coverage (allocated hdr size pre (p - hdr) s post)).
  pose proof (totals_coverage (pre ++ (p - hdr, s) :: post)).
  pose proof (allocated_busy_total size pre (p - hdr) s post
                Hh4 Hsize Hfree Hs4).
  do 2 f_equal; [f_equal|]; lia.
Qed.

(** ** The headers a call writes *)

Lemma carve_frame m ptr sb need m' r :
  carve hdr m ptr sb need = Ret (m', r) →
  ∀ i, i ≠ ptr → i ≠ ptr + need ÷ hdr * hdr → m' !! i = m !! i.
Proof.
  unfold carve. intros E i Hi1 Hi2.
  bind_inv E as s Hs. bind_inv E as d Hd. bind_inv E as lim Hlim.
  case_decide.
  - bind_inv E as nx Hnx. bind_inv E as m1 Hm1. bind_inv E as m2 Hm2.
    bind_inv E as s1 Hs1. bind_inv E as d1 Hd1. bind_inv E as m3 Hm3.
    bind_inv E as m4 Hm4. bind_inv E as s2 Hs2. bind_inv E as s3 Hs3.
    bind_inv E as m5 Hm5. injection E as <- _.
    apply wr_next_Ret in Hm1 as [_ ->]. apply wr_next_Ret in Hm2 as [_ ->].
    apply wr_size_Ret in Hm3 as [_ ->]. apply wr_size_Ret in Hm4 as [_ ->].
    apply wr_size_Ret in Hm5 as [_ ->]. by map_look.
  - bind_inv E as s1 Hs1. bind_inv E as s2 Hs2. bind_inv E as m1 Hm1.
    injection E as <- _. apply wr_size_Ret in Hm1 as [_ ->]. by map_look.
Qed.

Lemma alloc_scan_frame fuel m sb need p m' r :
  alloc_scan hdr fuel m sb need p = Ret (m', r) →
  ∀ i, i ≠ r - hdr → i ≠ r - hdr + need ÷ hdr * hdr → m' !! i = m !! i.
Proof.
  revert p. induction fuel as [|fuel IH]; intros p E; [done|].
  cbn [alloc_scan] in E. bind_inv E as nx Hnx.
  case_decide; bind_inv E as s Hs; repeat case_decide;
    try (by eapply IH);
    try (by injection E as <- _);
    pose proof (carve_Ret _ _ _ _ _ _ E) as [-> _];
    replace (p + hdr - hdr) with p by lia; by eapply carve_frame.
Qed.

Lemma merge_prev_frame m prev m' :
  merge_prev hdr m prev = Ret m' → ∀ i, i ≠ prev → m' !! i = m !! i.
Proof.
  unfold merge_prev. intros E i Hi. case_decide; [|by injection E as <-].
  bind_inv E as sp Hsp. case_decide; [|by injection E as <-].
  bind_inv E as x1 E1. bind_inv E as x2 E2. bind_inv E as x3 E3.
  bind_inv E as x4 E4. bind_inv E as m1 Hm1. bind_inv E as x5 E5.
  bind_inv E as x6 E6.
  apply wr_size_Ret in Hm1 as [_ ->]. apply wr_next_Ret in E as [_ ->].
  by map_look.
Qed.

(** What the walk of [Mem_Free] comes back with: the [prev] it was
    started with, when it begins at [newPtr] or at NULL; otherwise a block
    other than [newPtr] whose [next] is [newPtr], or is NULL where the
    walk has not met [newPtr]. *)
Lemma find_prev_Ret fuel m newPtr temp prev r :
  find_prev fuel m newPtr temp prev = Ret r →
  r = prev ∧ (temp = newPtr ∨ temp = 0) ∨
  r ≠ newPtr ∧ r ≠ 0 ∧
  ∃ h, m !! r = Some h ∧ (next h = newPtr ∨ next h = 0).
Proof.
  revert temp prev. induction fuel as [|fuel IH]; intros temp prev E; [done|].
  cbn [find_prev] in E. case_decide as Htemp; [|injection E as <-; by auto].
  case_decide as Hfound; [injection E as <-; by auto|].
  bind_inv E as nx Hnx. apply rd_next_Ret in Hnx as (_ & s & Hm).
  destruct (IH _ _ E) as [[-> Hnx] | Hr]; [|by right].
  right. split_and!; [done..|]. by exists (BlockHd nx s).
Qed.

(** X15.  The headers a call touches.  [Mem_Alloc] writes at most two: that
    of the block whose payload address it returns and the one it places
    for the rest of a split.  [Mem_Free] writes at most two: that of the
    block it is given and that of the block its walk from the head has
    found, which is the block whose [next] is the block given, or, where
    the walk has not met the block given, the block whose [next] is NULL.
    Every other header in memory is as it was. *)
Theorem writes_confined st :
  (∀ size st' p, Mem_Alloc hdr size st = Ret (st', p) →
     ∀ i, i ≠ p - hdr → i ≠ p - hdr + (rounded size + hdr) ÷ hdr * hdr →
          mem st' !! i = mem st !! i) ∧
  (∀ ptr st' r, Mem_Free hdr ptr st = Ret (st', r) →
     ∃ prev,
       (prev = 0 ∨
        prev ≠ ptr - hdr ∧
        ∃ h, mem st !! prev = Some h ∧
             (next h = ptr - hdr ∨ next h = 0)) ∧
       ∀ i, i ≠ ptr - hdr → i ≠ prev → mem st' !! i = mem st !! i).
Proof.
  split.
  - intros size st' p E i Hi1 Hi2. unfold Mem_Alloc in E.
    case_decide; [by injection E as <- _|].
    bind_inv E as [sb need] Hb.
    apply bytes_needed_Ret in Hb as (-> & -> & _); [|lia].
    bind_inv E as [m r] Hscan. injection E as <- <-. simpl.
    by eapply alloc_scan_frame.
  - intros ptr st' r E. unfold Mem_Free in E.
    case_decide; [exists 0; injection E as <- _; by auto|].
    bind_inv E as s Hs. case_decide; [exists 0; injection E as <- _; by auto|].
    bind_inv E as s1 Hs1. bind_inv E as m1 Hm1. bind_inv E as m2 Hm2.
    apply wr_size_Ret in Hm1 as [_ ->].
    assert (∀ i, i ≠ ptr - hdr → m2 !! i = mem st !! i) as H2.
    { intros i Hi. rewrite (merge_next_frame _ _ _ Hm2) by done.
      by rewrite lookup_insert_ne. }
    case_decide; [exists 0; injection E as <- _; by auto|].
    bind_inv E as prev Hprev. bind_inv E as m3 Hm3. injection E as <- _.
    exists prev. split.
    + destruct (find_prev_Ret _ _ _ _ _ _ Hprev)
        as [[-> _] | (Hne & _ & h & Hm & Hnext)]; [by left|].
      right. split; [done|]. exists h. by rewrite <- H2.
    + intros i Hi1 Hi2. simpl.
      rewrite (merge_prev_frame _ _ _ Hm3) by done. by apply H2.
Qed.

(** X16.  A walk that has used up [walk_fuel], one step more than there are
    headers in memory, without result has come round to a header it has
    seen: with any number of steps it goes on.  So where [Mem_Alloc] or
    the search of [Mem_Free] for the block before is found not to end, no
    bound on the number of steps is to blame. *)
Theorem walk_fuel_adequate m :
  (∀ sb need p,
     alloc_scan hdr (walk_fuel m) m sb need p = Loops →
     ∀ fuel, alloc_scan hdr fuel m sb need p = Loops) ∧
  (∀ newPtr p prev,
     find_prev (walk_fuel m) m newPtr p prev = Loops →
     ∀ fuel, find_prev fuel m newPtr p prev = Loops).
Proof.
  split.
  - intros sb need p E. by apply alloc_scan_diverges.
  - intros newPtr p prev E. by apply find_prev_diverges.
Qed.

(** ** What a tiled region guarantees its user *)

Lemma tiles_le p e v :
  0 < hdr → Forall (λ b, payload_ok b.2) v → tiles hdr p e v → p ≤ e.
Proof.
  intros Hh. revert p. induction v as [|[a s] v IH]; intros p Hok Ht.
  - simpl in Ht. lia.
  - apply Forall_cons in Hok as [[Hs _] Hok]. simpl in Hs, Ht.
    destruct Ht as [-> Ht]. specialize (IH _ Hok Ht). lia.
Qed.

Lemma tiles_extent p e v b t :
  0 < hdr → Forall (λ b, payload_ok b.2) v → tiles hdr p e v →
  (b, t) ∈ v → p ≤ b ∧ b + hdr + payload t ≤ e.
Proof.
  intros Hh. revert p. induction v as [|[a s] v IH]; intros p Hok Ht Hb.
  - by apply elem_of_nil in Hb.
  - apply Forall_cons in Hok as [[Hs _] Hok]. simpl in Hs, Ht.
    destruct Ht as [-> Ht]. apply elem_of_cons in Hb as [[= -> ->]|Hb].
    + split; [lia|]. by eapply tiles_le.
    + destruct (IH _ Hok Ht Hb). lia.
Qed.

(** X17.  On a list that tiles the region, the block [Mem_Alloc] hands
    out was free, and the bytes from its header to the end of the rounded
    request lie inside the region and share no byte with any other block
    of the list, busy or free, header or payload. *)
Theorem Mem_Alloc_no_overlap e st v size st' p :
  hdr mod 4 = 0 → 0 < hdr → region_ok hdr e st v →
  Mem_Alloc hdr size st = Ret (st', p) → p ≠ 0 →
  size ≤ rounded size ∧
  list_head st + hdr ≤ p ∧ p + rounded size + hdr ≤ e ∧
  (∃ s, (p - hdr, s) ∈ v ∧ is_free s = true) ∧
  ∀ b t, (b, t) ∈ v → b ≠ p - hdr →
    b + hdr + payload t ≤ p - hdr ∨ p + rounded size + hdr ≤ b.
Proof.
  intros Hh4 Hh Hreg E Hp. pose proof Hreg as (Hdm & Ht & Hpos & Hao).
  destruct (Mem_Alloc_first_fit size st v st' p (dm_list _ _ _ Hdm) E Hp)
    as (Hsize & pre & a & s & post & -> & -> & [Hfree Hfit] & _).
  replace (a + hdr - hdr) with a by lia.
  pose proof (dm_payload _ _ _ Hdm) as Hok.
  rewrite payload_free in Hfit by done.
  assert ((a, s) ∈ pre ++ (a, s) :: post) as Hin
    by (apply elem_of_app; right; left).
  destruct (tiles_extent _ _ _ _ _ Hh Hok Ht Hin) as [Hlo Hhi].
  rewrite payload_free in Hhi by done.
  pose proof (rounded_ge size).
  split_and!; [lia|lia|lia|by eauto|].
  apply tiles_app in Ht as (r & Htpre & (-> & Htpost)).
  rewrite payload_free in Htpost by done.
  apply Forall_app in Hok as (Hokpre & [_ Hokpost]%Forall_cons).
  intros b t [Hb | [[= -> ->] | Hb]%elem_of_cons]%elem_of_app Hne.
  - left. by destruct (tiles_extent _ _ _ _ _ Hh Hokpre Htpre Hb).
  - done.
  - right. destruct (tiles_extent _ _ _ _ _ Hh Hokpost Htpost Hb). lia.
Qed.

(** X18.  What fits a fresh region.  After a successful first [Mem_Init]
    a request succeeds, at the first byte after the first header, exactly
    when its rounded size and two headers fit the page-rounded region
    size: the size test counts a header the block already has, so a
    request for the whole free payload, or for less than a header's size
    short of it, fails. *)
Theorem fresh_region_capacity space_ptr n size st1 :
  0 < pagesize → pagesize mod 4 = 0 → hdr mod 4 = 0 → 0 < hdr ≤ pagesize →
  0 < space_ptr →
  Mem_Init hdr pagesize (Mapped space_ptr) n initial = Ret (st1, 0) →
  0 < size →
  (rounded size + 2 * hdr ≤ region_size pagesize n →
   ∃ st2, Mem_Alloc hdr size st1 = Ret (st2, space_ptr + hdr)) ∧
  (region_size pagesize n < rounded size + 2 * hdr →
   rounded size + hdr ≤ INT_MAX →
   Mem_Alloc hdr size st1 = Ret (st1, 0)).
Proof.
  intros Hp Hp4 Hh4 Hh Hsp E Hsize.
  destruct (Mem_Init_data_model space_ptr n st1 Hp Hp4 Hh4 Hh E)
    as ([Hc Hne _ _ Hok Hcov] & Hfree & Hcoveq).
  rewrite Hcoveq in Hcov.
  pose proof (rounded_ge size) as Hr.
  apply Forall_cons in Hok as [[Hs0 _] _]. simpl in Hs0.
  rewrite payload_free in Hs0 by done.
  unfold Mem_Alloc. rewrite decide_False by lia. split.
  - intros Hfit.
    rewrite bytes_needed_ok by (unfold INT_MAX in *; lia).
    rewrite bind_ret_l.
    rewrite (alloc_scan_first _ _ _ _ [] space_ptr
               (region_size pagesize n - hdr) []);
      [|done|done|split; [done|rewrite payload_free by done; lia]].
    destruct Hc as (_ & Hsp0 & nx & Hm & _).
    rewrite (carve_spec _ _ _ _ _ _ Hsp0 Hm) by lia.
    rewrite !int_ok by (unfold INT_MIN, INT_MAX in *; lia).
    rewrite !bind_ret_l.
    pose proof (quot_hdr_bounds (rounded size + hdr) ltac:(lia) ltac:(lia)).
    case_decide.
    + cbv zeta. rewrite decide_False by lia.
      rewrite !bind_ret_l. by eexists.
    + rewrite !bind_ret_l. by eexists.
  - intros Hbig Hmax.
    rewrite bytes_needed_ok by lia. rewrite bind_ret_l.
    rewrite (alloc_scan_none _ _ _ _ _ Hc Hne).
    + rewrite bind_ret_l. by rewrite state_eta.
    + repeat constructor. simpl. intros [_ Hfit].
      rewrite payload_free in Hfit by done. lia.
Qed.

Lemma region_ok_all_free e st v :
  region_ok hdr e st v → Forall (λ b, is_free b.2 = true) v →
  v = [(list_head st, e - list_head st - hdr)].
Proof.
  intros ([_ Hne _ Hnaf _ _] & Ht & _) Hall.
  destruct v as [|[a s] [|[b t] v]]; [done| |].
  - simpl in Ht. destruct Ht as [<- Ht].
    apply Forall_cons in Hall as [Hs _]. simpl in Hs.
    rewrite payload_free in Ht by done. do 2 f_equal. lia.
  - apply Forall_cons in Hall as [Hs [Ht' _]%Forall_cons].
    destruct Hnaf as [Hst _]. by destruct Hst.
Qed.

(** X19.  Nothing stays fragmented.  After a successful first [Mem_Init]
    and any calls that return, with requests of whole headers: once no
    block of the list is busy, the list is a single free block, at the
    start of the region, with the payload it had after [Mem_Init]. *)
Theorem all_freed_one_block space_ptr n cs st rs v :
  0 < pagesize → pagesize mod 4 = 0 → hdr mod 4 = 0 → 0 < hdr ≤ pagesize →
  0 < space_ptr → Forall (whole_headers hdr) cs →
  run_all hdr pagesize (Init (Mapped space_ptr) n :: cs) initial
  = Ret (st, 0 :: rs) →
  block_list st v → Forall (λ b, is_free b.2 = true) v →
  v = [(space_ptr, region_size pagesize n - hdr)].
Proof.
  intros Hp Hp4 Hh4 Hh Hsp Hw E Hc Hall.
  cbn [run_all run] in E. bind_inv E as [st1 r] E1.
  bind_inv E as [st2 rs'] E2. injection E as <- -> <-.
  destruct (Mem_Init_region_ok space_ptr n st1 Hp Hp4 Hh4 Hh Hsp E1)
    as [Hreg1 Hlh1].
  destruct (run_all_region_ok _ cs st1 st2 rs' _ Hh4 ltac:(lia) Hreg1 Hw E2)
    as (v' & Hreg & Hlh).
  pose proof Hreg as (Hdm & _).
  rewrite (chain_inj _ _ _ _ Hc (dm_list _ _ _ Hdm)) in Hall |- *.
  rewrite (region_ok_all_free _ _ _ Hreg Hall), Hlh, Hlh1.
  do 2 f_equal. lia.
Qed.

Lemma coalesced_keeps_busy pre a s post b t :
  (b, t) ∈ pre ++ (a, s) :: post → b ≠ a → is_free t = false →
  (b, t) ∈ coalesced hdr pre a s post.
Proof.
  intros Hin Hne Hbusy.
  destruct (coalesced_cases hdr pre a s post) as (s' & post' & Hab & Hcases).
  assert ((b, t) ∈ pre ∨ (b, t) ∈ post') as Hin'.
  { apply elem_of_app in Hin as [?|[[= ? ?]|Hin]%elem_of_cons];
      [by left|done|]. right.
    destruct (absorb_next_inv _ _ _ _ _ Hab)
      as [(-> & _) | (b' & t' & -> & Hfree & _)]; [done|].
    apply elem_of_cons in Hin as [[= -> ->]|?]; [congruence|done]. }
  destruct Hcases as [(-> & ->) | (pre' & c & u & -> & [[Hu ->] | [Hu ->]])].
  - destruct Hin' as [?%elem_of_nil|?]; [done|by right].
  - apply elem_of_app. destruct Hin' as [[?|Hcu]%elem_of_app|?].
    + by left.
    + apply list_elem_of_singleton in Hcu as [= -> ->]. congruence.
    + right. by right.
  - apply elem_of_app. destruct Hin' as [?|?]; [by left|right; by right].
Qed.

(** X20.  A block that is allocated is left alone.  On a list that tiles
    the region, whatever call returns next, other than [Mem_Free] on the
    block itself: the block is still on the list, still busy, with the
    size it had, and [Mem_Alloc] has not handed out its address again. *)
Theorem busy_block_stable e st v c st' r b t :
  hdr mod 4 = 0 → 0 < hdr → region_ok hdr e st v →
  (b, t) ∈ v → Z.odd t = true → c ≠ Free (b + hdr) →
  run hdr pagesize c st = Ret (st', r) →
  ∃ v', data_model hdr st' v' ∧ (b, t) ∈ v' ∧
        (∀ size, c = Alloc size → r ≠ b + hdr).
Proof.
  intros Hh4 Hh Hreg Hb Hodd Hc E.
  assert (is_free t = false) as Hbusy by (by rewrite is_free_odd, Hodd).
  destruct c as [os n|size|ptr]; simpl in E.
  - pose proof Hreg as (Hdm & _ & _ & Hao).
    rewrite Mem_Init_once in E by done. injection E as <- _.
    exists v. by split_and!.
  - destruct (Mem_Alloc_region e st v size st' r Hh4 Hh Hreg E)
      as [[-> ->] | (Hr & Hsize & pre & s & post & -> & [Hfree _] & _ & Hdm'
                    & _)].
    + exists v. split_and!; [apply Hreg|done|].
      intros _ _ Heq. pose proof (region_ok_positive _ _ _ _ Hh Hreg
        (list_elem_of_fmap_2 fst _ _ Hb)). simpl in *. lia.
    + assert (b ≠ r - hdr) as Hne.
      { intros ->. pose proof (chain_NoDup _ _ _ (dm_list _ _ _ (proj1 Hreg)))
          as Hnd.
        apply elem_of_app in Hb as [Hb|[[= ->]|Hb]%elem_of_cons];
          [|congruence|].
        - rewrite fmap_app, fmap_cons in Hnd.
          apply NoDup_app in Hnd as (_ & Hdisj & _).
          apply (Hdisj (r - hdr) (list_elem_of_fmap_2 fst _ _ Hb)). by left.
        - rewrite fmap_app, fmap_cons in Hnd.
          apply NoDup_app in Hnd as (_ & _ & [Hnot _]%NoDup_cons).
          apply Hnot. apply (list_elem_of_fmap_2 fst _ _ Hb). }
      eexists. split; [exact Hdm'|]. split; [|intros _ _; lia].
      unfold allocated. cbv zeta.
      apply elem_of_app in Hb as [Hb|[[= ? ?]|Hb]%elem_of_cons]; [|done|];
        case_decide; apply elem_of_app; auto; right; right; auto.
      by right.
  - destruct (Mem_Free_region e ptr st v st' r Hh4 Hh Hreg E)
      as (v' & (Hdm' & _) & _ & [-> | (_ & pre & s & post & -> & _ & ->)]).
    + exists v. by split_and!.
    + eexists. split; [exact Hdm'|]. split; [|done].
      apply coalesced_keeps_busy; [done| |done].
      intros ->. apply Hc. f_equal. lia.
Qed.

(** ** The sizes of a request, and when it succeeds *)

(** X21.  The sizes [Mem_Alloc] works with.  For a positive request the
    rounded size [sizeBy4] is the least multiple of 4 that holds it and
    [sizeWithHead] is one header more; they are computed, without
    overflow, exactly when [sizeWithHead] is at most [INT_MAX]. *)
Theorem bytes_needed_spec size :
  0 < size → 0 < hdr →
  (∀ sb need, bytes_needed hdr size = Ret (sb, need) →
     sb mod 4 = 0 ∧ size ≤ sb < size + 4 ∧ need = sb + hdr ∧
     need ≤ INT_MAX) ∧
  ((∃ sb need, bytes_needed hdr size = Ret (sb, need)) ↔
   4 * ((size + 3) / 4) + hdr ≤ INT_MAX).
Proof.
  intros Hsize Hh. pose proof (rounded_ge size) as Hr.
  pose proof (rounded_mod4 size) as Hr4. split.
  - intros sb need E.
    apply bytes_needed_Ret in E as (-> & -> & ?); [|done].
    split_and!; (done || lia).
  - split.
    + intros (sb & need & E).
      by apply bytes_needed_Ret in E as (_ & -> & ?).
    + intros Hmax. exists (rounded size), (rounded size + hdr).
      by apply bytes_needed_ok.
Qed.

(** X22.  When a request succeeds.  On a list that tiles the region a
    positive request whose sizes are [int]s always returns, and it returns
    an address exactly when some block of the list is free with a payload
    of at least the rounded size plus one header; otherwise it returns
    NULL and the state is as it was. *)
Theorem Mem_Alloc_succeeds_iff e st v size :
  hdr mod 4 = 0 → 0 < hdr → region_ok hdr e st v →
  0 < size → rounded size + hdr ≤ INT_MAX →
  ∃ st' p, Mem_Alloc hdr size st = Ret (st', p) ∧
    (p ≠ 0 ↔ Exists (λ b, fits (rounded size + hdr) b.2) v) ∧
    (p = 0 → st' = st).
Proof.
  intros Hh4 Hh Hreg Hsize Hmax. pose proof Hreg as (Hdm & Ht & Hpos & Hao).
  destruct Hdm as [Hc Hne Hsort Hnaf Hok Hcov].
  pose proof (rounded_ge size) as Hr. pose proof (rounded_mod4 size) as Hr4.
  assert (4 ≤ rounded size) as Hr' by zdiv.
  unfold Mem_Alloc. rewrite decide_False by lia.
  rewrite bytes_needed_ok by done. rewrite bind_ret_l.
  destruct (first_fit_split (rounded size + hdr) v)
    as [Hnone | (pre & a & s & post & -> & Hpre & Hfit)].
  - rewrite (alloc_scan_none _ _ _ _ _ Hc Hne Hnone), bind_ret_l.
    eexists _, 0. split; [done|]. split; [|intros _; apply state_eta].
    split; [done|]. intros Hex. apply Exists_exists in Hex as (b & Hb & Hfb).
    rewrite Forall_forall in Hnone. by destruct (Hnone b Hb).
  - rewrite (alloc_scan_first _ _ _ _ _ _ _ _ Hc Hpre Hfit).
    assert ((a, s) ∈ pre ++ (a, s) :: post) as Hin
      by (apply elem_of_app; right; left).
    destruct (lseg_lookup _ _ _ _ _ _ Hc Hin) as (Ha & nx & Hm).
    pose proof (region_ok_positive _ _ _ _ Hh Hreg
                  (list_elem_of_fmap_2 fst _ _ Hin)) as Hapos. simpl in Hapos.
    pose proof Hfit as [Hfree Hge]. rewrite payload_free in Hge by done.
    assert (s + hdr ≤ INT_MAX) as Hsmax.
    { rewrite coverage_app, coverage_cons, (payload_free s) in Hcov by done.
      apply Forall_app in Hok as (Hokpre & [_ Hokpost]%Forall_cons).
      pose proof (coverage_nonneg hdr pre ltac:(lia) Hokpre).
      pose proof (coverage_nonneg hdr post ltac:(lia) Hokpost). lia. }
    rewrite (carve_spec _ _ _ _ _ _ Ha Hm) by lia.
    rewrite !int_ok by (unfold INT_MIN, INT_MAX in *; lia).
    rewrite !bind_ret_l.
    pose proof (quot_hdr_bounds (rounded size + hdr) Hh ltac:(lia)).
    assert (Exists (λ b : Z * Z, fits (rounded size + hdr) b.2)
              (pre ++ (a, s) :: post)) as Hex.
    { apply Exists_exists. by exists (a, s). }
    case_decide.
    + cbv zeta. rewrite decide_False by lia. rewrite !bind_ret_l.
      eexists _, (a + hdr). split; [done|]. split; [|lia].
      split; [done|intros _; lia].
    + rewrite !bind_ret_l.
      eexists _, (a + hdr). split; [done|]. split; [|lia].
      split; [done|intros _; lia].
Qed.

End Properties.

(** C2 as stated fails: a call to [Mem_Init] that failed does not stop a
    later call from succeeding. *)
Lemma C2_counterexample :
  ¬ (∀ os1 n1 st1 r1 os2 n2 st2 r2,
       Mem_Init 8 4096 os1 n1 initial = Ret (st1, r1) →
       Mem_Init 8 4096 os2 n2 st1 = Ret (st2, r2) →
       r2 = -1).
Proof.
  intros H.
  specialize (H (Mapped base) 0 initial (-1) (Mapped base) 1024
                (State 1 base {[base := BlockHd 0 4088]}) 0).
  discriminate H; reflexivity.
Qed.

Lemma C2_init_failures_witness :
  Mem_Init 8 4096 (Mapped base) 2048
    (State 1 base {[base := BlockHd 0 4088]})
  = Ret (State 1 base {[base := BlockHd 0 4088]}, -1).
Proof.
  refine (proj2 (proj2 (proj2
            (C2_init_failures 8 4096 (Mapped base) 1024 initial)))
            _ _ (Mapped base) 2048 _ (steps_refl _ _ _)).
  vm_compute. reflexivity.
Defined.

(** ** Concrete states *)

Lemma fresh_state_data_model : data_model 8 fresh_state [(base, 4088)].
Proof.
  split.
  - unfold block_list, chain. simpl. split_and!; [done..|].
    eexists. split; [by vm_compute|done].
  - done.
  - repeat constructor.
  - by simpl.
  - repeat constructor; by vm_compute.
  - by vm_compute.
Qed.

Lemma split_state_list :
  block_list split_state [(base, 101); (base + 104, 3980)].
Proof.
  unfold block_list, chain. simpl. split_and!; [done..|].
  eexists. split; [by vm_compute|]. split_and!; [done..|].
  eexists. split; [by vm_compute|done].
Qed.

Lemma three_blocks_data_model :
  data_model 8 three_blocks [(base, 52); (base + 40, 5); (base + 48, 4016)].
Proof.
  split.
  - unfold block_list, chain. simpl. split_and!; [done..|].
    eexists. split; [by vm_compute|]. split_and!; [done..|].
    eexists. split; [by vm_compute|]. split_and!; [done..|].
    eexists. split; [by vm_compute|done].
  - done.
  - repeat constructor; by vm_compute.
  - simpl. by intuition.
  - repeat constructor; by vm_compute.
  - by vm_compute.
Qed.

Lemma three_blocks_16_data_model :
  data_model 16 three_blocks_16
    [(base, 68); (base + 48, 13); (base + 64, 3968)].
Proof.
  split.
  - unfold block_list, chain. simpl. split_and!; [done..|].
    eexists. split; [by vm_compute|]. split_and!; [done..|].
    eexists. split; [by vm_compute|]. split_and!; [done..|].
    eexists. split; [by vm_compute|done].
  - done.
  - repeat constructor; by vm_compute.
  - simpl. by intuition.
  - repeat constructor; by vm_compute.
  - by vm_compute.
Qed.

Lemma scenario_B_steps : steps 8 4096 initial split_state.
Proof.
  eapply (steps_call _ _ _ (Init (Mapped base) 1024)); [by vm_compute|].
  eapply (steps_call _ _ _ (Alloc 100)); [by vm_compute|].
  apply steps_refl.
Qed.

(** ** The two defects, on concrete runs *)

(** C1.  A split puts the new block [(rounded size + header size) / header
    size] header-widths after the block's start, the division rounding
    down: the new block inherits the old [next] and holds the old payload
    minus (rounded size + header size), as claimed, but it begins right
    after the allocated payload only when the rounded size is a multiple
    of the header size.  After [Mem_Init(1024)] and [Mem_Alloc(100)] with
    an 8-byte header it begins at offset 104, inside the allocated payload
    that ends at offset 108; with a 16-byte header at 112 instead of
    116. *)
Theorem C1_new_block_address :
  (∀ hdr m ptr nx s size m' r,
     0 < hdr → 0 < size → ptr ≠ 0 → m !! ptr = Some (BlockHd nx s) →
     hdr + 4 ≤ s - (rounded size + hdr) →
     carve hdr m ptr (rounded size) (rounded size + hdr) = Ret (m', r) →
     let newBlock := ptr + (rounded size + hdr) ÷ hdr * hdr in
     r = ptr + hdr ∧
     m' !! ptr = Some (BlockHd newBlock (rounded size + 1)) ∧
     m' !! newBlock = Some (BlockHd nx (s - (rounded size + hdr))) ∧
     (newBlock = ptr + hdr + rounded size ↔ rounded size mod hdr = 0)) ∧
  run_all 8 4096 scenario_B initial = Ret (split_state, [0; base + 8]) ∧
  block_list split_state [(base, 101); (base + 104, 3980)] ∧
  base + 104 ≠ base + 8 + rounded 100 ∧
  ∃ st, run_all 16 4096 scenario_B initial = Ret (st, [0; base + 16]) ∧
        block_list st [(base, 101); (base + 112, 3964)] ∧
        base + 112 ≠ base + 16 + rounded 100.
Proof.
  split_and!.
  - apply split_places_block.
  - by vm_compute.
  - apply split_state_list.
  - by vm_compute.
  - eexists. split_and!; [by vm_compute| |by vm_compute].
    unfold block_list, chain. simpl. split_and!; [done..|].
    eexists. split; [by vm_compute|]. split_and!; [done..|].
    eexists. split; [by vm_compute|done].
Qed.

Lemma C1_new_block_address_witness :
  base + 8 = base + 8 ∧
  mem split_state !! base = Some (BlockHd (base + 108 ÷ 8 * 8) (rounded 100 + 1)) ∧
  mem split_state !! (base + 108 ÷ 8 * 8)
  = Some (BlockHd 0 (4088 - (rounded 100 + 8))) ∧
  (base + 108 ÷ 8 * 8 = base + 8 + rounded 100 ↔ rounded 100 mod 8 = 0).
Proof.
  apply (proj1 C1_new_block_address 8 (mem fresh_state) base 0 4088 100
           (mem split_state) (base + 8)); try (by vm_compute).
Defined.

(** C3.  Six 4-byte blocks are allocated and the first five freed: the
    list is three blocks, the invariants of the data model hold and the
    covered size is the region size.  A request of 32 bytes then splits
    the first block and writes the new header over the header of the
    second block, whose [next] now points to itself: the list has no end,
    no finite sequence of blocks covers the region, [Mem_Dump] never
    prints its totals and a request that fits nowhere never returns.
    With a 16-byte header four 12-byte blocks, the first three freed, and
    a request of 32 bytes do the same. *)
Theorem C3_coverage_broken :
  (run_all 8 4096 six_blocks_five_freed initial
   = Ret (three_blocks,
          [0; base + 8; base + 16; base + 24; base + 32; base + 40; base + 48;
           0; 0; 0; 0; 0]) ∧
   data_model 8 three_blocks [(base, 52); (base + 40, 5); (base + 48, 4016)] ∧
   coverage 8 [(base, 52); (base + 40, 5); (base + 48, 4016)]
   = region_size 4096 1024 ∧
   Mem_Alloc 8 32 three_blocks = Ret (cyclic_state, base + 8) ∧
   mem cyclic_state !! base = Some (BlockHd (base + 40) 33) ∧
   mem cyclic_state !! (base + 40) = Some (BlockHd (base + 40) 12) ∧
   ¬ (∃ v, block_list cyclic_state v) ∧
   Mem_Dump 8 cyclic_state = Loops ∧
   Mem_Alloc 8 4096 cyclic_state = Loops) ∧
  (run_all 16 4096 four_blocks_three_freed initial
   = Ret (three_blocks_16,
          [0; base + 16; base + 32; base + 48; base + 64; 0; 0; 0]) ∧
   data_model 16 three_blocks_16
     [(base, 68); (base + 48, 13); (base + 64, 3968)] ∧
   coverage 16 [(base, 68); (base + 48, 13); (base + 64, 3968)]
   = region_size 4096 1024 ∧
   Mem_Alloc 16 32 three_blocks_16 = Ret (cyclic_state_16, base + 16) ∧
   mem cyclic_state_16 !! base = Some (BlockHd (base + 48) 33) ∧
   mem cyclic_state_16 !! (base + 48) = Some (BlockHd (base + 48) 20) ∧
   ¬ (∃ v, block_list cyclic_state_16 v) ∧
   Mem_Dump 16 cyclic_state_16 = Loops ∧
   Mem_Alloc 16 4096 cyclic_state_16 = Loops).
Proof.
  split; split_and!; try (by vm_compute).
  - apply three_blocks_data_model.
  - intros [v Hv]. unfold block_list, chain in Hv.
    destruct v as [|[a s] v]; [done|].
    destruct Hv as (<- & _ & nx & Hm & Hl).
    assert (nx = base + 40) as ->.
    { vm_compute in Hm. by injection Hm as <- _. }
    eapply (self_loop_no_list _ (base + 40) 12); [| |exact Hl]; by vm_compute.
  - apply three_blocks_16_data_model.
  - intros [v Hv]. unfold block_list, chain in Hv.
    destruct v as [|[a s] v]; [done|].
    destruct Hv as (<- & _ & nx & Hm & Hl).
    assert (nx = base + 48) as ->.
    { vm_compute in Hm. by injection Hm as <- _. }
    eapply (self_loop_no_list _ (base + 48) 20); [| |exact Hl]; by vm_compute.
Qed.

(** Outside the invariants of the data model the calls are no longer
    what their contracts say.  The run below ends with a [Mem_Alloc] that
    returns [base + 64]; its split has written the new header over the
    header of the block before it and so taken the allocated block off the
    list: [Mem_Free] on the address just returned walks to the end of the
    list and reads through NULL. *)
Lemma bypassed_block_free_faults :
  ('(st, rs) ← run_all 8 4096 bypassed_block_run initial;
   Ret (last rs, Mem_Free 8 (base + 64) st))
  = Ret (Some (base + 64), Fault).
Proof. by vm_compute. Qed.

(** C6.  Not every address that [Mem_Alloc] returns can be freed.  Every
    call of the run returns, and every [Mem_Free] in it is given an
    address that an earlier [Mem_Alloc] returned and that was not freed
    since.  Its last call, a request of 4 bytes, returns [base + 64]: it
    has split the free block whose header is at [base + 56] and written
    the header of the rest at [base + 64], over the header of the block
    that led to it, so that the list no longer passes through the block
    just allocated.  The header before the returned address carries the
    flag, yet [Mem_Free] on that address does not succeed: its walk from
    the head ends at the last block, which is free, and it reads the
    block after that through NULL. *)
Theorem C6_free_after_alloc_faults :
  run_all 8 4096 bypassed_block_run initial
  = Ret (bypassed_state,
         [0; base + 8; base + 16; base + 24; base + 32; base + 40; base + 48;
          base + 56; base + 64; 0; 0; 0; 0; 0; 0; 0;
          base + 8; base + 72; 0; base + 64]) ∧
  mem bypassed_state !! (base + 64 - 8) = Some (BlockHd (base + 64) 5) ∧
  is_free 5 = false ∧
  block_list bypassed_state [(base, 57); (base + 64, 3992)] ∧
  Mem_Free 8 (base + 64) bypassed_state = Fault.
Proof.
  split; [by vm_compute|]. split; [by vm_compute|]. split; [done|].
  split; [|by vm_compute].
  unfold block_list, chain. simpl. split_and!; [done..|].
  eexists. split; [by vm_compute|]. split_and!; [done..|].
  eexists. split; [by vm_compute|done].
Qed.

(** C8.  [Mem_Alloc] does not always return NULL where no block passes the
    size test.  In the state the run of six requests, five frees and a
    request of 32 bytes ends in, no header in memory, on the list or not,
    passes the test for 4096 bytes; the list is cyclic, and the request
    never returns, however long the loop is followed.  And on the fresh
    region a request of [INT_MAX] bytes, which the one block cannot hold,
    overflows in rounding the size instead of returning NULL. *)
Theorem C8_alloc_never_returns :
  run_all 8 4096 (six_blocks_five_freed ++ [Alloc 32]) initial
  = Ret (cyclic_state,
         [0; base + 8; base + 16; base + 24; base + 32; base + 40; base + 48;
          0; 0; 0; 0; 0; base + 8]) ∧
  (∀ a h, mem cyclic_state !! a = Some h →
          ¬ fits (rounded 4096 + 8) (size_status h)) ∧
  Mem_Alloc 8 4096 cyclic_state = Loops ∧
  (∀ fuel, alloc_scan 8 fuel (mem cyclic_state) (rounded 4096)
             (rounded 4096 + 8) (list_head cyclic_state) = Loops) ∧
  run_all 8 4096 [Init (Mapped base) 1024] initial = Ret (fresh_state, [0]) ∧
  block_list fresh_state [(base, 4088)] ∧
  ¬ fits (rounded INT_MAX + 8) 4088 ∧
  Mem_Alloc 8 INT_MAX fresh_state = Fault.
Proof.
  split; [by vm_compute|]. split.
  { change (map_Forall (λ _ h, ¬ fits (rounded 4096 + 8) (size_status h))
              (mem cyclic_state)).
    apply (bool_decide_unpack _). by vm_compute. }
  split; [by vm_compute|]. split.
  { apply alloc_scan_diverges. by vm_compute. }
  split; [by vm_compute|]. split; [apply fresh_state_data_model|].
  split; [|by vm_compute].
  intros [_ Hfit]. vm_compute in Hfit. by apply Hfit.
Qed.

(** ** The theorems at work on concrete states *)

Lemma skip_state_list :
  block_list skip_state [(base, 16); (base + 24, 17); (base + 48, 4040)].
Proof.
  unfold block_list, chain. simpl. split_and!; [done..|].
  eexists. split; [by vm_compute|]. split_and!; [done..|].
  eexists. split; [by vm_compute|]. split_and!; [done..|].
  eexists. split; [by vm_compute|done].
Qed.

Lemma C4_no_adjacent_free_witness :
  ∃ st', Mem_Free 8 (base + 48) three_blocks = Ret (st', 0) ∧
         block_list st'
           (coalesced 8 [(base, 52)] (base + 48 - 8) 5 [(base + 48, 4016)]).
Proof.
  apply (proj2 (C4_no_adjacent_free 8 (base + 48) three_blocks
                  [(base, 52); (base + 40, 5); (base + 48, 4016)]
                  eq_refl eq_refl three_blocks_data_model)).
  - by vm_compute.
  - by vm_compute.
  - reflexivity.
Defined.

Lemma C5_first_fit_witness :
  0 < 16 ∧
  ∃ pre a s post,
    [(base, 16); (base + 24, 17); (base + 48, 4040)] = pre ++ (a, s) :: post ∧
    base + 56 = a + 8 ∧
    fits (rounded 16 + 8) s ∧
    Forall (λ b, ¬ fits (rounded 16 + 8) b.2) pre ∧
    (StronglySorted Z.lt [(base, 16); (base + 24, 17); (base + 48, 4040)].*1 →
     ∀ b t, (b, t) ∈ [(base, 16); (base + 24, 17); (base + 48, 4040)] →
            fits (rounded 16 + 8) t → a ≤ b) ∧
    (∀ b t, (b, t) ∈ [(base, 16); (base + 24, 17); (base + 48, 4040)] →
            payload t < rounded 16 + 8 → base + 56 ≠ b + 8) ∧
    (0 < 8 →
     ∃ nx' s', mem skip_state_alloc16 !! a = Some (BlockHd nx' s') ∧
       is_free s' = false ∧ rounded 16 ≤ payload s' ∧
       s' = if decide (8 + 4 ≤ s - (rounded 16 + 8))
            then rounded 16 + 1 else s + 1) ∧
    (0 < 8 →
     StronglySorted Z.lt [(base, 16); (base + 24, 17); (base + 48, 4040)].*1 →
     ∀ b t, (b, t) ∈ pre → mem skip_state_alloc16 !! b = mem skip_state !! b).
Proof.
  apply (C5_first_fit 8 16 skip_state
           [(base, 16); (base + 24, 17); (base + 48, 4040)]
           skip_state_alloc16 (base + 56)).
  - apply skip_state_list.
  - by vm_compute.
  - by vm_compute.
Defined.

Lemma C7_round_trip_collapse_witness :
  (8 + 4 ≤ region_size 4096 1024 - 8 - (rounded 100 + 8) →
   block_list split_state
     [(base, rounded 100 + 1);
      (base + (rounded 100 + 8) ÷ 8 * 8,
       region_size 4096 1024 - 8 - (rounded 100 + 8))]) ∧
  ∃ st3, Mem_Free 8 (base + 8) split_state = Ret (st3, 0) ∧
         block_list st3 [(base, region_size 4096 1024 - 8)] ∧
         is_free (region_size 4096 1024 - 8) = true.
Proof.
  apply (C7_round_trip_collapse 8 4096 base 1024 100 fresh_state split_state
           (base + 8) eq_refl eq_refl eq_refl).
  - by vm_compute.
  - by vm_compute.
  - by vm_compute.
  - by vm_compute.
Defined.

Lemma C9_payload_multiple_of_4_witness :
  0 ≤ payload 101 ∧ payload 101 mod 4 = 0.
Proof.
  apply (proj1 (C9_payload_multiple_of_4 8 4096 split_state
                  eq_refl eq_refl eq_refl
                  (conj eq_refl (λ H : (8 ?= 4096) = Gt, ltac:(discriminate H)))
                  scenario_B_steps)
           base (BlockHd (base + 104) 101)).
  by vm_compute.
Defined.

Lemma C10_free_failure_atomic_witness :
  Mem_Free 8 (base + 112) split_state = Ret (split_state, -1).
Proof.
  apply (proj2 (proj2 (C10_free_failure_atomic 8 (base + 112) split_state))
           (BlockHd 0 3980)).
  - by vm_compute.
  - by vm_compute.
  - by vm_compute.
  - reflexivity.
Defined.

(** ** The further properties on concrete states *)

Lemma fresh_state_region_ok :
  region_ok 8 (base + 4096) fresh_state [(base, 4088)].
Proof.
  split_and!; [apply fresh_state_data_model|by vm_compute..].
Qed.

Lemma tiled_two_region_ok :
  region_ok 8 (base + 4096) tiled_two [(base, 17); (base + 24, 4064)].
Proof.
  split_and!; [|by vm_compute..]. split.
  - unfold block_list, chain. simpl. split_and!; [done..|].
    eexists. split; [by vm_compute|]. split_and!; [done..|].
    eexists. split; [by vm_compute|done].
  - done.
  - repeat constructor; by vm_compute.
  - simpl. by intuition.
  - repeat constructor; by vm_compute.
  - by vm_compute.
Qed.

Lemma split_state_payloads :
  Forall (λ b : Z * Z, payload_ok b.2) [(base, 101); (base + 104, 3980)].
Proof. repeat constructor; by vm_compute. Qed.

Lemma Mem_Dump_table_spec_witness :
  ∃ rows,
    Mem_Dump_table 8 split_state
    = Ret (rows, busy_total 8 [(base, 101); (base + 104, 3980)],
           free_total 8 [(base, 101); (base + 104, 3980)],
           coverage 8 [(base, 101); (base + 104, 3980)]) ∧
    Mem_Dump 8 split_state
    = Ret (busy_total 8 [(base, 101); (base + 104, 3980)],
           free_total 8 [(base, 101); (base + 104, 3980)],
           coverage 8 [(base, 101); (base + 104, 3980)]) ∧
    length rows = length [(base, 101); (base + 104, 3980)] ∧
    ∀ (i : nat) a s, [(base, 101); (base + 104, 3980)] !! i = Some (a, s) →
      rows !! i
      = Some (DumpRow (1 + Z.of_nat i) (Z.odd s) (a + 8)
                      (a + 8 + payload s) (payload s) (payload s + 8) a).
Proof.
  apply (Mem_Dump_table_spec 8 split_state
           [(base, 101); (base + 104, 3980)]
           eq_refl eq_refl split_state_list split_state_payloads).
  by vm_compute.
Defined.

Lemma Mem_Dump_returns_list_witness :
  ∃ v, block_list split_state v ∧
       108 = busy_total 8 v ∧ 3988 = free_total 8 v ∧
       4096 = coverage 8 v ∧ INT_MIN ≤ 4096 ≤ INT_MAX.
Proof.
  apply (Mem_Dump_returns_list 8 split_state 108 3988 4096).
  by vm_compute.
Defined.

Lemma Mem_Alloc_keeps_tiling_witness :
  ∃ pre s post,
    [(base, 4088)] = pre ++ (base + 8 - 8, s) :: post ∧
    let v' := allocated 8 100 pre (base + 8 - 8) s post in
    data_model 8 split_state v' ∧
    coverage 8 v' = base + 4096 - list_head split_state ∧
    (tiles 8 (list_head split_state) (base + 4096) v' ↔
     (8 + 4 ≤ s - (rounded 100 + 8) → rounded 100 mod 8 = 0)).
Proof.
  apply (Mem_Alloc_keeps_tiling 8 (base + 4096) fresh_state [(base, 4088)]
           100 split_state (base + 8) eq_refl eq_refl
           fresh_state_region_ok).
  - by vm_compute.
  - by vm_compute.
Defined.

Lemma Mem_Free_keeps_tiling_witness :
  ∃ v', data_model 8 tiled_two_freed v' ∧
        tiles 8 (list_head tiled_two_freed) (base + 4096) v' ∧
        coverage 8 v' = base + 4096 - list_head tiled_two_freed ∧
        (v' = [(base, 17); (base + 24, 4064)] ∨
         0 = 0 ∧ ∃ pre s post,
           [(base, 17); (base + 24, 4064)]
           = pre ++ (base + 8 - 8, s) :: post ∧ Z.odd s = true ∧
           v' = coalesced 8 pre (base + 8 - 8) s post).
Proof.
  apply (Mem_Free_keeps_tiling 8 (base + 4096) (base + 8) tiled_two
           [(base, 17); (base + 24, 4064)] tiled_two_freed 0
           eq_refl eq_refl tiled_two_region_ok).
  by vm_compute.
Defined.

Lemma whole_headers_coverage_witness :
  ∃ v, data_model 8 whole_run_state v ∧
       tiles 8 base (base + region_size 4096 1024) v ∧
       coverage 8 v = region_size 4096 1024 ∧
       Mem_Dump 8 whole_run_state
       = Ret (busy_total 8 v, free_total 8 v, region_size 4096 1024).
Proof.
  apply (whole_headers_coverage 8 4096 base 1024 whole_run whole_run_state
           [base + 8; base + 32; 0] eq_refl eq_refl eq_refl
           (conj eq_refl (λ H : (8 ?= 4096) = Gt, ltac:(discriminate H)))
           eq_refl).
  - repeat constructor; by vm_compute.
  - by vm_compute.
Defined.

Lemma finite_list_terminates_witness :
  (∀ size, Mem_Alloc 8 size split_state ≠ Loops) ∧
  (∀ ptr, Mem_Free 8 ptr split_state ≠ Loops) ∧
  Mem_Dump 8 split_state ≠ Loops.
Proof.
  exact (finite_list_terminates 8 split_state
           [(base, 101); (base + 104, 3980)] split_state_list).
Defined.

Lemma headers_aligned_witness :
  (∀ a, is_Some (mem split_state !! a) →
        (a - list_head split_state) mod 8 = 0) ∧
  (∀ size st' p, Mem_Alloc 8 size split_state = Ret (st', p) → p ≠ 0 →
     (p - list_head split_state) mod 8 = 0 ∧
     list_head st' = list_head split_state).
Proof.
  exact (headers_aligned 8 4096 split_state eq_refl scenario_B_steps).
Defined.

Lemma Mem_Init_outcomes_witness :
  (0 = -1 ∧ fresh_state = initial) ∨
  (0 = 0 ∧ allocated_once initial = 0 ∧ 0 < 1024 ∧
   ∃ space_ptr alloc_size,
     Mapped base = Mapped space_ptr ∧ space_ptr ≠ 0 ∧
     allocated_once fresh_state = 1 ∧ list_head fresh_state = space_ptr ∧
     mem fresh_state
     = <[space_ptr := BlockHd 0 (alloc_size - 8)]> (mem initial) ∧
     (0 < 4096 →
      alloc_size mod 4096 = 0 ∧ 1024 ≤ alloc_size < 1024 + 4096)).
Proof.
  apply (Mem_Init_outcomes 8 4096 (Mapped base) 1024 initial fresh_state 0).
  by vm_compute.
Defined.

Lemma Mem_Init_first_call_witness :
  Mem_Init 8 4096 (Mapped base) 1024 initial
  = Ret (State 1 base
           (<[base := BlockHd 0 (region_size 4096 1024 - 8)]> (mem initial)),
         0).
Proof.
  apply (proj2 (Mem_Init_first_call 8 4096 1024 initial
                  eq_refl eq_refl eq_refl) base).
  - by vm_compute.
  - by vm_compute.
  - by vm_compute.
Defined.

Lemma Mem_Alloc_before_init_witness : Mem_Alloc 8 1 initial = Fault.
Proof. exact (Mem_Alloc_before_init 8 1 initial eq_refl eq_refl). Defined.

Lemma Mem_Alloc_overflow_witness : Mem_Alloc 8 INT_MAX fresh_state = Fault.
Proof.
  exact (Mem_Alloc_overflow 8 INT_MAX fresh_state eq_refl eq_refl eq_refl).
Defined.

Lemma Mem_Free_undoes_Mem_Alloc_witness :
  ∃ st2, Mem_Free 8 (base + 8) split_state = Ret (st2, 0) ∧
         region_ok 8 (base + 4096) st2 [(base, 4088)] ∧
         Mem_Alloc 8 100 st2 = Ret (split_state, base + 8).
Proof.
  apply (Mem_Free_undoes_Mem_Alloc 8 (base + 4096) fresh_state
           [(base, 4088)] 100 split_state (base + 8) eq_refl eq_refl
           fresh_state_region_ok).
  - by vm_compute.
  - by vm_compute.
Defined.

Lemma Mem_Free_totals_witness :
  ∃ st', Mem_Free 8 (base + 8) tiled_two = Ret (st', 0) ∧
    Mem_Dump 8 tiled_two
    = Ret (busy_total 8 ([] ++ (base + 8 - 8, 17) :: [(base + 24, 4064)]),
           free_total 8 ([] ++ (base + 8 - 8, 17) :: [(base + 24, 4064)]),
           coverage 8 ([] ++ (base + 8 - 8, 17) :: [(base + 24, 4064)])) ∧
    Mem_Dump 8 st'
    = Ret (busy_total 8 ([] ++ (base + 8 - 8, 17) :: [(base + 24, 4064)])
           - (17 - 1 + 8),
           free_total 8 ([] ++ (base + 8 - 8, 17) :: [(base + 24, 4064)])
           + (17 - 1 + 8),
           coverage 8 ([] ++ (base + 8 - 8, 17) :: [(base + 24, 4064)])).
Proof.
  apply (Mem_Free_totals 8 (base + 8) tiled_two [] 17 [(base + 24, 4064)]
           eq_refl eq_refl).
  - by vm_compute.
  - reflexivity.
  - exact (proj1 tiled_two_region_ok).
Defined.

Lemma Mem_Alloc_totals_witness :
  ∃ pre s post,
    [(base, 4088)] = pre ++ (base + 8 - 8, s) :: post ∧
    let x := if decide (8 + 4 ≤ s - (rounded 100 + 8))
             then rounded 100 + 8 else s + 8 in
    rounded 100 + 8 ≤ x < rounded 100 + 3 * 8 + 4 ∧
    Mem_Dump 8 fresh_state
    = Ret (busy_total 8 [(base, 4088)], free_total 8 [(base, 4088)],
           coverage 8 [(base, 4088)]) ∧
    Mem_Dump 8 split_state
    = Ret (busy_total 8 [(base, 4088)] + x, free_total 8 [(base, 4088)] - x,
           coverage 8 [(base, 4088)]).
Proof.
  apply (Mem_Alloc_totals 8 (base + 4096) fresh_state [(base, 4088)]
           100 split_state (base + 8) eq_refl eq_refl
           fresh_state_region_ok).
  - by vm_compute.
  - by vm_compute.
Defined.

Lemma writes_confined_witness :
  mem skip_state_alloc16 !! (base + 24) = mem skip_state !! (base + 24) ∧
  ∃ prev,
    (prev = 0 ∨
     prev ≠ base + 32 - 8 ∧
     ∃ h, mem skip_state !! prev = Some h ∧
          (next h = base + 32 - 8 ∨ next h = 0)) ∧
    ∀ i, i ≠ base + 32 - 8 → i ≠ prev →
         mem skip_state_freed !! i = mem skip_state !! i.
Proof.
  split.
  - apply (proj1 (writes_confined 8 skip_state) 16 skip_state_alloc16
             (base + 56)).
    + by vm_compute.
    + by vm_compute.
    + by vm_compute.
  - apply (proj2 (writes_confined 8 skip_state) (base + 32)
             skip_state_freed 0).
    by vm_compute.
Defined.

Lemma walk_fuel_adequate_witness :
  alloc_scan 8 100 (mem cyclic_state) 4096 4104 base = Loops.
Proof.
  apply (proj1 (walk_fuel_adequate 8 (mem cyclic_state)) 4096 4104 base).
  by vm_compute.
Defined.

Lemma Mem_Alloc_no_overlap_witness :
  8 ≤ rounded 8 ∧
  list_head tiled_two + 8 ≤ base + 32 ∧
  base + 32 + rounded 8 + 8 ≤ base + 4096 ∧
  (∃ s, (base + 32 - 8, s) ∈ [(base, 17); (base + 24, 4064)] ∧
        is_free s = true) ∧
  ∀ b t, (b, t) ∈ [(base, 17); (base + 24, 4064)] → b ≠ base + 32 - 8 →
    b + 8 + payload t ≤ base + 32 - 8 ∨ base + 32 + rounded 8 + 8 ≤ b.
Proof.
  apply (Mem_Alloc_no_overlap 8 (base + 4096) tiled_two
           [(base, 17); (base + 24, 4064)] 8 tiled_three (base + 32)
           eq_refl eq_refl tiled_two_region_ok).
  - by vm_compute.
  - by vm_compute.
Defined.

Lemma fresh_region_capacity_witness :
  (rounded 100 + 2 * 8 ≤ region_size 4096 1024 →
   ∃ st2, Mem_Alloc 8 100 fresh_state = Ret (st2, base + 8)) ∧
  (region_size 4096 1024 < rounded 100 + 2 * 8 →
   rounded 100 + 8 ≤ INT_MAX →
   Mem_Alloc 8 100 fresh_state = Ret (fresh_state, 0)).
Proof.
  apply (fresh_region_capacity 8 4096 base 1024 100 fresh_state
           eq_refl eq_refl eq_refl
           (conj eq_refl (λ H : (8 ?= 4096) = Gt, ltac:(discriminate H)))
           eq_refl).
  - by vm_compute.
  - reflexivity.
Defined.

Lemma tiled_two_freed_list : block_list tiled_two_freed [(base, 4088)].
Proof.
  unfold block_list, chain. simpl. split_and!; [done..|].
  eexists. split; [by vm_compute|done].
Qed.

Lemma all_freed_one_block_witness :
  [(base, 4088)] = [(base, region_size 4096 1024 - 8)].
Proof.
  apply (all_freed_one_block 8 4096 base 1024 [Alloc 16; Free (base + 8)]
           tiled_two_freed [base + 8; 0] [(base, 4088)]
           eq_refl eq_refl eq_refl
           (conj eq_refl (λ H : (8 ?= 4096) = Gt, ltac:(discriminate H)))
           eq_refl).
  - repeat constructor; by vm_compute.
  - by vm_compute.
  - exact tiled_two_freed_list.
  - repeat constructor.
Defined.

Lemma busy_block_stable_witness :
  ∃ v', data_model 8 tiled_three v' ∧ (base, 17) ∈ v' ∧
        (∀ size, Alloc 8 = Alloc size → base + 32 ≠ base + 8).
Proof.
  apply (busy_block_stable 8 4096 (base + 4096) tiled_two
           [(base, 17); (base + 24, 4064)] (Alloc 8) tiled_three (base + 32)
           base 17 eq_refl eq_refl tiled_two_region_ok).
  - left.
  - reflexivity.
  - discriminate.
  - by vm_compute.
Defined.

Lemma bytes_needed_spec_witness :
  (∀ sb need, bytes_needed 8 100 = Ret (sb, need) →
     sb mod 4 = 0 ∧ 100 ≤ sb < 100 + 4 ∧ need = sb + 8 ∧ need ≤ INT_MAX) ∧
  ((∃ sb need, bytes_needed 8 100 = Ret (sb, need)) ↔
   4 * ((100 + 3) / 4) + 8 ≤ INT_MAX).
Proof. exact (bytes_needed_spec 8 100 eq_refl eq_refl). Defined.

Lemma Mem_Alloc_succeeds_iff_witness :
  ∃ st' p, Mem_Alloc 8 100 fresh_state = Ret (st', p) ∧
    (p ≠ 0 ↔ Exists (λ b : Z * Z, fits (rounded 100 + 8) b.2)
                    [(base, 4088)]) ∧
    (p = 0 → st' = fresh_state).
Proof.
  apply (Mem_Alloc_succeeds_iff 8 (base + 4096) fresh_state [(base, 4088)]
           100 eq_refl eq_refl fresh_state_region_ok eq_refl).
  by vm_compute.
Defined.

